(** * The telemetry pipeline of the shopping-list client

    A shallow embedding of [logger.js] (event fan-out, ring buffer, local
    cache, remote batch uploader, retention sweep) and of the aggregation
    pass of [LogAnalytics.jsx], with the properties the specification
    states about them. *)

From stdpp Require Import gmap strings list fin_maps sorting.
From Stdlib Require Import ZArith Lia.

Open Scope Z_scope.

(** ** Data model *)

(** The [data] argument of a log call is never inspected by the pipeline:
    it is carried around as an opaque serialised payload. *)
Definition payload := string.

(** [const LOG_LEVELS = { DEBUG: 'debug', INFO: 'info', WARN: 'warn', ERROR: 'error' }] *)
Module LOG_LEVELS.
Definition DEBUG : string := "debug".
Definition INFO : string := "info".
Definition WARN : string := "warn".
Definition ERROR : string := "error".
End LOG_LEVELS.

(** The object literal built at the top of [log]. *)
Record entry : Type := Entry {
  timestamp : Z;
  sessionId : string;
  level : string;
  category : string;
  message : string;
  data : payload;
  url : string;
  userAgent : string
}.

#[global] Instance entry_eq_dec : EqDecision entry.
Proof. solve_decision. Defined.

(** What [push(logsRef, {...entry, serverTimestamp: serverTimestamp()})]
    leaves in the remote store once the server has accepted it. *)
Record stored : Type := Stored {
  s_entry : entry;
  s_serverTimestamp : Z
}.

#[global] Instance stored_eq_dec : EqDecision stored.
Proof. solve_decision. Defined.

(** The remote tree [logs/{userId}/{sessionId}/{pushId}].  Push ids are
    generated in chronological order, so the children of one session are
    kept as the list of records in push order. *)
Abbreviation remote_store := (gmap string (gmap string (list stored))).

Definition remote_session (m : remote_store) (u sid : string) : list stored :=
  default [] (default ∅ (m !! u) !! sid).

Definition remote_push (u sid : string) (r : stored) (m : remote_store) : remote_store :=
  <[u := <[sid := remote_session m u sid ++ [r]]> (default ∅ (m !! u))]> m.

Definition remote_remove (u sid : string) (m : remote_store) : remote_store :=
  match m !! u with
  | Some sessions => <[u := delete sid sessions]> m
  | None => m
  end.

(** The sessions of one actor's partition. *)
Definition sessions_of (m : remote_store) (u : string) : gmap string (list stored) :=
  default ∅ (m !! u).

(** [snapshot.exists()]: a node of the remote tree exists when there is
    data below it.  A session without records, or a partition without
    such a session, stands for no node at all. *)
Definition partition_exists (sessions : gmap string (list stored)) : bool :=
  bool_decide (map_Exists (fun _ logs => logs ≠ []) sessions).


(** [array.sort(compare)], a stable sort: [before a b] says that
    [compare(a, b) <= 0], so that [a] stays in front of [b]. *)
Fixpoint insert_by {A} (before : A -> A -> bool) (x : A) (sorted : list A) : list A :=
  match sorted with
  | [] => [x]
  | y :: rest => if before x y then x :: y :: rest else y :: insert_by before x rest
  end.

Definition sort_by {A} (before : A -> A -> bool) (l : list A) : list A :=
  foldr (insert_by before) [] l.

(** [Object.entries(snapshot.val())]: the children of a node in key
    order.  The keys of this tree are actor ids and [session_...] ids,
    none of them an array index, and for such keys the order is the order
    of strings. *)
Definition entries {A} (m : gmap string A) : list (string * A) :=
  sort_by (fun a b => String.leb a.1 b.1) (map_to_list m).

(** [`${currentUserId}`] inside a path. *)
Definition interpolate (u : option string) : string := default "null" u.

(** ** Constants of [logger.js] *)

Definition MAX_BUFFER_SIZE : nat := 500.
Definition MAX_BATCH_SIZE : nat := 10.
Definition LOG_RETENTION_DAYS : Z := 30.
Definition LOG_RETENTION_MS : Z := LOG_RETENTION_DAYS * 24 * 60 * 60 * 1000.

(** ** Pipeline state *)

(** JS arrays are objects: the state holds a heap of arrays, and the two
    module-level arrays [logBuffer] and [logBatch] are fixed locations in
    it.  An array handed out to a client is another location of the same
    heap. *)
Abbreviation loc := positive.
Definition logBuffer : loc := 1%positive.
Definition logBatch : loc := 2%positive.

Inductive flight_status := Running | Completed | Failed.

#[global] Instance flight_status_eq_dec : EqDecision flight_status.
Proof. solve_decision. Defined.

(** One invocation of [flushLogBatch] that went past its guard: the
    partition [logsRef] it computed, its private snapshot [logsToSend], and
    the index of the loop iteration whose [await push(...)] is pending. *)
Record flight : Type := Flight {
  f_user : string;
  f_logsToSend : list entry;
  f_next : nat;
  f_status : flight_status
}.

Inductive console_line :=
| ConsoleLog (e : entry)
| ConsoleError (what : string) (err : string).

(** Result of running a piece of JS: it returns, or it throws (for an
    [async] function: its promise fulfils, or it rejects). *)
Inductive outcome (A : Type) :=
| Returned (a : A)
| Thrown (err : string).
Arguments Returned {A} a.
Arguments Thrown {A} err.

(** A subscribed listener is foreign code: all the pipeline sees of a call
    is whether it returns or throws. *)
Definition listener := entry -> outcome unit.

(** One invocation of [cleanupOldFirebaseLogs] that went past its guard,
    at the [await] where it is suspended: the [get] of the partition
    [logsRef] it computed at its start, or the [remove] it issued inside
    the loop, with the path of that [remove], the entries of the loop still
    to come and the locals [cutoffTime] and [deletedCount]; or how it
    ended, at its end or through its [catch] block. *)
Inductive sweep :=
| AwaitGet (u : string)
| AwaitRemove (u : string) (sessionId : string)
    (rest : list (string * list stored)) (cutoffTime : Z) (deletedCount : nat)
| Swept
| Stopped.

Record pipeline : Type := Pipeline {
  arrays : gmap loc (list entry);
  logListeners : list listener;
  currentUserId : option string;
  batchFlushTimer : bool;
  logDB : bool;
  localStore : list entry;
  flights : list flight;
  remote : remote_store;
  console : list console_line;
  sweeps : list sweep
}.

Definition array (s : pipeline) (l : loc) : list entry :=
  default [] (arrays s !! l).

Definition set_array (l : loc) (v : list entry) (s : pipeline) : pipeline :=
  Pipeline (<[l := v]> (arrays s)) (logListeners s) (currentUserId s)
    (batchFlushTimer s) (logDB s) (localStore s) (flights s) (remote s) (console s)
    (sweeps s).

Definition set_currentUserId (u : option string) (s : pipeline) : pipeline :=
  Pipeline (arrays s) (logListeners s) u
    (batchFlushTimer s) (logDB s) (localStore s) (flights s) (remote s) (console s)
    (sweeps s).

Definition set_batchFlushTimer (b : bool) (s : pipeline) : pipeline :=
  Pipeline (arrays s) (logListeners s) (currentUserId s)
    b (logDB s) (localStore s) (flights s) (remote s) (console s)
    (sweeps s).

Definition set_logDB (b : bool) (s : pipeline) : pipeline :=
  Pipeline (arrays s) (logListeners s) (currentUserId s)
    (batchFlushTimer s) b (localStore s) (flights s) (remote s) (console s)
    (sweeps s).

Definition set_localStore (v : list entry) (s : pipeline) : pipeline :=
  Pipeline (arrays s) (logListeners s) (currentUserId s)
    (batchFlushTimer s) (logDB s) v (flights s) (remote s) (console s)
    (sweeps s).

Definition set_flights (v : list flight) (s : pipeline) : pipeline :=
  Pipeline (arrays s) (logListeners s) (currentUserId s)
    (batchFlushTimer s) (logDB s) (localStore s) v (remote s) (console s)
    (sweeps s).

Definition set_remote (v : remote_store) (s : pipeline) : pipeline :=
  Pipeline (arrays s) (logListeners s) (currentUserId s)
    (batchFlushTimer s) (logDB s) (localStore s) (flights s) v (console s)
    (sweeps s).

Definition set_console (v : list console_line) (s : pipeline) : pipeline :=
  Pipeline (arrays s) (logListeners s) (currentUserId s)
    (batchFlushTimer s) (logDB s) (localStore s) (flights s) (remote s) v (sweeps s).

Definition set_sweeps (v : list sweep) (s : pipeline) : pipeline :=
  Pipeline (arrays s) (logListeners s) (currentUserId s)
    (batchFlushTimer s) (logDB s) (localStore s) (flights s) (remote s) (console s)
    v.

(** The module state right after [logger.js] has been evaluated up to its
    declarations. *)
Definition initial : pipeline :=
  Pipeline (<[logBuffer := []]> (<[logBatch := []]> ∅)) [] None false false [] [] ∅ [] [].

(** ** A state-and-exception monad for the JS code *)

Definition js (A : Type) : Type := pipeline -> outcome A * pipeline.

Definition ret {A} (a : A) : js A := fun s => (Returned a, s).

Definition throw {A} (err : string) : js A := fun s => (Thrown err, s).

Definition bind {A B} (m : js A) (k : A -> js B) : js B :=
  fun s =>
    match m s with
    | (Returned a, s') => k a s'
    | (Thrown err, s') => (Thrown err, s')
    end.

(** [try { body } catch (error) { handler }]; also [promise.catch(handler)]. *)
Definition try_catch {A} (body : js A) (handler : string -> js A) : js A :=
  fun s =>
    match body s with
    | (Returned a, s') => (Returned a, s')
    | (Thrown err, s') => handler err s'
    end.

Definition modify (f : pipeline -> pipeline) : js unit :=
  fun s => (Returned tt, f s).

Definition gets {A} (f : pipeline -> A) : js A :=
  fun s => (Returned (f s), s).

Declare Scope js_scope.
Delimit Scope js_scope with js.
Notation "x <- m ;; k" := (bind m (fun x => k))
  (at level 100, m at next level, right associativity) : js_scope.
Notation "m ;; k" := (bind m (fun _ => k))
  (at level 100, right associativity) : js_scope.
Open Scope js_scope.

Definition console_error (what err : string) : js unit :=
  modify (fun s => set_console (console s ++ [ConsoleError what err]) s).

Definition console_log (e : entry) : js unit :=
  modify (fun s => set_console (console s ++ [ConsoleLog e]) s).

(** JS truthiness of [currentUserId]: [null] and the empty string are falsy. *)
Definition bound (u : option string) : option string :=
  match u with
  | Some id => if decide (id = "") then None else Some id
  | None => None
  end.

(** What one call into the pipeline gets from its surroundings:
    [Date.now()], [window.location.href], [navigator.userAgent], and whether
    IndexedDB opens and accepts the [add] request. *)
Record callenv : Type := CallEnv {
  now : Z;
  href : string;
  agent : string;
  open_ok : bool;
  add_ok : bool
}.

(** How a pending [push] to the remote store settles. *)
Inductive push_result :=
| Acked (serverTimestamp : Z)
| Rejected (err : string).

Fixpoint forEach {A} (l : list A) (f : A -> js unit) : js unit :=
  match l with
  | [] => ret tt
  | x :: rest => f x ;; forEach rest f
  end.

(** Calling an [async] function without awaiting its promise: a rejection
    does not reach the caller. *)
Definition detached (m : js unit) : js unit :=
  try_catch m (fun _ => ret tt).

Definition set_flight (id : nat) (f : flight) (s : pipeline) : pipeline :=
  set_flights (<[id := f]> (flights s)) s.

(** ** The logger *)

Section Logger.

(** [import.meta.env.PROD], the generated session id, and whether the
    imported [database] handle is there. *)
Variable IS_PRODUCTION : bool.
Variable SESSION_ID : string.
Variable database : bool.

(** [initLogDB]: reuses the open handle, otherwise opens the database. *)
Definition initLogDB (io : callenv) : js unit :=
  db <- gets logDB ;;
  if db then ret tt
  else if open_ok io then modify (set_logDB true)
  else (console_error "Failed to open logs IndexedDB:" "request.error" ;;
        throw "request.error").

(** The promise built by [new Promise(...)] around [store.add(entry)]. *)
Definition store_add (io : callenv) (e : entry) : js unit :=
  if add_ok io then modify (fun s => set_localStore (localStore s ++ [e]) s)
  else throw "request.error".

(** [saveLogLocally]: the [try] covers [await initLogDB()]; the promise of
    the [add] request is returned from inside the [try] without [await], so
    it becomes the result of the function as it is. *)
Definition saveLogLocally (io : callenv) (e : entry) : js unit :=
  p <- try_catch
         (initLogDB io ;; ret (Some (store_add io e)))
         (fun error => console_error "Failed to save log locally:" error ;; ret None) ;;
  match p with
  | Some request => request
  | None => ret tt
  end.

(** [flushLogBatch] up to its first [await]: timer cleared, guard, snapshot
    [[...logBatch]], [logBatch.length = 0], and the first [push] issued
    under [logs/${currentUserId}/${SESSION_ID}]. *)
Definition flushLogBatch : js unit :=
  modify (set_batchFlushTimer false) ;;
  s <- gets (fun s => s) ;;
  match bound (currentUserId s) with
  | Some u =>
      if bool_decide (length (array s logBatch) = 0%nat) || negb database then ret tt
      else
        let logsToSend := array s logBatch in
        modify (set_array logBatch []) ;;
        modify (fun s => set_flights (flights s ++ [Flight u logsToSend 0 Running]) s)
  | None => ret tt
  end.

Definition await_push (f : flight) (e : entry) (r : push_result) : js unit :=
  match r with
  | Acked ts =>
      modify (fun s => set_remote (remote_push (f_user f) SESSION_ID (Stored e ts) (remote s)) s)
  | Rejected err => throw err
  end.

(** The rest of [flushLogBatch] from a pending [await push(...)]: on an
    acknowledgement the loop goes on to the next item of the snapshot (or
    ends); on a rejection the [catch] block runs.  A [push] or [ref] that
    throws at once is the same step taken immediately. *)
Definition resume_flush (id : nat) (r : push_result) : js unit :=
  fs <- gets flights ;;
  match fs !! id with
  | Some f =>
      match f_status f, f_logsToSend f !! f_next f with
      | Running, Some e =>
          try_catch
            (await_push f e r ;;
             modify (set_flight id
               (Flight (f_user f) (f_logsToSend f) (S (f_next f))
                  (if bool_decide (S (f_next f) < length (f_logsToSend f))%nat
                   then Running else Completed))))
            (fun error =>
               console_error "Failed to flush log batch to Firebase:" error ;;
               modify (fun s => set_array logBatch (f_logsToSend f ++ array s logBatch) s) ;;
               modify (set_flight id
                 (Flight (f_user f) (f_logsToSend f) (f_next f) Failed)))
      | _, _ => ret tt
      end
  | None => ret tt
  end.

(** [saveLogToFirebase]: binding gate, build-mode gate, enqueue, then flush
    on a full batch or (re)arm the timer. *)
Definition saveLogToFirebase (e : entry) : js unit :=
  u <- gets currentUserId ;;
  match bound u with
  | None => ret tt
  | Some _ =>
      if negb database then ret tt
      else if IS_PRODUCTION && bool_decide (level e = LOG_LEVELS.DEBUG) then ret tt
      else
        modify (fun s => set_array logBatch (array s logBatch ++ [e]) s) ;;
        n <- gets (fun s => length (array s logBatch)) ;;
        if bool_decide (MAX_BATCH_SIZE <= n)%nat then flushLogBatch
        else modify (set_batchFlushTimer true)
  end.

Definition call_listener (e : entry) (l : listener) : js unit :=
  fun s => (l e, s).

(** [log]: the core logging function.  The two saves are started without
    being awaited and their promises get [.catch(() => {})].  They work on
    disjoint parts of the state (local store and its handle; batch, timer
    and flushes), so the local write, which the code resumes after
    [await initLogDB()], is taken here as part of the same step. *)
Definition log (io : callenv) (lvl cat msg : string) (d : payload) : js unit :=
  let e := Entry (now io) SESSION_ID lvl cat msg d (href io) (agent io) in
  modify (fun s => set_array logBuffer (array s logBuffer ++ [e]) s) ;;
  modify (fun s =>
    if bool_decide (MAX_BUFFER_SIZE < length (array s logBuffer))%nat
    then set_array logBuffer (tail (array s logBuffer)) s
    else s) ;;
  ls <- gets logListeners ;;
  forEach ls (fun l => try_catch (call_listener e l) (fun _ => ret tt)) ;;
  console_log e ;;
  try_catch (saveLogLocally io e) (fun _ => ret tt) ;;
  try_catch (saveLogToFirebase e) (fun _ => ret tt).

(** The payload [{ userId, sessionId: SESSION_ID }] of the "User ID set" event. *)
Definition user_payload (userId : option string) : payload :=
  String.append (default "null" userId) (String.append "," SESSION_ID).

(** [logger.setUserId]; the delayed clean-up it schedules is a later call
    of [cleanupOldFirebaseLogs]. *)
Definition setUserId (io : callenv) (userId : option string) : js unit :=
  modify (set_currentUserId userId) ;;
  detached (log io LOG_LEVELS.INFO "Logger" "User ID set" (user_payload userId)).

(** [logger.getBufferedLogs]: [[...logBuffer]] allocates a new array. *)
Definition getBufferedLogs : js loc :=
  fun s =>
    let l := fresh (dom (arrays s)) in
    (Returned l, set_array l (array s logBuffer) s).

(** [logger.subscribe]. *)
Definition subscribe (l : listener) : js unit :=
  modify (fun s =>
    Pipeline (arrays s) (logListeners s ++ [l]) (currentUserId s)
      (batchFlushTimer s) (logDB s) (localStore s) (flights s) (remote s) (console s)
      (sweeps s)).

(** *** Retention sweep of the remote partition *)

(** [logs.reduce((oldest, log) => log.timestamp < oldest.timestamp ? log : oldest, logs[0])] *)
Definition oldestLog (first : stored) (logs : list stored) : stored :=
  foldl (fun oldest log =>
           if bool_decide (timestamp (s_entry log) < timestamp (s_entry oldest))
           then log else oldest)
        first logs.

Definition set_sweep (id : nat) (w : sweep) (s : pipeline) : pipeline :=
  set_sweeps (<[id := w]> (sweeps s)) s.

(** [cleanupOldFirebaseLogs] up to its first [await]: the guard, and the
    [get] issued on [logs/${currentUserId}]. *)
Definition cleanupOldFirebaseLogs : js unit :=
  cur <- gets currentUserId ;;
  match bound cur with
  | None => ret tt
  | Some u =>
      if negb database then ret tt
      else modify (fun s => set_sweeps (sweeps s ++ [AwaitGet u]) s)
  end.

(** The [for ... of Object.entries(sessions)] loop from one of its
    iterations up to the next [await].  The first session group whose
    oldest record is before the cut-off has its [remove] issued, on the
    path [logs/${currentUserId}/${sessionId}] with [currentUserId] as it
    is at that moment; past the last entry the closing [logger.info]
    runs.  [deletedCount] is incremented when the [remove] has settled. *)
Fixpoint sweep_sessions (io : callenv) (cutoffTime : Z)
    (sessions : list (string * list stored)) (deletedCount : nat) : js sweep :=
  match sessions with
  | [] =>
      (if bool_decide (0 < deletedCount)%nat
       then detached (log io LOG_LEVELS.INFO "Logger" "Cleaned up old log sessions"
                        "deletedSessions,cutoffDate")
       else ret tt) ;;
      ret Swept
  | (sessionId, logs) :: rest =>
      match logs with
      | [] => sweep_sessions io cutoffTime rest deletedCount
      | first :: _ =>
          if bool_decide (timestamp (s_entry (oldestLog first logs)) < cutoffTime)
          then cur <- gets currentUserId ;;
               ret (AwaitRemove (interpolate cur) sessionId rest cutoffTime deletedCount)
          else sweep_sessions io cutoffTime rest deletedCount
      end
  end.

(** The [catch] block of [cleanupOldFirebaseLogs]. *)
Definition sweep_failed (id : nat) (error : string) : js unit :=
  console_error "Failed to cleanup old Firebase logs:" error ;;
  modify (set_sweep id Stopped).

(** The rest of [cleanupOldFirebaseLogs] from its pending [await], run up
    to the next one.  [ok] says whether the awaited [get] or [remove]
    succeeded; a [get] delivers the partition as it is when it settles,
    and a [remove] takes effect when it settles.  [today] is the
    [Date.now()] of the cut-off, [io] serves the closing [logger.info]. *)
Definition resume_sweep (id : nat) (ok : bool) (today : Z) (io : callenv) : js unit :=
  ws <- gets sweeps ;;
  match ws !! id with
  | Some (AwaitGet u) =>
      try_catch
        ((if ok then ret tt else throw "get failed") ;;
         sessions <- gets (fun s => sessions_of (remote s) u) ;;
         if negb (partition_exists sessions) then modify (set_sweep id Swept)
         else
           w <- sweep_sessions io (today - LOG_RETENTION_MS) (entries sessions) 0 ;;
           modify (set_sweep id w))
        (sweep_failed id)
  | Some (AwaitRemove u sessionId rest cutoffTime deletedCount) =>
      try_catch
        ((if ok
          then modify (fun s => set_remote (remote_remove u sessionId (remote s)) s)
          else throw "remove failed") ;;
         w <- sweep_sessions io cutoffTime rest (S deletedCount) ;;
         modify (set_sweep id w))
        (sweep_failed id)
  | _ => ret tt
  end.

(** *** Everything that can happen to the pipeline *)

Inductive event :=
| EvLog (io : callenv) (lvl cat msg : string) (d : payload)
| EvSetUserId (io : callenv) (userId : option string)
| EvFlush
| EvSettle (id : nat) (r : push_result)
| EvCleanup
| EvSweepSettle (id : nat) (ok : bool) (today : Z) (io : callenv)
| EvSubscribe (l : listener).

Definition handle (ev : event) : js unit :=
  match ev with
  | EvLog io lvl cat msg d => log io lvl cat msg d
  | EvSetUserId io userId => setUserId io userId
  | EvFlush => flushLogBatch
  | EvSettle id r => resume_flush id r
  | EvCleanup => cleanupOldFirebaseLogs
  | EvSweepSettle id ok today io => resume_sweep id ok today io
  | EvSubscribe l => subscribe l
  end.

Definition step (s : pipeline) (ev : event) : pipeline := (handle ev s).2.

Definition run (s : pipeline) (evs : list event) : pipeline := foldl step s evs.

End Logger.

(** ** The aggregation pass of [LogAnalytics.jsx] *)

Module LogAnalytics.

(** A record as [loadAllLogs] collects it: the stored fields together with
    the keys of the path it was read from. *)
Record record : Type := Record_ {
  userId : string;
  sessionId : string;
  logId : string;
  timestamp : Z;
  level : string;
  category : string;
  message : string;
  data : payload
}.

#[global] Instance record_eq_dec : EqDecision record.
Proof. solve_decision. Defined.

Record stats : Type := Stats {
  totalLogs : nat;
  totalUsers : nat;
  totalErrors : nat;
  totalWarnings : nat;
  authIssues : nat;
  networkIssues : nat;
  syncIssues : nat
}.

(** A value of the [issueGroups] object while the groups are built. *)
Record group : Type := Group {
  g_category : string;
  g_message : string;
  g_level : string;
  g_count : nat;
  g_affectedUsers : gset string;
  g_lastSeen : Z;
  g_examples : list record
}.

(** An element of [commonIssues]: the group with its user set replaced by
    its size. *)
Record issue : Type := Issue {
  i_category : string;
  i_message : string;
  i_level : string;
  i_count : nat;
  i_affectedUsers : nat;
  i_lastSeen : Z;
  i_examples : list record
}.

Record analysis : Type := Analysis {
  a_stats : stats;
  commonIssues : list issue;
  recentErrors : list record
}.

(** [l.level === 'error' || l.level === 'warn'] *)
Definition is_issue (l : record) : bool :=
  String.eqb (level l) "error" || String.eqb (level l) "warn".

(** [`${log.category}:${log.message}`] *)
Definition group_key (l : record) : string :=
  String.append (category l) (String.append ":" (message l)).

(** [issueGroups] is a JS object; every key contains a colon, so none is
    an array index and the object enumerates in insertion order: an
    association list with new keys added at the end. *)
Fixpoint lookup_group (key : string) (groups : list (string * group)) : option group :=
  match groups with
  | [] => None
  | (k, g) :: rest => if String.eqb k key then Some g else lookup_group key rest
  end.

Fixpoint store_group (key : string) (g : group) (groups : list (string * group))
    : list (string * group) :=
  match groups with
  | [] => [(key, g)]
  | (k, g') :: rest =>
      if String.eqb k key then (k, g) :: rest else (k, g') :: store_group key g rest
  end.

(** The body of the [forEach] over the warn and error records. *)
Definition add_to_groups (groups : list (string * group)) (l : record)
    : list (string * group) :=
  let key := group_key l in
  let g := match lookup_group key groups with
           | Some g => g
           | None => Group (category l) (message l) (level l) 0 ∅ (timestamp l) []
           end in
  store_group key
    (Group (g_category g) (g_message g) (g_level g)
       (S (g_count g))
       (g_affectedUsers g ∪ {[userId l]})
       (Z.max (g_lastSeen g) (timestamp l))
       (if bool_decide (length (g_examples g) < 3)%nat
        then g_examples g ++ [l] else g_examples g))
    groups.

Definition to_issue (g : group) : issue :=
  Issue (g_category g) (g_message g) (g_level g) (g_count g)
    (size (g_affectedUsers g)) (g_lastSeen g) (g_examples g).

(** [.sort((a, b) => b.count - a.count)]: [Array.prototype.sort] is
    stable, so the result is the stable arrangement by descending count. *)
Fixpoint insert_issue (x : issue) (sorted : list issue) : list issue :=
  match sorted with
  | [] => [x]
  | y :: rest =>
      if bool_decide (i_count y <= i_count x)%nat then x :: y :: rest
      else y :: insert_issue x rest
  end.

Definition sort_issues (l : list issue) : list issue :=
  foldr insert_issue [] l.

Definition count_where (p : record -> bool) (logs : list record) : nat :=
  length (List.filter p logs).

(** [analyzeeLogs]: the values it hands to [setStats], [setCommonIssues]
    and [setRecentErrors]. *)
Definition analyzeeLogs (logs : list record) : analysis :=
  let uniqueUsers : gset string := list_to_set (userId <$> logs) in
  let errors := List.filter (fun l => String.eqb (level l) "error") logs in
  let warnings := List.filter (fun l => String.eqb (level l) "warn") logs in
  let authIssues :=
    List.filter (fun l => String.eqb (category l) "Auth" &&
                     (String.eqb (level l) "error" || String.eqb (level l) "warn")) logs in
  let networkIssues :=
    List.filter (fun l => String.eqb (category l) "Network" &&
                     (String.eqb (level l) "error" || String.eqb (level l) "warn")) logs in
  let syncIssues :=
    List.filter (fun l => (String.eqb (category l) "Sync" || String.eqb (category l) "Firebase") &&
                     (String.eqb (level l) "error" || String.eqb (level l) "warn")) logs in
  let issueGroups := foldl add_to_groups [] (List.filter is_issue logs) in
  let issues := sort_issues (to_issue <$> (snd <$> issueGroups)) in
  Analysis
    (Stats (length logs) (size uniqueUsers) (length errors) (length warnings)
       (length authIssues) (length networkIssues) (length syncIssues))
    (take 10 issues)
    (take 20 errors).

End LogAnalytics.

(** ** Notions used to state the properties *)

(** [m] leaves the observation [obs] of the state as it was. *)
Definition preserves {A X} (obs : pipeline -> X) (m : js A) : Prop :=
  forall s, obs (m s).2 = obs s.

(** [m] never throws. *)
Definition returns {A} (m : js A) : Prop :=
  forall s, exists a, (m s).1 = Returned a.

(** [m] keeps the state inside [I]. *)
Definition maintains {A} (I : pipeline -> Prop) (m : js A) : Prop :=
  forall s, I s -> I (m s).2.

(** The arguments of one call of [logger.debug/info/warn/error]. *)
Record call : Type := Call {
  c_io : callenv;
  c_level : string;
  c_category : string;
  c_message : string;
  c_data : payload
}.

(** The envelope [log] builds for a call. *)
Definition entry_of (SESSION_ID : string) (c : call) : entry :=
  Entry (now (c_io c)) SESSION_ID (c_level c) (c_category c) (c_message c)
    (c_data c) (href (c_io c)) (agent (c_io c)).

(** A sequence of emit calls, one after the other. *)
Definition emit_all (IS_PRODUCTION : bool) (SESSION_ID : string) (database : bool)
    (s : pipeline) (calls : list call) : pipeline :=
  foldl (fun s c =>
           (log IS_PRODUCTION SESSION_ID database (c_io c) (c_level c)
              (c_category c) (c_message c) (c_data c) s).2)
        s calls.

(** The ring buffer keeps the last [MAX_BUFFER_SIZE] of what it was given. *)
Definition last_n {A} (n : nat) (l : list A) : list A :=
  drop (length l - n) l.

(** IndexedDB takes the write of this call: the handle is open or opens,
    and the [add] request succeeds. *)
Definition local_write_ok (io : callenv) (s : pipeline) : bool :=
  (logDB s || open_ok io) && add_ok io.

(** No [debug]-level envelope among the pending items, the snapshots of
    the flushes under way, or the remote records. *)
Definition no_debug (l : list entry) : Prop :=
  Forall (fun e => level e ≠ LOG_LEVELS.DEBUG) l.

Definition remote_no_debug (m : remote_store) : Prop :=
  forall u sessions sid logs,
    m !! u = Some sessions -> sessions !! sid = Some logs ->
    Forall (fun r => level (s_entry r) ≠ LOG_LEVELS.DEBUG) logs.

Definition debug_free (s : pipeline) : Prop :=
  no_debug (array s logBatch) ∧
  Forall (fun f => no_debug (f_logsToSend f)) (flights s) ∧
  remote_no_debug (remote s).

(** The smallest [timestamp] of a non-empty session group. *)
Definition min_timestamp (first : stored) (rest : list stored) : Z :=
  foldr Z.min (timestamp (s_entry first)) ((fun r => timestamp (s_entry r)) <$> rest).

(** The decision the sweep takes for one session group. *)
Definition expired (cutoffTime : Z) (logs : list stored) : bool :=
  match logs with
  | [] => false
  | first :: _ => bool_decide (timestamp (s_entry (oldestLog first logs)) < cutoffTime)
  end.

(** Sample surroundings for concrete runs: IndexedDB works, the clock
    reads [t]. *)
Definition io_at (t : Z) : callenv :=
  CallEnv t "https://shopping.example/" "browser" true true.

(** Events that can add a record to, or delete one from, the remote store. *)
Definition touches_remote (ev : event) : bool :=
  match ev with
  | EvSettle _ (Acked _) => true
  | EvSweepSettle _ true _ _ => true
  | _ => false
  end.

(** A flush of two items whose first [push] is acknowledged, with one more
    call of [log] arriving before the second [push] settles. *)
Definition partial_flush_run : pipeline :=
  run false "S" true initial
    [EvSetUserId (io_at 1) (Some "alice");
     EvLog (io_at 2) LOG_LEVELS.INFO "App" "a" "";
     EvFlush;
     EvSettle 0 (Acked 100);
     EvLog (io_at 3) LOG_LEVELS.INFO "App" "b" ""].

(** An item logged while "alice" is bound and still pending when "bob" is
    bound. *)
Definition alice_pending : pipeline :=
  run false "S" true initial
    [EvSetUserId (io_at 1) (Some "alice");
     EvLog (io_at 2) LOG_LEVELS.INFO "App" "a" ""].

Definition alice_item : entry :=
  Entry 2 "S" LOG_LEVELS.INFO "App" "a" "" "https://shopping.example/" "browser".

Definition flushed_as_bob : pipeline :=
  run false "S" true alice_pending
    [EvSetUserId (io_at 3) (Some "bob");
     EvFlush;
     EvSettle 0 (Acked 100);
     EvSettle 0 (Acked 101);
     EvSettle 0 (Acked 102)].

(** Whatever a client does to an array it holds (push, pop, splice, an
    index or length assignment) replaces the contents of that array object. *)
Definition mutate_array (l : loc) (v : list entry) (s : pipeline) : pipeline :=
  set_array l v s.

(** The module-level [logBuffer] array exists. *)
Definition logBuffer_allocated (s : pipeline) : Prop :=
  is_Some (arrays s !! logBuffer).

(** What the sweep leaves of an actor's sessions when every [remove]
    succeeds. *)
Definition swept (cutoffTime : Z) (l : list (string * list stored))
    (m : gmap string (list stored)) : gmap string (list stored) :=
  foldl (fun m p => if expired cutoffTime p.2 then delete p.1 m else m) m l.

(** A session that has been running for more than thirty days: its first
    record is from time 0, its latest from the moment of the sweep. *)
Definition long_session : list stored :=
  [Stored (Entry 0 "S" LOG_LEVELS.INFO "App" "Application started" "" "" "") 1;
   Stored (Entry 3000000000 "S" LOG_LEVELS.WARN "Network" "Browser offline event" "" "" "")
     3000000001].

Definition long_session_state : pipeline :=
  set_remote (<["alice" := <["S" := long_session]> ∅]> ∅)
    (set_currentUserId (Some "alice") initial).

(** A window with one failed synchronisation under each of the two
    category names the sync counter looks for. *)
Definition sync_window : list LogAnalytics.record :=
  [LogAnalytics.Record_ "u1" "s1" "l1" 20 "error" "Sync" "Sync failed" "";
   LogAnalytics.Record_ "u2" "s2" "l2" 10 "warn" "Firebase" "Write failed" ""].

(** The window of the specification's example: three [warn] records
    (Auth, "x") by two actors and one [error] record (Net, "y"). *)
Definition example_window : list LogAnalytics.record :=
  [LogAnalytics.Record_ "u1" "s1" "l1" 40 "warn" "Auth" "x" "";
   LogAnalytics.Record_ "u2" "s2" "l2" 30 "error" "Net" "y" "";
   LogAnalytics.Record_ "u2" "s2" "l3" 20 "warn" "Auth" "x" "";
   LogAnalytics.Record_ "u1" "s1" "l4" 10 "warn" "Auth" "x" ""].

(** A flush that is still under way has a pending [push]: its index
    points into the snapshot. *)
Definition flights_wf (s : pipeline) : Prop :=
  Forall (fun f => f_status f = Running -> (f_next f < length (f_logsToSend f))%nat)
         (flights s).

(** An envelope the uploader still answers for: it waits in the pending
    queue, or in the not yet acknowledged part of the snapshot of a flush
    under way, or it is in the remote store. *)
Definition accounted (s : pipeline) (e : entry) : Prop :=
  e ∈ array s logBatch ∨
  (exists id f, flights s !! id = Some f ∧ f_status f = Running ∧
                e ∈ drop (f_next f) (f_logsToSend f)) ∨
  (exists u sid ts, Stored e ts ∈ remote_session (remote s) u sid).

Definition is_sweep (ev : event) : bool :=
  match ev with
  | EvCleanup => true
  | EvSweepSettle _ _ _ _ => true
  | _ => false
  end.

(** What may happen while the sweep [id] runs without disturbing it:
    calls of [log], flushes and other sweeps being started, rejected
    pushes, subscriptions, and the settling of its own [await]s, with
    [today] on the clock.  Binding an actor, an acknowledged [push] and
    the steps of other sweeps are left out: the first changes the path of
    the removes to come, the others write to the remote store. *)
Definition undisturbed (id : nat) (today : Z) (ev : event) : bool :=
  match ev with
  | EvLog _ _ _ _ _ => true
  | EvSetUserId _ _ => false
  | EvFlush => true
  | EvSettle _ (Acked _) => false
  | EvSettle _ (Rejected _) => true
  | EvCleanup => true
  | EvSweepSettle id' _ today' _ => bool_decide (id' = id) && bool_decide (today' = today)
  | EvSubscribe _ => true
  end.

(** An [await] of the sweep [id] settles. *)
Definition settles (id : nat) (ev : event) : bool :=
  match ev with
  | EvSweepSettle id' _ _ _ => bool_decide (id' = id)
  | _ => false
  end.

(** The awaited [get] or [remove] of a sweep fails. *)
Definition fails (ev : event) : bool :=
  match ev with
  | EvSweepSettle _ false _ _ => true
  | _ => false
  end.

(** The session groups of a list that the sweep decides to delete. *)
Definition count_expired (cutoffTime : Z) (l : list (string * list stored)) : nat :=
  length (List.filter (fun p => expired cutoffTime p.2) l).

(** Where the sweep [id], started for actor [u] on the remote store [m0],
    stands in an undisturbed run after [k] of its [await]s have settled:
    the groups it went past are [done], those among them it decided to
    delete are gone, and nothing else has changed. *)
Definition sweep_progress (u : string) (m0 : remote_store) (id : nat) (c : Z)
    (k : nat) (failed : bool) (s : pipeline) : Prop :=
  let orig := sessions_of m0 u in
  currentUserId s = Some u ∧
  (forall v, v ≠ u -> remote s !! v = m0 !! v) ∧
  match sweeps s !! id with
  | Some (AwaitGet u') =>
      u' = u ∧ k = 0%nat ∧ sessions_of (remote s) u = orig
  | Some (AwaitRemove u' sid rest c' n) =>
      u' = u ∧ c' = c ∧
      exists done logs,
        entries orig = done ++ (sid, logs) :: rest ∧
        expired c logs = true ∧
        sessions_of (remote s) u = swept c done orig ∧
        n = count_expired c done ∧ k = S n
  | Some Swept =>
      sessions_of (remote s) u = swept c (entries orig) orig
  | Some Stopped =>
      failed = true ∧
      exists done rest,
        entries orig = done ++ rest ∧
        sessions_of (remote s) u = swept c done orig
  | None => False
  end.

(** Three session groups of "alice", each with one record from time 0. *)
Definition old_record (sid : string) : stored :=
  Stored (Entry 0 sid LOG_LEVELS.INFO "App" "Application started" "" "" "") 1.

Definition three_old_sessions : pipeline :=
  set_remote
    (<["alice" := <["c" := [old_record "c"]]> (<["a" := [old_record "a"]]>
                    (<["b" := [old_record "b"]]> ∅))]> ∅)
    (set_currentUserId (Some "alice") initial).

(** The envelopes rendered on the console, in order. *)
Definition logged (c : list console_line) : list entry :=
  omap (fun line => match line with ConsoleLog e => Some e | ConsoleError _ _ => None end) c.

(** The acknowledgements of the pending pushes of flush [id], one server
    timestamp each. *)
Definition acks (id : nat) (tss : list Z) : list event :=
  (fun ts => EvSettle id (Acked ts)) <$> tss.

(** The status of a flush whose loop is at index [j] of snapshot [b]. *)
Definition status_at (j : nat) (b : list entry) : flight_status :=
  if bool_decide (j < length b)%nat then Running else Completed.

(** The ring buffer is the tail of what the console has been shown. *)
Definition ring_follows_console (s : pipeline) : Prop :=
  array s logBuffer = last_n MAX_BUFFER_SIZE (logged (console s)).

(** ** The query side of the logger *)

(** [Array.prototype.sort(compare)]: the sort is stable, so the result is
    the stable arrangement under the comparator; [before x y] says that
    [compare(x, y) <= 0]. *)
(** [(a, b) => b.timestamp - a.timestamp] *)
Definition newest_first {A} (time : A -> Z) (a b : A) : bool :=
  bool_decide (time b - time a <= 0).

(** The order of the [timestamp] index of the object store: by timestamp,
    records with equal timestamps by their auto-incremented id. *)
Definition oldest_first {A} (time : A -> Z) (a b : A) : bool :=
  bool_decide (time a <= time b).

(** The cursor request of [clearOldLogs]: an [IDBKeyRange.upperBound]
    includes its bound, so every record with [timestamp <= cutoffTime] is
    deleted; a failing request aborts the transaction and deletes nothing. *)
Definition delete_up_to (cursor_ok : bool) (cutoffTime : Z) : js nat :=
  if cursor_ok
  then st <- gets localStore ;;
       modify (set_localStore
                 (List.filter (fun e => negb (bool_decide (timestamp e <= cutoffTime))) st)) ;;
       ret (length (List.filter (fun e => bool_decide (timestamp e <= cutoffTime)) st))
  else throw "request.error".

(** [logger.clearOldLogs]: resolves to the number of deleted records, or
    to [undefined] when the database does not open.  The [console.log]
    line that reports a positive count is not kept: [console] records
    envelopes and errors. *)
Definition clearOldLogs (io : callenv) (cursor_ok : bool) (daysToKeep : Z)
    : js (option nat) :=
  p <- try_catch
         (initLogDB io ;;
          let cutoffTime := now io - daysToKeep * 24 * 60 * 60 * 1000 in
          ret (Some (delete_up_to cursor_ok cutoffTime)))
         (fun error => console_error "Failed to clear old logs:" error ;; ret None) ;;
  match p with
  | Some request => deletedCount <- request ;; ret (Some deletedCount)
  | None => ret None
  end.

(** The cursor request of [getLocalLogs]: the [timestamp] index walked
    backwards ([prev]) while fewer than [limit] records are collected. *)
Definition read_newest (cursor_ok : bool) (limit : nat) : js (list entry) :=
  if cursor_ok
  then st <- gets localStore ;;
       ret (take limit (reverse (sort_by (oldest_first timestamp) st)))
  else throw "request.error".

(** [logger.getLocalLogs]. *)
Definition getLocalLogs (io : callenv) (cursor_ok : bool) (limit : nat)
    : js (list entry) :=
  p <- try_catch
         (initLogDB io ;; ret (Some (read_newest cursor_ok limit)))
         (fun error => console_error "Failed to get local logs:" error ;; ret None) ;;
  match p with
  | Some request => request
  | None => ret []
  end.

(** An element of the array [getFirebaseLogs] returns:
    [{ ...log, sessionId, logId }].  The push id of a record is kept as
    its rank among the children of its session. *)
Record fetched : Type := Fetched {
  ft_log : stored;
  ft_sessionId : string;
  ft_logId : nat
}.

Definition ft_timestamp (x : fetched) : Z := timestamp (s_entry (ft_log x)).

(** The date a [startDate && ...] test lets through: [null] and [0] are
    falsy. *)
Definition truthy_date (d : option Z) : option Z :=
  match d with
  | Some 0 => None
  | _ => d
  end.

(** Neither of the two [continue] tests of [getFirebaseLogs] fires. *)
Definition in_range (startDate endDate : option Z) (x : fetched) : bool :=
  negb (match truthy_date startDate with
        | Some d => bool_decide (ft_timestamp x < d)
        | None => false
        end) &&
  negb (match truthy_date endDate with
        | Some d => bool_decide (d < ft_timestamp x)
        | None => false
        end).

Definition session_logs (sid : string) (logs : list stored) : list fetched :=
  imap (fun i log => Fetched log sid i) logs.

Section LoggerQueries.
Variable database : bool.

(** [logger.getFirebaseLogs]. *)
Definition getFirebaseLogs (get_ok : bool) (userId : string)
    (startDate endDate : option Z) : js (list fetched) :=
  if negb database then ret []
  else
    try_catch
      ((if get_ok then ret tt else throw "get failed") ;;
       sessions <- gets (fun s => sessions_of (remote s) userId) ;;
       if negb (partition_exists sessions) then ret []
       else
         let allLogs :=
           entries sessions ≫=
             (fun p => List.filter (in_range startDate endDate) (session_logs p.1 p.2)) in
         ret (sort_by (newest_first ft_timestamp) allLogs))
      (fun error => console_error "Failed to get Firebase logs:" error ;; ret []).

(** [loadLogs] of the admin log viewer: the last [days] days of one actor. *)
Definition loadLogs (get_ok : bool) (today : Z) (days : Z) (userId : string)
    : js (list fetched) :=
  getFirebaseLogs get_ok userId (Some (today - days * 24 * 60 * 60 * 1000)) None.

End LoggerQueries.

(** A record passes the date tests of [getFirebaseLogs]: a bound that is
    given and not zero is respected. *)
Definition within (startDate endDate : option Z) (x : fetched) : Prop :=
  (forall d, startDate = Some d -> d ≠ 0 -> d <= ft_timestamp x) ∧
  (forall d, endDate = Some d -> d ≠ 0 -> ft_timestamp x <= d).

(** The record [x] is what the remote store holds for actor [userId] at
    its session and rank. *)
Definition stored_for (m : remote_store) (userId : string) (x : fetched) : Prop :=
  exists sessions logs,
    m !! userId = Some sessions ∧
    sessions !! ft_sessionId x = Some logs ∧
    logs !! ft_logId x = Some (ft_log x).


(** A local store of three records, written at the times 5, 7 and 6. *)
Definition three_local_records : pipeline :=
  run false "S" true initial
    [EvLog (io_at 5) LOG_LEVELS.INFO "App" "a" "";
     EvLog (io_at 7) LOG_LEVELS.WARN "App" "b" "";
     EvLog (io_at 6) LOG_LEVELS.INFO "App" "c" ""].

(** ** Loading the window the aggregation works on *)

Section LoadAllLogs.

(** The push id of the child of rank [i] of a session. *)
Variable push_id : nat -> string.




End LoadAllLogs.

(** The [issueGroups] object [analyzeeLogs] builds. *)
Definition issue_groups (logs : list LogAnalytics.record)
    : list (string * LogAnalytics.group) :=
  foldl LogAnalytics.add_to_groups [] (List.filter LogAnalytics.is_issue logs).

(** The records that went into the group with key [key]. *)
Definition group_members (key : string) (logs : list LogAnalytics.record)
    : list LogAnalytics.record :=
  List.filter (fun l => String.eqb (LogAnalytics.group_key l) key)
    (List.filter LogAnalytics.is_issue logs).

(** The group a non-empty list of members makes: labels and level of the
    first member, the number of members, their actors, the latest
    timestamp, the first three members. *)
Definition group_of (members : list LogAnalytics.record) : option LogAnalytics.group :=
  match members with
  | [] => None
  | first :: _ =>
      Some (LogAnalytics.Group
              (LogAnalytics.category first) (LogAnalytics.message first)
              (LogAnalytics.level first)
              (length members)
              (list_to_set (LogAnalytics.userId <$> members))
              (foldl Z.max (LogAnalytics.timestamp first)
                 (LogAnalytics.timestamp <$> members))
              (take 3 members))
  end.

Definition issue_key (i : LogAnalytics.issue) : string :=
  String.append (LogAnalytics.i_category i)
    (String.append ":" (LogAnalytics.i_message i)).

Definition all_issues (logs : list LogAnalytics.record) : list LogAnalytics.issue :=
  LogAnalytics.sort_issues (LogAnalytics.to_issue <$> (snd <$> issue_groups logs)).

(** ** Reasoning about [js] computations *)

Section Combinators.
Context {A B X : Type} (obs : pipeline -> X).

Lemma preserves_ret (a : A) : preserves obs (ret a).
Proof. by intros s. Qed.

Lemma preserves_throw err : preserves obs (@throw A err).
Proof. by intros s. Qed.

Lemma preserves_gets (f : pipeline -> A) : preserves obs (gets f).
Proof. by intros s. Qed.

Lemma preserves_modify f : (forall s, obs (f s) = obs s) -> preserves obs (modify f).
Proof. intros H s. apply H. Qed.

Lemma preserves_bind (m : js A) (k : A -> js B) :
  preserves obs m -> (forall a, preserves obs (k a)) -> preserves obs (bind m k).
Proof.
  intros Hm Hk s. unfold bind. specialize (Hm s).
  destruct (m s) as [[a|err] s']; simpl in *; [|done].
  by rewrite Hk.
Qed.

Lemma preserves_try_catch (m : js A) h :
  preserves obs m -> (forall err, preserves obs (h err)) -> preserves obs (try_catch m h).
Proof.
  intros Hm Hh s. unfold try_catch. specialize (Hm s).
  destruct (m s) as [[a|err] s']; simpl in *; [done|].
  by rewrite Hh.
Qed.

Lemma returns_ret (a : A) : returns (ret a).
Proof. intros s. by exists a. Qed.

Lemma returns_gets (f : pipeline -> A) : returns (gets f).
Proof. intros s. by eexists. Qed.

Lemma returns_bind (m : js A) (k : A -> js B) :
  returns m -> (forall a, returns (k a)) -> returns (bind m k).
Proof.
  intros Hm Hk s. unfold bind. destruct (Hm s) as [a Ha].
  destruct (m s) as [[a'|err] s']; simpl in *; [|done].
  apply Hk.
Qed.

(** A [catch] whose handler returns makes the whole statement return,
    whatever the body does. *)
Lemma returns_try_catch (m : js A) h :
  (forall err, returns (h err)) -> returns (try_catch m h).
Proof.
  intros Hh s. unfold try_catch.
  destruct (m s) as [[a|err] s']; simpl; [by exists a|].
  apply Hh.
Qed.

End Combinators.

Lemma returns_modify f : returns (modify f).
Proof. intros s. by exists tt. Qed.

Lemma returns_forEach {A} (l : list A) (f : A -> js unit) :
  (forall x, returns (f x)) -> returns (forEach l f).
Proof.
  intros Hf. induction l as [|x l IH]; simpl.
  - apply returns_ret.
  - apply returns_bind; [apply Hf | intros _; apply IH].
Qed.

Lemma preserves_forEach {A X} (obs : pipeline -> X) (l : list A) (f : A -> js unit) :
  (forall x, preserves obs (f x)) -> preserves obs (forEach l f).
Proof.
  intros Hf. induction l as [|x l IH]; simpl.
  - apply preserves_ret.
  - apply preserves_bind; [apply Hf | intros _; apply IH].
Qed.

Lemma returns_unit (m : js unit) s : returns m -> (m s).1 = Returned tt.
Proof. intros H. destruct (H s) as [[] Ha]. done. Qed.

(** Reading one array after writing another one. *)
Lemma array_set_array_ne l l' v s : l ≠ l' -> array (set_array l v s) l' = array s l'.
Proof. intros H. unfold array, set_array. simpl. by rewrite lookup_insert_ne. Qed.

Lemma array_set_array_eq l v s : array (set_array l v s) l = v.
Proof. unfold array, set_array. simpl. by rewrite lookup_insert_eq. Qed.

Lemma logBuffer_ne_logBatch : logBuffer ≠ logBatch.
Proof. done. Qed.

Lemma logBatch_ne_logBuffer : logBatch ≠ logBuffer.
Proof. done. Qed.

#[local] Hint Resolve logBuffer_ne_logBatch logBatch_ne_logBuffer : core.

Create HintDb js_frame.

#[local] Hint Resolve preserves_ret preserves_throw preserves_gets preserves_bind
  preserves_try_catch preserves_forEach : js_frame.
#[local] Hint Resolve returns_ret returns_gets returns_modify returns_bind
  returns_try_catch returns_forEach : js_frame.

(** ** The logger never throws *)

Section LoggerReturns.
Variable IS_PRODUCTION : bool.
Variable SESSION_ID : string.
Variable database : bool.

Lemma flushLogBatch_returns : returns (flushLogBatch database).
Proof.
  unfold flushLogBatch.
  apply returns_bind; [apply returns_modify | intros _].
  apply returns_bind; [apply returns_gets | intros s].
  destruct (bound _); [|apply returns_ret].
  destruct (_ || _); [apply returns_ret|].
  apply returns_bind; [apply returns_modify | intros _; apply returns_modify].
Qed.

Lemma resume_flush_returns id r : returns (resume_flush SESSION_ID id r).
Proof.
  unfold resume_flush.
  apply returns_bind; [apply returns_gets | intros fs].
  destruct (fs !! id) as [f|]; [|apply returns_ret].
  destruct (f_status f); try apply returns_ret.
  destruct (_ !! _); [|apply returns_ret].
  apply returns_try_catch. intros err. unfold console_error.
  repeat (apply returns_bind; [apply returns_modify | intros _]).
  apply returns_modify.
Qed.

Lemma log_returns io lvl cat msg d :
  returns (log IS_PRODUCTION SESSION_ID database io lvl cat msg d).
Proof.
  unfold log.
  apply returns_bind; [apply returns_modify | intros _].
  apply returns_bind; [apply returns_modify | intros _].
  apply returns_bind; [apply returns_gets | intros ls].
  apply returns_bind.
  { apply returns_forEach. intros l. apply returns_try_catch. intros _. apply returns_ret. }
  intros _. apply returns_bind; [apply returns_modify | intros _].
  apply returns_bind.
  { apply returns_try_catch. intros _. apply returns_ret. }
  intros _. apply returns_try_catch. intros _. apply returns_ret.
Qed.

End LoggerReturns.

(** ** What each operation does to the state *)

Ltac frame_step :=
  first
  [ apply preserves_ret | apply preserves_throw | apply preserves_gets
  | apply preserves_bind; [|intros ?]
  | apply preserves_try_catch; [|intros ?]
  | apply preserves_forEach; intros ?
  | apply preserves_modify; intros ?; simpl;
    rewrite ?array_set_array_ne by done; reflexivity
  | match goal with
    | |- preserves _ (if ?b then _ else _) => destruct b
    | |- preserves _ (match ?x with _ => _ end) => destruct x
    end ].
Ltac frame := repeat frame_step.

(** A [catch] that only returns keeps the state the body reached. *)
Lemma try_catch_ignore_state (m : js unit) s :
  (try_catch m (fun _ => ret tt) s).2 = (m s).2.
Proof. unfold try_catch, ret. by destruct (m s) as [[a|err] s']. Qed.

Lemma try_catch_ignore (m : js unit) s :
  try_catch m (fun _ => ret tt) s = (Returned tt, (m s).2).
Proof. unfold try_catch, ret. by destruct (m s) as [[[]|err] s']. Qed.

Lemma notify_listeners e ls s :
  forEach ls (fun l => try_catch (call_listener e l) (fun _ => ret tt)) s = (Returned tt, s).
Proof.
  induction ls as [|l ls IH]; simpl; [done|].
  unfold bind. rewrite try_catch_ignore. simpl. apply IH.
Qed.

Section LoggerSteps.
Variable IS_PRODUCTION : bool.
Variable SESSION_ID : string.
Variable database : bool.

Lemma saveLogLocally_eq io e s :
  saveLogLocally io e s =
  if logDB s then store_add io e s
  else if open_ok io then store_add io e (set_logDB true s)
  else (Returned tt,
        set_console
          (console s ++ [ConsoleError "Failed to open logs IndexedDB:" "request.error";
                         ConsoleError "Failed to save log locally:" "request.error"]) s).
Proof.
  unfold saveLogLocally, initLogDB, bind, try_catch, gets, ret, throw, console_error, modify.
  simpl. destruct (logDB s); [done|]. destruct (open_ok io); [done|].
  simpl. unfold set_console. simpl. by rewrite <- app_assoc.
Qed.

Lemma store_add_preserves {X} (obs : pipeline -> X) io e :
  (forall v s, obs (set_localStore v s) = obs s) ->
  preserves obs (store_add io e).
Proof.
  intros H. unfold store_add. destruct (add_ok io); [|done].
  intros s. apply H.
Qed.

(** [saveLogLocally] touches the IndexedDB handle, the local store and the
    console, nothing else. *)
Lemma saveLogLocally_preserves {X} (obs : pipeline -> X) io e :
  (forall v s, obs (set_localStore v s) = obs s) ->
  (forall v s, obs (set_logDB v s) = obs s) ->
  (forall v s, obs (set_console v s) = obs s) ->
  preserves obs (saveLogLocally io e).
Proof.
  intros H1 H2 H3 s. rewrite saveLogLocally_eq.
  destruct (logDB s); [by apply store_add_preserves|].
  destruct (open_ok io); [|apply H3].
  rewrite store_add_preserves by done. apply H2.
Qed.

Lemma saveLogLocally_localStore io e s :
  localStore (saveLogLocally io e s).2 =
  if local_write_ok io s then localStore s ++ [e] else localStore s.
Proof.
  rewrite saveLogLocally_eq. unfold local_write_ok, store_add.
  destruct (logDB s), (open_ok io), (add_ok io); done.
Qed.

Lemma flushLogBatch_eq s :
  flushLogBatch database s =
  (Returned tt,
   let s0 := set_batchFlushTimer false s in
   match bound (currentUserId s) with
   | Some u =>
       if bool_decide (length (array s logBatch) = 0%nat) || negb database then s0
       else set_flights (flights s ++ [Flight u (array s logBatch) 0 Running])
              (set_array logBatch [] s0)
   | None => s0
   end).
Proof.
  unfold flushLogBatch, bind, modify, gets, ret. simpl.
  destruct (bound (currentUserId s)); [|done].
  unfold array at 1. simpl. fold (array s logBatch).
  destruct (_ || _); done.
Qed.

Lemma saveLogToFirebase_eq e s :
  saveLogToFirebase IS_PRODUCTION database e s =
  match bound (currentUserId s) with
  | None => (Returned tt, s)
  | Some _ =>
      if negb database then (Returned tt, s)
      else if IS_PRODUCTION && bool_decide (level e = LOG_LEVELS.DEBUG) then (Returned tt, s)
      else
        let s1 := set_array logBatch (array s logBatch ++ [e]) s in
        if bool_decide (MAX_BATCH_SIZE <= length (array s logBatch ++ [e]))%nat
        then flushLogBatch database s1
        else (Returned tt, set_batchFlushTimer true s1)
  end.
Proof.
  unfold saveLogToFirebase, bind, modify, gets, ret. simpl.
  destruct (bound (currentUserId s)); [|done].
  destruct (negb database); [done|].
  destruct (_ && _); [done|].
  rewrite array_set_array_eq. by case_bool_decide.
Qed.

(** Through [log], the state goes: ring buffer, console line, local
    write, remote enqueue.  The listeners see the entry and change nothing. *)
Lemma log_eq io lvl cat msg d s :
  log IS_PRODUCTION SESSION_ID database io lvl cat msg d s =
  let e := Entry (now io) SESSION_ID lvl cat msg d (href io) (agent io) in
  let b := array s logBuffer ++ [e] in
  let s1 := set_array logBuffer
              (if bool_decide (MAX_BUFFER_SIZE < length b)%nat then tail b else b) s in
  let s2 := set_console (console s1 ++ [ConsoleLog e]) s1 in
  let s3 := (saveLogLocally io e s2).2 in
  (Returned tt, (saveLogToFirebase IS_PRODUCTION database e s3).2).
Proof.
  unfold log. unfold bind at 1. unfold modify at 1.
  unfold bind at 1. unfold modify at 1.
  unfold bind at 1. unfold gets at 1.
  unfold bind at 1. rewrite notify_listeners.
  unfold bind at 1. unfold console_log, modify at 1.
  unfold bind at 1. rewrite try_catch_ignore.
  rewrite try_catch_ignore.
  rewrite array_set_array_eq.
  f_equal. f_equal. f_equal. f_equal.
  case_bool_decide; [|done].
  unfold set_array. simpl. by rewrite insert_insert_eq.
Qed.

Lemma log_state io lvl cat msg d s :
  (log IS_PRODUCTION SESSION_ID database io lvl cat msg d s).2 =
  let e := Entry (now io) SESSION_ID lvl cat msg d (href io) (agent io) in
  let b := array s logBuffer ++ [e] in
  let s1 := set_array logBuffer
              (if bool_decide (MAX_BUFFER_SIZE < length b)%nat then tail b else b) s in
  let s2 := set_console (console s1 ++ [ConsoleLog e]) s1 in
  let s3 := (saveLogLocally io e s2).2 in
  (saveLogToFirebase IS_PRODUCTION database e s3).2.
Proof. by rewrite log_eq. Qed.

End LoggerSteps.

(** ** The ring buffer *)

Lemma last_n_push {A} (n : nat) (hist : list A) (x : A) :
  (0 < n)%nat ->
  (let b := last_n n hist ++ [x] in
   if bool_decide (n < length b)%nat then tail b else b) = last_n n (hist ++ [x]).
Proof.
  intros Hn. unfold last_n. cbv zeta.
  rewrite !length_app, length_drop. simpl.
  case_bool_decide as Hlen.
  - assert (n <= length hist)%nat as Hle by lia.
    replace (length hist + 1 - n)%nat with (S (length hist - n)) by lia.
    rewrite drop_app_le by lia.
    destruct (drop (length hist - n) hist) as [|y ys] eqn:Hd.
    { apply (f_equal length) in Hd. rewrite length_drop in Hd. simpl in Hd. lia. }
    simpl. f_equal.
    change ys with (drop 1 (y :: ys)). rewrite <- Hd, drop_drop. f_equal. lia.
  - replace (length hist + 1 - n)%nat with 0%nat by lia.
    replace (length hist - n)%nat with 0%nat by lia. done.
Qed.

Lemma length_last_n {A} (n : nat) (l : list A) :
  length (last_n n l) = (length l `min` n)%nat.
Proof. unfold last_n. rewrite length_drop. lia. Qed.

Section RingBuffer.
Variable IS_PRODUCTION : bool.
Variable SESSION_ID : string.
Variable database : bool.

Lemma saveLogToFirebase_logBuffer e :
  preserves (fun s => array s logBuffer) (saveLogToFirebase IS_PRODUCTION database e).
Proof. unfold saveLogToFirebase, flushLogBatch. frame. Qed.

Lemma log_logBuffer io lvl cat msg d s :
  array (log IS_PRODUCTION SESSION_ID database io lvl cat msg d s).2 logBuffer =
  let b := array s logBuffer ++ [Entry (now io) SESSION_ID lvl cat msg d (href io) (agent io)] in
  if bool_decide (MAX_BUFFER_SIZE < length b)%nat then tail b else b.
Proof.
  rewrite log_eq. cbv zeta. unfold snd at 1.
  rewrite saveLogToFirebase_logBuffer.
  rewrite (saveLogLocally_preserves (fun s => array s logBuffer)) by done.
  unfold array at 1. simpl. by rewrite lookup_insert_eq.
Qed.

Lemma emit_all_logBuffer calls : forall s hist,
  array s logBuffer = last_n MAX_BUFFER_SIZE hist ->
  array (emit_all IS_PRODUCTION SESSION_ID database s calls) logBuffer =
  last_n MAX_BUFFER_SIZE (hist ++ (entry_of SESSION_ID <$> calls)).
Proof.
  induction calls as [|c calls IH]; intros s hist Hs; simpl.
  - by rewrite app_nil_r.
  - rewrite (IH _ (hist ++ [entry_of SESSION_ID c])).
    + by rewrite <- app_assoc.
    + rewrite log_logBuffer, Hs. apply last_n_push. unfold MAX_BUFFER_SIZE. lia.
Qed.

(** C4.  After any sequence of [n] emit calls on a fresh pipeline the ring
    buffer holds exactly the last [min n 500] envelopes, in emission
    order, and so never more than 500 of them. *)
Theorem ring_buffer_keeps_last_500 (calls : list call) :
  let emitted := entry_of SESSION_ID <$> calls in
  let n := length calls in
  let buffer := array (emit_all IS_PRODUCTION SESSION_ID database initial calls) logBuffer in
  buffer = drop (n - (n `min` 500))%nat emitted ∧
  length buffer = (n `min` 500)%nat ∧
  (length buffer <= 500)%nat.
Proof.
  cbv zeta.
  rewrite (emit_all_logBuffer calls initial []) by done.
  rewrite app_nil_l, length_last_n, length_fmap.
  unfold last_n, MAX_BUFFER_SIZE. rewrite length_fmap.
  split; [f_equal; lia|split; lia].
Qed.

(** Only [log] writes the ring buffer: flushes, settled pushes and
    subscriptions leave it alone. *)
Lemma flushLogBatch_logBuffer : preserves (fun s => array s logBuffer) (flushLogBatch database).
Proof. unfold flushLogBatch. frame. Qed.

Lemma resume_flush_logBuffer id r :
  preserves (fun s => array s logBuffer) (resume_flush SESSION_ID id r).
Proof. unfold resume_flush, await_push, console_error. frame. Qed.

End RingBuffer.

(** ** Failures stay inside the pipeline *)

(** C9.  For every input, state, listener behaviour and IndexedDB outcome,
    [log] returns to its caller without raising; so do [flushLogBatch] and
    the continuation of a flush whose [push] was rejected. *)
Theorem log_never_raises (IS_PRODUCTION : bool) (SESSION_ID : string) (database : bool)
    (io : callenv) (lvl cat msg : string) (d : payload) (s : pipeline) :
  (log IS_PRODUCTION SESSION_ID database io lvl cat msg d s).1 = Returned tt ∧
  (forall s', (flushLogBatch database s').1 = Returned tt) ∧
  (forall s' id r, (resume_flush SESSION_ID id r s').1 = Returned tt).
Proof.
  split; [|split].
  - apply returns_unit, log_returns.
  - intros s'. apply returns_unit, flushLogBatch_returns.
  - intros s' id r. apply returns_unit, resume_flush_returns.
Qed.

(** The failures the theorem speaks of do occur in the model: a rejected
    [add] request makes [saveLogLocally] reject, a listener may throw, and
    a rejected [push] throws inside the flush loop. *)
Lemma saveLogLocally_can_reject e :
  (saveLogLocally (CallEnv 0 "" "" true false) e initial).1 = Thrown "request.error".
Proof. reflexivity. Qed.

Lemma listener_can_throw e :
  (call_listener e (fun _ => Thrown "boom") initial).1 = Thrown "boom".
Proof. reflexivity. Qed.

Lemma open_failure_goes_to_console e :
  console (saveLogLocally (CallEnv 0 "" "" false true) e initial).2 =
  [ConsoleError "Failed to open logs IndexedDB:" "request.error";
   ConsoleError "Failed to save log locally:" "request.error"].
Proof. reflexivity. Qed.

(** ** The gates in front of the remote uploader *)

Section MaintainsCombinators.
Context {A B : Type} (I : pipeline -> Prop).

Lemma maintains_ret (a : A) : maintains I (ret a).
Proof. by intros s. Qed.

Lemma maintains_throw err : maintains I (@throw A err).
Proof. by intros s. Qed.

Lemma maintains_gets (f : pipeline -> A) : maintains I (gets f).
Proof. by intros s. Qed.

Lemma maintains_modify f : (forall s, I s -> I (f s)) -> maintains I (modify f).
Proof. intros H s. apply H. Qed.

Lemma maintains_bind (m : js A) (k : A -> js B) :
  maintains I m -> (forall a, maintains I (k a)) -> maintains I (bind m k).
Proof.
  intros Hm Hk s Hs. unfold bind. specialize (Hm s Hs).
  destruct (m s) as [[a|err] s']; simpl in *; [|done].
  by apply Hk.
Qed.

Lemma maintains_try_catch (m : js A) h :
  maintains I m -> (forall err, maintains I (h err)) -> maintains I (try_catch m h).
Proof.
  intros Hm Hh s Hs. unfold try_catch. specialize (Hm s Hs).
  destruct (m s) as [[a|err] s']; simpl in *; [done|].
  by apply Hh.
Qed.

End MaintainsCombinators.

(** What it takes for the steps of a retention sweep to keep the state
    inside [I]: the closing [logger.info], the book-keeping of the sweep,
    the console and the removal of a session group must. *)
Section SweepMaintains.
Variable IS_PRODUCTION : bool.
Variable SESSION_ID : string.
Variable database : bool.
Variable I : pipeline -> Prop.
Hypothesis I_log : forall io msg d,
  maintains I (log IS_PRODUCTION SESSION_ID database io LOG_LEVELS.INFO "Logger" msg d).
Hypothesis I_sweeps : forall v s, I s -> I (set_sweeps v s).
Hypothesis I_console : forall what err, maintains I (console_error what err).
Hypothesis I_remove : forall u sid s,
  I s -> I (set_remote (remote_remove u sid (remote s)) s).

Lemma sweep_sessions_maintains io c l : forall n,
  maintains I (sweep_sessions IS_PRODUCTION SESSION_ID database io c l n).
Proof.
  induction l as [|[sid logs] rest IH]; intros n; simpl.
  - apply maintains_bind; [|intros _; apply maintains_ret].
    case_bool_decide; [|apply maintains_ret].
    apply maintains_try_catch; [apply I_log|intros; apply maintains_ret].
  - destruct logs as [|first more]; [apply IH|].
    case_bool_decide; [|apply IH].
    apply maintains_bind; [apply maintains_gets|intros cur; apply maintains_ret].
Qed.

Lemma cleanupOldFirebaseLogs_maintains :
  maintains I (cleanupOldFirebaseLogs database).
Proof.
  unfold cleanupOldFirebaseLogs.
  apply maintains_bind; [apply maintains_gets|intros cur].
  destruct (bound cur) as [u|]; [|apply maintains_ret].
  destruct (negb database); [apply maintains_ret|].
  apply maintains_modify. intros s Hs. by apply I_sweeps.
Qed.

Lemma sweep_failed_maintains id error : maintains I (sweep_failed id error).
Proof.
  unfold sweep_failed. apply maintains_bind; [apply I_console|].
  intros _. apply maintains_modify. intros s Hs. by apply I_sweeps.
Qed.

Lemma resume_sweep_maintains id ok today io :
  maintains I (resume_sweep IS_PRODUCTION SESSION_ID database id ok today io).
Proof.
  unfold resume_sweep.
  apply maintains_bind; [apply maintains_gets|intros ws].
  destruct (ws !! id) as [[u|u sid rest c n| |]|]; try apply maintains_ret.
  - apply maintains_try_catch; [|apply sweep_failed_maintains].
    apply maintains_bind.
    { destruct ok; [apply maintains_ret|apply maintains_throw]. }
    intros _. apply maintains_bind; [apply maintains_gets|intros sessions].
    destruct (negb (partition_exists sessions)).
    + apply maintains_modify. intros s Hs. by apply I_sweeps.
    + apply maintains_bind; [apply sweep_sessions_maintains|intros w].
      apply maintains_modify. intros s Hs. by apply I_sweeps.
  - apply maintains_try_catch; [|apply sweep_failed_maintains].
    apply maintains_bind.
    { destruct ok; [|apply maintains_throw].
      apply maintains_modify. intros s Hs. by apply I_remove. }
    intros _. apply maintains_bind; [apply sweep_sessions_maintains|intros w].
    apply maintains_modify. intros s Hs. by apply I_sweeps.
Qed.

End SweepMaintains.

(** The same for an observation of the state that the steps of a sweep
    leave as it was. *)
Section SweepPreserves.
Variable IS_PRODUCTION : bool.
Variable SESSION_ID : string.
Variable database : bool.
Context {X : Type} (obs : pipeline -> X).
Hypothesis obs_log : forall io msg d,
  preserves obs (log IS_PRODUCTION SESSION_ID database io LOG_LEVELS.INFO "Logger" msg d).
Hypothesis obs_sweeps : forall v s, obs (set_sweeps v s) = obs s.
Hypothesis obs_console : forall v s, obs (set_console v s) = obs s.

Lemma sweep_sessions_preserves io c l n :
  preserves obs (sweep_sessions IS_PRODUCTION SESSION_ID database io c l n).
Proof.
  intros s.
  apply (sweep_sessions_maintains IS_PRODUCTION SESSION_ID database
           (fun s' => obs s' = obs s)); [|done].
  intros io' msg d s' Hs'. by rewrite obs_log.
Qed.

Lemma cleanupOldFirebaseLogs_preserves :
  preserves obs (cleanupOldFirebaseLogs database).
Proof.
  intros s.
  apply (cleanupOldFirebaseLogs_maintains database (fun s' => obs s' = obs s)); [|done].
  intros v s' Hs'. by rewrite obs_sweeps.
Qed.

Lemma resume_sweep_preserves id ok today io :
  ok = false \/
  (forall u sid s, obs (set_remote (remote_remove u sid (remote s)) s) = obs s) ->
  preserves obs (resume_sweep IS_PRODUCTION SESSION_ID database id ok today io).
Proof.
  intros Hok s.
  destruct Hok as [->|Hremove].
  - unfold resume_sweep, bind at 1, gets at 1.
    destruct (sweeps s !! id) as [[u|u sid rest c n| |]|]; try done.
    + change (obs (set_sweep id Stopped (set_console
                (console s ++ [ConsoleError "Failed to cleanup old Firebase logs:" "get failed"])
                s)) = obs s).
      unfold set_sweep. by rewrite obs_sweeps, obs_console.
    + change (obs (set_sweep id Stopped (set_console
                (console s ++ [ConsoleError "Failed to cleanup old Firebase logs:" "remove failed"])
                s)) = obs s).
      unfold set_sweep. by rewrite obs_sweeps, obs_console.
  - apply (resume_sweep_maintains IS_PRODUCTION SESSION_ID database
             (fun s' => obs s' = obs s)); try done.
    + intros io' msg d s' Hs'. by rewrite obs_log.
    + intros v s' Hs'. by rewrite obs_sweeps.
    + intros what err s' Hs'. simpl. by rewrite obs_console.
    + intros u sid s' Hs'. by rewrite Hremove.
Qed.

End SweepPreserves.

Lemma remote_session_no_debug m u sid :
  remote_no_debug m ->
  Forall (fun r => level (s_entry r) ≠ LOG_LEVELS.DEBUG) (remote_session m u sid).
Proof.
  intros H. unfold remote_session.
  destruct (m !! u) as [sessions|] eqn:Hu; simpl.
  - destruct (sessions !! sid) as [logs|] eqn:Hsid; simpl; [|constructor].
    by eapply H.
  - rewrite lookup_empty. constructor.
Qed.

Lemma remote_no_debug_push u sid e ts m :
  remote_no_debug m -> level e ≠ LOG_LEVELS.DEBUG ->
  remote_no_debug (remote_push u sid (Stored e ts) m).
Proof.
  intros H He u' sessions' sid' logs' Hu Hsid. unfold remote_push in Hu.
  destruct (decide (u = u')) as [->|Hne].
  - rewrite lookup_insert_eq in Hu. injection Hu as <-.
    destruct (decide (sid = sid')) as [->|Hne'].
    + rewrite lookup_insert_eq in Hsid. injection Hsid as <-.
      apply Forall_app. split; [by apply remote_session_no_debug|].
      by repeat constructor.
    + rewrite lookup_insert_ne in Hsid by done.
      destruct (m !! u') as [sessions|] eqn:Hm; simpl in Hsid.
      * by eapply H.
      * by rewrite lookup_empty in Hsid.
  - rewrite lookup_insert_ne in Hu by done. by eapply H.
Qed.

Lemma remote_no_debug_remove u sid m :
  remote_no_debug m -> remote_no_debug (remote_remove u sid m).
Proof.
  intros H u' sessions' sid' logs' Hu Hsid. unfold remote_remove in Hu.
  destruct (m !! u) as [sessions|] eqn:Hm; [|by eapply H].
  destruct (decide (u = u')) as [->|Hne].
  - rewrite lookup_insert_eq in Hu. injection Hu as <-.
    destruct (decide (sid = sid')) as [->|Hne'].
    + by rewrite lookup_delete_eq in Hsid.
    + rewrite lookup_delete_ne in Hsid by done. by eapply H.
  - rewrite lookup_insert_ne in Hu by done. by eapply H.
Qed.

(** [debug_free] only looks at the pending queue, the flushes under way
    and the remote store. *)
Lemma debug_free_same s s' :
  array s' logBatch = array s logBatch ->
  flights s' = flights s ->
  remote s' = remote s ->
  debug_free s -> debug_free s'.
Proof. unfold debug_free. by intros -> -> ->. Qed.

Section Gates.
Variable IS_PRODUCTION : bool.
Variable SESSION_ID : string.
Variable database : bool.

Lemma flushLogBatch_debug_free : maintains debug_free (flushLogBatch database).
Proof.
  intros s (Hb & Hf & Hr). rewrite flushLogBatch_eq. cbv zeta. unfold snd.
  destruct (bound (currentUserId s)) as [u|]; [|done].
  destruct (_ || _); [done|].
  split; [|split].
  - unfold array. simpl. rewrite lookup_insert_eq. constructor.
  - simpl. apply Forall_app. split; [done|]. by repeat constructor.
  - done.
Qed.

Lemma resume_flush_debug_free id r : maintains debug_free (resume_flush SESSION_ID id r).
Proof.
  intros s (Hb & Hf & Hr).
  unfold resume_flush, bind at 1, gets at 1.
  destruct (flights s !! id) as [f|] eqn:Hid; [|done].
  assert (no_debug (f_logsToSend f)) as Hsnap.
  { eapply (proj1 (Forall_forall _ _) Hf). by eapply list_elem_of_lookup_2. }
  destruct (f_status f); try done.
  destruct (f_logsToSend f !! f_next f) as [e|] eqn:He; [|done].
  assert (level e ≠ LOG_LEVELS.DEBUG) as Hlevel.
  { eapply (proj1 (Forall_forall _ _) Hsnap). by eapply list_elem_of_lookup_2. }
  destruct r as [ts|err]; unfold try_catch, await_push, bind, modify, throw, console_error; simpl.
  - split; [done|split]; simpl.
    + by apply Forall_insert.
    + by apply remote_no_debug_push.
  - split; [|split]; simpl.
    + unfold array at 1. simpl. rewrite lookup_insert_eq. simpl.
      apply Forall_app. by split.
    + by apply Forall_insert.
    + done.
Qed.

Lemma saveLogToFirebase_debug_free e :
  (IS_PRODUCTION = true \/ level e ≠ LOG_LEVELS.DEBUG) ->
  maintains debug_free (saveLogToFirebase IS_PRODUCTION database e).
Proof.
  intros Hgate s Hs. rewrite saveLogToFirebase_eq.
  destruct (bound (currentUserId s)); [|done].
  destruct (negb database); [done|].
  destruct (IS_PRODUCTION && bool_decide (level e = LOG_LEVELS.DEBUG)) eqn:Hg; [done|].
  assert (level e ≠ LOG_LEVELS.DEBUG) as He.
  { destruct Hgate as [->|]; [|done]. simpl in Hg. by apply bool_decide_eq_false in Hg. }
  cbv zeta.
  assert (debug_free (set_array logBatch (array s logBatch ++ [e]) s)) as Hs1.
  { destruct Hs as (Hb & Hf & Hr). split; [|done].
    rewrite array_set_array_eq. apply Forall_app. split; [done|]. by repeat constructor. }
  destruct (bool_decide (MAX_BATCH_SIZE <= _)%nat); [by apply flushLogBatch_debug_free|].
  eapply debug_free_same; [| | |exact Hs1]; done.
Qed.

Lemma log_debug_free io lvl cat msg d :
  (IS_PRODUCTION = true \/ lvl ≠ LOG_LEVELS.DEBUG) ->
  maintains debug_free (log IS_PRODUCTION SESSION_ID database io lvl cat msg d).
Proof.
  intros Hgate s Hs. rewrite log_eq. cbv zeta. unfold snd at 1.
  apply saveLogToFirebase_debug_free; [done|].
  eapply debug_free_same; [| | |exact Hs].
  - rewrite (saveLogLocally_preserves (fun s => array s logBatch)) by done.
    unfold array. simpl. by rewrite lookup_insert_ne.
  - by rewrite (saveLogLocally_preserves flights).
  - by rewrite (saveLogLocally_preserves remote).
Qed.

Lemma cleanupOldFirebaseLogs_debug_free :
  maintains debug_free (cleanupOldFirebaseLogs database).
Proof. by apply cleanupOldFirebaseLogs_maintains. Qed.

Lemma resume_sweep_debug_free id ok today io :
  maintains debug_free (resume_sweep IS_PRODUCTION SESSION_ID database id ok today io).
Proof.
  apply resume_sweep_maintains.
  - intros io' msg d. apply log_debug_free. by right.
  - done.
  - intros what err. by apply maintains_modify.
  - intros u sid s (Hb & Hf & Hr).
    split; [done|split; [done|]]. by apply remote_no_debug_remove.
Qed.

Lemma step_debug_free s ev :
  IS_PRODUCTION = true ->
  debug_free s -> debug_free (step IS_PRODUCTION SESSION_ID database s ev).
Proof.
  intros Hprod Hs. unfold step. destruct ev; simpl.
  - apply log_debug_free; [by left|done].
  - unfold setUserId. revert s Hs. apply maintains_bind.
    + apply maintains_modify. by intros s Hs.
    + intros _. apply maintains_try_catch; [|intros; apply maintains_ret].
      apply log_debug_free. by left.
  - by apply flushLogBatch_debug_free.
  - by apply resume_flush_debug_free.
  - by apply cleanupOldFirebaseLogs_debug_free.
  - by apply resume_sweep_debug_free.
  - done.
Qed.

Lemma run_debug_free evs : forall s,
  IS_PRODUCTION = true ->
  debug_free s -> debug_free (run IS_PRODUCTION SESSION_ID database s evs).
Proof.
  induction evs as [|ev evs IH]; intros s Hprod Hs; simpl; [done|].
  apply IH; [done|]. by apply step_debug_free.
Qed.

End Gates.

Lemma debug_free_initial : debug_free initial.
Proof.
  split; [|split].
  - constructor.
  - constructor.
  - intros u sessions sid logs Hu. simpl in Hu. by rewrite lookup_empty in Hu.
Qed.

Lemma last_ring {A} (n : nat) (old : list A) (x : A) :
  (0 < n)%nat ->
  last (let b := old ++ [x] in if bool_decide (n < length b)%nat then tail b else b) = Some x.
Proof.
  intros Hn. cbv zeta. case_bool_decide as Hlen; [|apply last_snoc].
  destruct old as [|y old]; simpl in *; [lia|apply last_snoc].
Qed.

Section GateTheorems.
Variable IS_PRODUCTION : bool.
Variable SESSION_ID : string.
Variable database : bool.

(** When one of the gates of [saveLogToFirebase] is closed, a call of
    [log] reaches the ring buffer and the local store and nothing else. *)
Lemma log_when_gated io lvl cat msg d s :
  bound (currentUserId s) = None \/ database = false \/
    (IS_PRODUCTION = true /\ lvl = LOG_LEVELS.DEBUG) ->
  let e := Entry (now io) SESSION_ID lvl cat msg d (href io) (agent io) in
  let s' := (log IS_PRODUCTION SESSION_ID database io lvl cat msg d s).2 in
  array s' logBatch = array s logBatch ∧
  flights s' = flights s ∧
  remote s' = remote s ∧
  last (array s' logBuffer) = Some e ∧
  localStore s' = (if local_write_ok io s then localStore s ++ [e] else localStore s).
Proof.
  intros Hgate e s'.
  assert (array s' logBuffer =
          (let b := array s logBuffer ++ [e] in
           if bool_decide (MAX_BUFFER_SIZE < length b)%nat then tail b else b)) as Hbuf.
  { apply log_logBuffer. }
  subst s'. rewrite log_state in *. cbv zeta in *. fold e in Hbuf |- *.
  set (s1 := set_array logBuffer _ s) in *.
  set (s2 := set_console _ s1) in *.
  set (s3 := (saveLogLocally io e s2).2) in *.
  assert (currentUserId s3 = currentUserId s) as Hu.
  { unfold s3. by rewrite (saveLogLocally_preserves currentUserId). }
  assert ((saveLogToFirebase IS_PRODUCTION database e s3).2 = s3) as Hsf.
  { rewrite saveLogToFirebase_eq, Hu.
    destruct (bound (currentUserId s)); [|done].
    destruct Hgate as [?|[->|[-> Hl]]]; [done|done|].
    destruct (negb database); [done|].
    subst lvl. done. }
  rewrite Hsf in *.
  split; [|split; [|split; [|split]]].
  - unfold s3. rewrite (saveLogLocally_preserves (fun s => array s logBatch)) by done.
    unfold array, s2, s1. simpl. by rewrite lookup_insert_ne.
  - unfold s3. by rewrite (saveLogLocally_preserves flights).
  - unfold s3. by rewrite (saveLogLocally_preserves remote).
  - rewrite Hbuf. apply last_ring. unfold MAX_BUFFER_SIZE. lia.
  - unfold s3. by rewrite saveLogLocally_localStore.
Qed.

End GateTheorems.

(** C3.  In a production build a [debug] call changes neither the pending
    batch, nor the flushes under way, nor the remote store, whatever the
    state; it is appended to the ring buffer and handed to the local store
    (which keeps it whenever IndexedDB takes the write).  Over any sequence
    of pipeline events no [debug] envelope ever appears in the batch, in a
    flush snapshot or in the remote store. *)
Theorem production_debug_stays_local (SESSION_ID : string) (database : bool) :
  (forall s io cat msg d,
     let e := Entry (now io) SESSION_ID LOG_LEVELS.DEBUG cat msg d (href io) (agent io) in
     let s' := (log true SESSION_ID database io LOG_LEVELS.DEBUG cat msg d s).2 in
     array s' logBatch = array s logBatch ∧
     flights s' = flights s ∧
     remote s' = remote s ∧
     last (array s' logBuffer) = Some e ∧
     localStore s' = (if local_write_ok io s then localStore s ++ [e] else localStore s)) ∧
  (forall s evs, debug_free s -> debug_free (run true SESSION_ID database s evs)) ∧
  (forall evs, debug_free (run true SESSION_ID database initial evs)).
Proof.
  split; [|split].
  - intros s io cat msg d. apply log_when_gated. right. right. done.
  - intros s evs Hs. by apply run_debug_free.
  - intros evs. apply run_debug_free; [done|apply debug_free_initial].
Qed.

(** C6.  While no actor is bound, a call of [log] adds nothing to the
    pending batch, starts no flush and writes nothing remotely; the
    envelope is appended to the ring buffer and handed to the local store
    (which keeps it whenever IndexedDB takes the write). *)
Theorem unbound_emit_stays_local (IS_PRODUCTION : bool) (SESSION_ID : string)
    (database : bool) (s : pipeline) (io : callenv) (lvl cat msg : string) (d : payload) :
  bound (currentUserId s) = None ->
  let e := Entry (now io) SESSION_ID lvl cat msg d (href io) (agent io) in
  let s' := (log IS_PRODUCTION SESSION_ID database io lvl cat msg d s).2 in
  array s' logBatch = array s logBatch ∧
  flights s' = flights s ∧
  remote s' = remote s ∧
  last (array s' logBuffer) = Some e ∧
  localStore s' = (if local_write_ok io s then localStore s ++ [e] else localStore s).
Proof. intros Hu. apply log_when_gated. by left. Qed.

(** ** The remote batch uploader *)

Section Uploader.
Variable IS_PRODUCTION : bool.
Variable SESSION_ID : string.
Variable database : bool.

Lemma resume_flush_acked s id f e ts :
  flights s !! id = Some f -> f_status f = Running ->
  f_logsToSend f !! f_next f = Some e ->
  resume_flush SESSION_ID id (Acked ts) s =
  (Returned tt,
   set_flight id
     (Flight (f_user f) (f_logsToSend f) (S (f_next f))
        (if bool_decide (S (f_next f) < length (f_logsToSend f))%nat
         then Running else Completed))
     (set_remote (remote_push (f_user f) SESSION_ID (Stored e ts) (remote s)) s)).
Proof.
  intros Hid Hst He.
  unfold resume_flush, bind at 1, gets at 1. rewrite Hid, Hst, He. done.
Qed.

Lemma resume_flush_rejected s id f e err :
  flights s !! id = Some f -> f_status f = Running ->
  f_logsToSend f !! f_next f = Some e ->
  resume_flush SESSION_ID id (Rejected err) s =
  (Returned tt,
   let s1 := set_console
               (console s ++ [ConsoleError "Failed to flush log batch to Firebase:" err]) s in
   set_flight id (Flight (f_user f) (f_logsToSend f) (f_next f) Failed)
     (set_array logBatch (f_logsToSend f ++ array s logBatch) s1)).
Proof.
  intros Hid Hst He.
  unfold resume_flush, bind at 1, gets at 1. rewrite Hid, Hst, He. done.
Qed.

Lemma saveLogToFirebase_remote e :
  preserves remote (saveLogToFirebase IS_PRODUCTION database e).
Proof. unfold saveLogToFirebase, flushLogBatch. frame. Qed.

Lemma log_remote io lvl cat msg d :
  preserves remote (log IS_PRODUCTION SESSION_ID database io lvl cat msg d).
Proof.
  intros s. rewrite log_state. cbv zeta.
  rewrite saveLogToFirebase_remote.
  by rewrite (saveLogLocally_preserves remote).
Qed.

Lemma flushLogBatch_remote : preserves remote (flushLogBatch database).
Proof. unfold flushLogBatch. frame. Qed.

(** Only an acknowledged [push] and the retention sweep change the remote
    store. *)
Lemma remote_changes_only_by_ack_or_sweep s ev :
  touches_remote ev = false ->
  remote (step IS_PRODUCTION SESSION_ID database s ev) = remote s.
Proof.
  intros Hev. unfold step.
  destruct ev as [io lvl cat msg d|io u| |id r| |id ok today io|l]; simpl.
  - apply log_remote.
  - unfold setUserId, detached. revert s.
    apply preserves_bind; [frame|intros _].
    apply preserves_try_catch; [apply log_remote|frame].
  - apply flushLogBatch_remote.
  - destruct r as [ts|err]; [done|].
    revert s. unfold resume_flush, await_push, console_error. frame.
  - by apply cleanupOldFirebaseLogs_preserves.
  - destruct ok; [done|].
    apply resume_sweep_preserves; try done; [|by left].
    intros io' msg d. apply log_remote.
  - done.
Qed.

End Uploader.

(** C1 (as the code has it).  When the pending [push] of a flush is
    rejected after [k] of the [n] snapshotted items were acknowledged, the
    [catch] block puts the whole snapshot back: the pending queue becomes
    all [n] snapshotted items, the [k] confirmed ones included, in their
    original order, followed by whatever was enqueued during the flush.
    The [n - k] unconfirmed items are the part of it after the first [k]
    and before the newer items; the remote store is left as it was. *)
Theorem failed_flush_requeues_whole_snapshot (SESSION_ID : string) (s : pipeline)
    (id : nat) (f : flight) (e : entry) (err : string) :
  flights s !! id = Some f ->
  f_status f = Running ->
  f_logsToSend f !! f_next f = Some e ->
  let n := length (f_logsToSend f) in
  let k := f_next f in
  let s' := (resume_flush SESSION_ID id (Rejected err) s).2 in
  array s' logBatch = f_logsToSend f ++ array s logBatch ∧
  length (array s' logBatch) = (n + length (array s logBatch))%nat ∧
  drop k (array s' logBatch) = drop k (f_logsToSend f) ++ array s logBatch ∧
  length (drop k (f_logsToSend f)) = (n - k)%nat ∧
  (k < n)%nat ∧
  remote s' = remote s ∧
  flights s' !! id = Some (Flight (f_user f) (f_logsToSend f) k Failed).
Proof.
  intros Hid Hst He n k s'. subst s'.
  rewrite (resume_flush_rejected _ s id f e err) by done. cbv zeta. unfold snd.
  assert (k < n)%nat as Hk by (by eapply lookup_lt_Some).
  assert (array
    (set_flight id (Flight (f_user f) (f_logsToSend f) (f_next f) Failed)
       (set_array logBatch (f_logsToSend f ++ array s logBatch)
          (set_console
             (console s ++ [ConsoleError "Failed to flush log batch to Firebase:" err]) s)))
    logBatch = f_logsToSend f ++ array s logBatch) as ->.
  { unfold array at 1. simpl. by rewrite lookup_insert_eq. }
  repeat split.
  - by rewrite length_app.
  - rewrite drop_app_le; [done|]. fold n. lia.
  - rewrite length_drop. done.
  - done.
  - simpl. apply list_lookup_insert_eq. by eapply lookup_lt_Some.
Qed.

Lemma failed_flush_requeues_whole_snapshot_witness :
  array (resume_flush "S" 0 (Rejected "offline") partial_flush_run).2 logBatch =
  [Entry 1 "S" "info" "Logger" "User ID set" "alice,S" "https://shopping.example/" "browser";
   Entry 2 "S" "info" "App" "a" "" "https://shopping.example/" "browser"]
  ++ array partial_flush_run logBatch.
Proof.
  exact (proj1 (failed_flush_requeues_whole_snapshot "S" partial_flush_run 0
    (Flight "alice"
       [Entry 1 "S" "info" "Logger" "User ID set" "alice,S" "https://shopping.example/" "browser";
        Entry 2 "S" "info" "App" "a" "" "https://shopping.example/" "browser"]
       1 Running)
    (Entry 2 "S" "info" "App" "a" "" "https://shopping.example/" "browser")
    "offline" eq_refl eq_refl eq_refl)).
Defined.

(** C1 as stated fails: with [k = 1] of [n = 2] items acknowledged and one
    item enqueued during the flush, the queue after the rejection is not
    the one unconfirmed item followed by the new one; it also holds the
    item that was already written. *)
Lemma failed_flush_keeps_confirmed_items :
  let s := partial_flush_run in
  let s' := step false "S" true s (EvSettle 0 (Rejected "offline")) in
  exists f,
    flights s !! 0%nat = Some f ∧ f_status f = Running ∧
    length (f_logsToSend f) = 2%nat ∧ f_next f = 1%nat ∧
    length (remote_session (remote s) "alice" "S") = 1%nat ∧
    length (array s logBatch) = 1%nat ∧
    array s' logBatch ≠ drop (f_next f) (f_logsToSend f) ++ array s logBatch ∧
    length (array s' logBatch) = 3%nat.
Proof.
  eexists. split; [reflexivity|].
  repeat split. by vm_compute.
Qed.

Section Rebinding.
Variable IS_PRODUCTION : bool.
Variable SESSION_ID : string.
Variable database : bool.

(** What a call of [log] does to the pending queue and to the flushes
    under way: nothing, or the entry is enqueued, or the entry is enqueued
    and the whole queue leaves in a flush under the bound actor. *)
Lemma log_queue io lvl cat msg d s :
  let e := Entry (now io) SESSION_ID lvl cat msg d (href io) (agent io) in
  let s' := (log IS_PRODUCTION SESSION_ID database io lvl cat msg d s).2 in
  (array s' logBatch = array s logBatch ∧ flights s' = flights s) ∨
  (array s' logBatch = array s logBatch ++ [e] ∧ flights s' = flights s) ∨
  (exists u, bound (currentUserId s) = Some u ∧
     array s' logBatch = [] ∧
     flights s' = flights s ++ [Flight u (array s logBatch ++ [e]) 0 Running]).
Proof.
  intros e s'. subst s'. rewrite log_state. cbv zeta. fold e.
  set (s1 := set_array logBuffer _ s).
  set (s2 := set_console _ s1).
  set (s3 := (saveLogLocally io e s2).2).
  assert (currentUserId s3 = currentUserId s) as Hu.
  { unfold s3. by rewrite (saveLogLocally_preserves currentUserId). }
  assert (flights s3 = flights s) as Hf.
  { unfold s3. by rewrite (saveLogLocally_preserves flights). }
  assert (array s3 logBatch = array s logBatch) as Hb.
  { unfold s3. rewrite (saveLogLocally_preserves (fun s => array s logBatch)) by done.
    unfold array, s2, s1. simpl. by rewrite lookup_insert_ne. }
  rewrite saveLogToFirebase_eq, Hu.
  destruct (bound (currentUserId s)) as [u|] eqn:Hbound; [|by left].
  destruct (negb database) eqn:Hdb; [by left|].
  destruct (_ && _); [by left|].
  cbv zeta. rewrite Hb.
  case_bool_decide as Hfull.
  - right. right. exists u. split; [done|].
    rewrite flushLogBatch_eq. cbv zeta. unfold snd.
    replace (currentUserId (set_array logBatch (array s logBatch ++ [e]) s3))
      with (currentUserId s) by done.
    rewrite Hbound, array_set_array_eq, Hdb, orb_false_r.
    rewrite bool_decide_eq_false_2; [|rewrite length_app; simpl; lia].
    split.
    + unfold array. simpl. by rewrite lookup_insert_eq.
    + simpl. by rewrite Hf.
  - right. left. split.
    + unfold array at 1. simpl. by rewrite lookup_insert_eq.
    + done.
Qed.

Lemma setUserId_state io userId s :
  (setUserId IS_PRODUCTION SESSION_ID database io userId s).2 =
  (log IS_PRODUCTION SESSION_ID database io LOG_LEVELS.INFO "Logger" "User ID set"
     (user_payload SESSION_ID userId) (set_currentUserId userId s)).2.
Proof.
  unfold setUserId, bind at 1, modify at 1, detached.
  by rewrite try_catch_ignore_state.
Qed.

End Rebinding.

(** C2 (as the code has it).  A flush writes under the partition of the
    actor that is bound when the flush takes its snapshot: [flushLogBatch]
    fixes [logs/${currentUserId}/${SESSION_ID}] together with the snapshot
    of the whole pending queue; every acknowledged [push] of that flush
    lands under that partition, whoever is bound by then; binding an actor
    keeps the pending items, in the queue or in a flush under the newly
    bound actor; and nothing but an acknowledged [push] adds a record to
    the remote store. *)
Theorem flush_writes_under_actor_bound_at_flush (IS_PRODUCTION : bool)
    (SESSION_ID : string) (database : bool) :
  (forall s u,
     bound (currentUserId s) = Some u -> database = true -> array s logBatch ≠ [] ->
     flights (flushLogBatch database s).2 =
       flights s ++ [Flight u (array s logBatch) 0 Running]) ∧
  (forall s id f e ts,
     flights s !! id = Some f -> f_status f = Running ->
     f_logsToSend f !! f_next f = Some e ->
     let s' := step IS_PRODUCTION SESSION_ID database s (EvSettle id (Acked ts)) in
     remote s' = remote_push (f_user f) SESSION_ID (Stored e ts) (remote s) ∧
     exists st,
       flights s' !! id = Some (Flight (f_user f) (f_logsToSend f) (S (f_next f)) st)) ∧
  (forall s io userId,
     let s' := step IS_PRODUCTION SESSION_ID database s (EvSetUserId io userId) in
     let e := Entry (now io) SESSION_ID LOG_LEVELS.INFO "Logger" "User ID set"
                (user_payload SESSION_ID userId) (href io) (agent io) in
     (array s' logBatch = array s logBatch ∧ flights s' = flights s) ∨
     (array s' logBatch = array s logBatch ++ [e] ∧ flights s' = flights s) ∨
     (exists u, bound userId = Some u ∧
        array s' logBatch = [] ∧
        flights s' = flights s ++ [Flight u (array s logBatch ++ [e]) 0 Running])) ∧
  (forall s ev,
     touches_remote ev = false ->
     remote (step IS_PRODUCTION SESSION_ID database s ev) = remote s).
Proof.
  split; [|split; [|split]].
  - intros s u Hu -> Hne. rewrite flushLogBatch_eq. cbv zeta. unfold snd.
    rewrite Hu. rewrite bool_decide_eq_false_2.
    + done.
    + destruct (array s logBatch); [done|simpl; lia].
  - intros s id f e ts Hid Hst He s'. subst s'. unfold step. simpl.
    rewrite (resume_flush_acked _ s id f e ts) by done. unfold snd.
    split; [done|]. eexists. simpl.
    apply list_lookup_insert_eq. by eapply lookup_lt_Some.
  - intros s io userId s' e. subst s' e. unfold step. simpl.
    rewrite !setUserId_state.
    pose proof (log_queue IS_PRODUCTION SESSION_ID database io LOG_LEVELS.INFO "Logger"
             "User ID set" (user_payload SESSION_ID userId) (set_currentUserId userId s)) as H.
    exact H.
  - intros s ev Hev. by apply remote_changes_only_by_ack_or_sweep.
Qed.

Lemma flush_writes_under_actor_bound_at_flush_witness :
  flights (flushLogBatch true alice_pending).2 =
  flights alice_pending ++ [Flight "alice" (array alice_pending logBatch) 0 Running].
Proof.
  apply (proj1 (flush_writes_under_actor_bound_at_flush false "S" true)
           alice_pending "alice"); [reflexivity|reflexivity|by vm_compute].
Defined.

(** C2 as stated fails: an item logged while "alice" is bound, and still
    pending when "bob" is bound, is written by the next flush under
    [logs/bob], and nothing is written under [logs/alice]. *)
Lemma pending_item_written_under_new_actor :
  currentUserId alice_pending = Some "alice" ∧
  alice_item ∈ array alice_pending logBatch ∧
  currentUserId flushed_as_bob = Some "bob" ∧
  Stored alice_item 101 ∈ remote_session (remote flushed_as_bob) "bob" "S" ∧
  remote flushed_as_bob !! "alice" = None.
Proof.
  split; [reflexivity|].
  split; [by vm_compute; apply list_elem_of_In; right; left|].
  split; [reflexivity|].
  split; [by vm_compute; apply list_elem_of_In; right; left|].
  by vm_compute.
Qed.

Lemma unbound_emit_stays_local_witness :
  remote (log false "S" true (io_at 5) "warn" "Auth" "x" "" initial).2 = remote initial.
Proof.
  exact (proj1 (proj2 (proj2
    (unbound_emit_stays_local false "S" true initial (io_at 5) "warn" "Auth" "x" ""
       eq_refl)))).
Defined.

Lemma production_debug_stays_local_witness :
  debug_free (run true "S" true initial [EvLog (io_at 5) "debug" "Auth" "x" ""]).
Proof.
  exact (proj1 (proj2 (production_debug_stays_local "S" true)) initial
           [EvLog (io_at 5) "debug" "Auth" "x" ""] debug_free_initial).
Defined.

(** ** The buffered view handed to clients *)

Lemma is_Some_lookup_set_array l l' v s :
  is_Some (arrays s !! l) -> is_Some (arrays (set_array l' v s) !! l).
Proof.
  intros H. simpl. destruct (decide (l' = l)) as [->|Hne].
  - rewrite lookup_insert_eq. by eexists.
  - by rewrite lookup_insert_ne.
Qed.

(** C10.  [getBufferedLogs] returns a new array with the contents of the
    ring buffer: it is not the buffer itself, so whatever the client then
    does to it leaves the buffer as it was, and a second call (no emit in
    between) returns another array with the same events. *)
Theorem getBufferedLogs_returns_copy (s : pipeline) (v : list entry) :
  logBuffer_allocated s ->
  exists l s1,
    getBufferedLogs s = (Returned l, s1) ∧
    l ≠ logBuffer ∧
    arrays s !! l = None ∧
    array s1 l = array s logBuffer ∧
    array s1 logBuffer = array s logBuffer ∧
    let s2 := mutate_array l v s1 in
    array s2 l = v ∧
    array s2 logBuffer = array s logBuffer ∧
    exists l' s3,
      getBufferedLogs s2 = (Returned l', s3) ∧
      l' ≠ l ∧ l' ≠ logBuffer ∧
      array s3 l' = array s logBuffer.
Proof.
  intros Halloc. unfold getBufferedLogs, mutate_array.
  set (l := fresh (dom (arrays s))).
  assert (l ∉ dom (arrays s)) as Hfresh by apply is_fresh.
  assert (l ≠ logBuffer) as Hne.
  { intros ->. apply Hfresh. by apply elem_of_dom. }
  eexists _, _. split; [reflexivity|].
  split; [done|]. split; [by apply not_elem_of_dom|].
  split; [apply array_set_array_eq|].
  split; [by apply array_set_array_ne|].
  cbv zeta. split; [apply array_set_array_eq|].
  assert (array (set_array l v (set_array l (array s logBuffer) s)) logBuffer
          = array s logBuffer) as Hbuf.
  { by rewrite !array_set_array_ne. }
  split; [done|].
  set (s2 := set_array l v (set_array l (array s logBuffer) s)) in *.
  set (l' := fresh (dom (arrays s2))).
  assert (l' ∉ dom (arrays s2)) as Hfresh' by apply is_fresh.
  eexists _, _. split; [reflexivity|].
  split; [|split].
  - intros Heq. apply Hfresh'. rewrite Heq. apply elem_of_dom.
    unfold s2. simpl. rewrite lookup_insert_eq. by eexists.
  - intros Heq. apply Hfresh'. rewrite Heq. apply elem_of_dom.
    unfold s2. by do 2 apply is_Some_lookup_set_array.
  - by rewrite array_set_array_eq.
Qed.

Lemma getBufferedLogs_returns_copy_witness :
  exists l s1,
    getBufferedLogs alice_pending = (Returned l, s1) ∧
    l ≠ logBuffer ∧
    arrays alice_pending !! l = None ∧
    array s1 l = array alice_pending logBuffer ∧
    array s1 logBuffer = array alice_pending logBuffer ∧
    let s2 := mutate_array l [] s1 in
    array s2 l = [] ∧
    array s2 logBuffer = array alice_pending logBuffer ∧
    exists l' s3,
      getBufferedLogs s2 = (Returned l', s3) ∧
      l' ≠ l ∧ l' ≠ logBuffer ∧
      array s3 l' = array alice_pending logBuffer.
Proof.
  apply (getBufferedLogs_returns_copy alice_pending []).
  vm_compute. eexists. reflexivity.
Defined.

(** ** Sorting with a comparator *)

Section SortBy.
Context {A : Type} (before : A -> A -> bool).

Lemma insert_by_perm x l : insert_by before x l ≡ₚ x :: l.
Proof.
  induction l as [|y l IH]; simpl; [done|].
  destruct (before x y); [done|].
  rewrite IH. apply perm_swap.
Qed.

Lemma sort_by_perm l : sort_by before l ≡ₚ l.
Proof.
  induction l as [|x l IH]; simpl; [done|].
  by rewrite insert_by_perm, IH.
Qed.

Lemma sort_by_length l : length (sort_by before l) = length l.
Proof. by rewrite sort_by_perm. Qed.

Lemma sort_by_elem_of x l : x ∈ sort_by before l <-> x ∈ l.
Proof. by rewrite sort_by_perm. Qed.

Hypothesis before_total : forall x y, before x y = true \/ before y x = true.
Hypothesis before_trans :
  forall x y z, before x y = true -> before y z = true -> before x z = true.

Lemma insert_by_sorted x l :
  StronglySorted (fun a b => before a b = true) l ->
  StronglySorted (fun a b => before a b = true) (insert_by before x l).
Proof.
  induction 1 as [|y l Hl IH Hy]; simpl.
  - repeat constructor.
  - destruct (before x y) eqn:Hxy.
    + constructor; [by constructor|].
      constructor; [done|].
      eapply Forall_impl; [exact Hy|]. intros z Hz. by eapply before_trans.
    + constructor; [done|].
      assert (before y x = true) as Hyx.
      { destruct (before_total x y); [congruence|done]. }
      apply Forall_forall. intros z Hz.
      rewrite insert_by_perm in Hz. apply elem_of_cons in Hz as [->|Hz]; [done|].
      by apply (proj1 (Forall_forall _ _) Hy).
Qed.

Lemma sort_by_sorted l :
  StronglySorted (fun a b => before a b = true) (sort_by before l).
Proof.
  induction l as [|x l IH]; simpl; [constructor|].
  by apply insert_by_sorted.
Qed.

End SortBy.

(** ** The retention sweep *)

Lemma LOG_RETENTION_MS_value : LOG_RETENTION_MS = 2592000000.
Proof. reflexivity. Qed.

Lemma oldestLog_timestamp logs : forall first,
  timestamp (s_entry (oldestLog first logs)) =
  foldl Z.min (timestamp (s_entry first)) ((fun r => timestamp (s_entry r)) <$> logs).
Proof.
  induction logs as [|x logs IH]; intros first; simpl; [done|].
  unfold oldestLog in *. simpl. rewrite IH. f_equal.
  case_bool_decide; lia.
Qed.

Lemma foldr_min_init (l : list Z) a x :
  foldr Z.min (Z.min a x) l = Z.min x (foldr Z.min a l).
Proof. induction l as [|y l IH]; simpl; [lia|]. rewrite IH. lia. Qed.

Lemma foldl_min_foldr (l : list Z) : forall a, foldl Z.min a l = foldr Z.min a l.
Proof.
  induction l as [|x l IH]; intros a; simpl; [done|].
  by rewrite IH, foldr_min_init.
Qed.

(** The record [reduce] ends on carries the smallest timestamp. *)
Lemma oldestLog_is_minimum first rest :
  timestamp (s_entry (oldestLog first (first :: rest))) = min_timestamp first rest.
Proof.
  rewrite oldestLog_timestamp. simpl. rewrite Z.min_id.
  apply foldl_min_foldr.
Qed.

Lemma min_timestamp_lt first rest c :
  min_timestamp first rest < c <->
  exists r, r ∈ first :: rest ∧ timestamp (s_entry r) < c.
Proof.
  unfold min_timestamp. induction rest as [|x rest IH]; simpl.
  - split.
    + intros H. exists first. split; [left|done].
    + intros (r & Hr & Hlt). apply list_elem_of_singleton in Hr. by subst.
  - rewrite Z.min_lt_iff, IH. split.
    + intros [H|(r & Hr & Hlt)].
      * exists x. split; [right; left|done].
      * exists r. split; [|done].
        apply elem_of_cons in Hr as [->|Hr]; [left|right; by right].
    + intros (r & Hr & Hlt).
      apply elem_of_cons in Hr as [->|Hr].
      * right. exists first. split; [left|done].
      * apply elem_of_cons in Hr as [->|Hr]; [by left|].
        right. exists r. split; [by right|done].
Qed.

Lemma expired_cons c first rest :
  expired c (first :: rest) = true <-> min_timestamp first rest < c.
Proof.
  unfold expired. rewrite bool_decide_eq_true. by rewrite oldestLog_is_minimum.
Qed.

Lemma swept_lookup_None c l : forall m sid,
  m !! sid = None -> swept c l m !! sid = None.
Proof.
  induction l as [|[k logs] l IH]; intros m sid Hm; simpl; [done|].
  apply IH. destruct (expired c logs); [|done].
  simpl. destruct (decide (k = sid)) as [->|Hne].
  - apply lookup_delete_eq.
  - by rewrite lookup_delete_ne.
Qed.

Lemma swept_lookup_expired c l : forall m sid logs,
  (sid, logs) ∈ l -> expired c logs = true -> swept c l m !! sid = None.
Proof.
  induction l as [|[k logs'] l IH]; intros m sid logs Hin Hexp; simpl.
  - by apply elem_of_nil in Hin.
  - apply elem_of_cons in Hin as [Heq|Hin].
    + injection Heq as <- <-. rewrite Hexp. simpl.
      apply swept_lookup_None, lookup_delete_eq.
    + by eapply IH.
Qed.

Lemma swept_lookup_kept c l : forall m sid,
  (forall logs, (sid, logs) ∈ l -> expired c logs = false) ->
  swept c l m !! sid = m !! sid.
Proof.
  induction l as [|[k logs'] l IH]; intros m sid Hall; simpl; [done|].
  rewrite IH.
  - destruct (expired c logs') eqn:Hexp; [|done]. simpl.
    destruct (decide (k = sid)) as [->|Hne].
    + rewrite (Hall logs') in Hexp; [done|left].
    + by rewrite lookup_delete_ne.
  - intros logs Hin. apply Hall. by right.
Qed.

Lemma elem_of_entries {A} (m : gmap string A) k x :
  (k, x) ∈ entries m <-> m !! k = Some x.
Proof. unfold entries. rewrite sort_by_elem_of. apply elem_of_map_to_list. Qed.

Lemma swept_app c l1 l2 m : swept c (l1 ++ l2) m = swept c l2 (swept c l1 m).
Proof. apply foldl_app. Qed.

Lemma swept_none_expired c l : forall m,
  Forall (fun p => expired c p.2 = false) l -> swept c l m = m.
Proof.
  induction l as [|p l IH]; intros m Hall; simpl; [done|].
  inversion Hall as [|? ? Hp Hl]; subst. rewrite Hp. by apply IH.
Qed.

Lemma count_expired_app c l1 l2 :
  count_expired c (l1 ++ l2) = (count_expired c l1 + count_expired c l2)%nat.
Proof. unfold count_expired. by rewrite List.filter_app, length_app. Qed.

Lemma count_expired_none c l :
  Forall (fun p => expired c p.2 = false) l -> count_expired c l = 0%nat.
Proof.
  unfold count_expired. induction 1 as [|p l Hp Hl IH]; simpl; [done|].
  by rewrite Hp.
Qed.

Lemma sessions_of_remove u sid m :
  sessions_of (remote_remove u sid m) u = delete sid (sessions_of m u).
Proof.
  unfold sessions_of, remote_remove. destruct (m !! u) as [sessions|] eqn:Hu; simpl.
  - by rewrite lookup_insert_eq.
  - rewrite Hu. simpl. by rewrite delete_empty.
Qed.

Lemma lookup_remote_remove_ne u v sid m :
  v ≠ u -> remote_remove u sid m !! v = m !! v.
Proof.
  intros Hne. unfold remote_remove. destruct (m !! u); [|done].
  by rewrite lookup_insert_ne.
Qed.

(** A partition without data has no group for the sweep to delete. *)
Lemma absent_partition_not_expired c sessions :
  partition_exists sessions = false ->
  Forall (fun p => expired c p.2 = false) (entries sessions).
Proof.
  intros Hno. apply bool_decide_eq_false in Hno.
  apply Forall_forall. intros [k logs] Hin. apply elem_of_entries in Hin.
  destruct logs as [|first more]; [done|].
  exfalso. apply Hno. by exists k, (first :: more).
Qed.

Section SweepRun.
Variable IS_PRODUCTION : bool.
Variable SESSION_ID : string.
Variable database : bool.

Lemma log_sweeps io lvl cat msg d :
  preserves sweeps (log IS_PRODUCTION SESSION_ID database io lvl cat msg d).
Proof.
  intros s. rewrite log_state. cbv zeta.
  assert (preserves sweeps (saveLogToFirebase IS_PRODUCTION database
            (Entry (now io) SESSION_ID lvl cat msg d (href io) (agent io)))) as ->.
  { unfold saveLogToFirebase, flushLogBatch. frame. }
  by rewrite (saveLogLocally_preserves sweeps).
Qed.

Lemma log_currentUserId io lvl cat msg d :
  preserves currentUserId (log IS_PRODUCTION SESSION_ID database io lvl cat msg d).
Proof.
  intros s. rewrite log_state. cbv zeta.
  assert (preserves currentUserId (saveLogToFirebase IS_PRODUCTION database
            (Entry (now io) SESSION_ID lvl cat msg d (href io) (agent io)))) as ->.
  { unfold saveLogToFirebase, flushLogBatch. frame. }
  by rewrite (saveLogLocally_preserves currentUserId).
Qed.

(** The loop, from any of its iterations, either issues the [remove] of
    the next group it decides to delete, under the actor bound at that
    moment, or goes past the last group and ends the sweep. *)
Lemma sweep_sessions_next io c l : forall n s,
  let r := sweep_sessions IS_PRODUCTION SESSION_ID database io c l n s in
  (exists skipped sid logs rest,
     l = skipped ++ (sid, logs) :: rest ∧
     Forall (fun p => expired c p.2 = false) skipped ∧
     expired c logs = true ∧
     r = (Returned (AwaitRemove (interpolate (currentUserId s)) sid rest c n), s)) ∨
  (Forall (fun p => expired c p.2 = false) l ∧
   r.1 = Returned Swept ∧
   remote r.2 = remote s ∧ currentUserId r.2 = currentUserId s ∧
   sweeps r.2 = sweeps s).
Proof.
  induction l as [|[sid logs] rest IH]; intros n s; simpl.
  - right. split; [constructor|]. unfold bind.
    case_bool_decide; [|done].
    unfold detached. rewrite try_catch_ignore. simpl.
    by rewrite log_remote, log_currentUserId, log_sweeps.
  - assert (expired c logs = false ->
            let r := sweep_sessions IS_PRODUCTION SESSION_ID database io c rest n s in
            (exists skipped sid' logs' rest',
               (sid, logs) :: rest = skipped ++ (sid', logs') :: rest' ∧
               Forall (fun p => expired c p.2 = false) skipped ∧
               expired c logs' = true ∧
               r = (Returned (AwaitRemove (interpolate (currentUserId s)) sid' rest' c n), s)) ∨
            (Forall (fun p => expired c p.2 = false) ((sid, logs) :: rest) ∧
             r.1 = Returned Swept ∧
             remote r.2 = remote s ∧ currentUserId r.2 = currentUserId s ∧
             sweeps r.2 = sweeps s)) as Hskip.
    { intros Hexp.
      destruct (IH n s) as [(skipped & sid' & logs' & rest' & -> & Hsk & Hexp' & Hr)|(Hall & H)].
      - left. exists ((sid, logs) :: skipped), sid', logs', rest'.
        split; [done|]. split; [by constructor|]. done.
      - right. split; [by constructor|done]. }
    destruct logs as [|first more]; [by apply Hskip|].
    change (bool_decide (timestamp (s_entry (oldestLog first (first :: more))) < c))
      with (expired c (first :: more)).
    destruct (expired c (first :: more)) eqn:Hexp; [|by apply Hskip].
    left. exists [], sid, (first :: more), rest.
    split; [done|]. split; [constructor|]. done.
Qed.

Lemma sweep_progress_same u m0 id c k failed failed' s s' :
  currentUserId s' = currentUserId s ->
  remote s' = remote s ->
  sweeps s' !! id = sweeps s !! id ->
  (failed = true -> failed' = true) ->
  sweep_progress u m0 id c k failed s -> sweep_progress u m0 id c k failed' s'.
Proof.
  unfold sweep_progress. intros -> -> -> Hf (Hu & Hother & Hst).
  split; [done|]. split; [done|].
  destruct (sweeps s !! id) as [[| | |]|]; try done.
  destruct Hst as (Hfailed & Hrest). split; [by apply Hf|done].
Qed.


(** *** The steps of a sweep, one [await] at a time *)

Lemma resume_sweep_got id today io s u :
  sweeps s !! id = Some (AwaitGet u) ->
  (resume_sweep IS_PRODUCTION SESSION_ID database id true today io s).2 =
  let sessions := sessions_of (remote s) u in
  if partition_exists sessions
  then
    let r := sweep_sessions IS_PRODUCTION SESSION_ID database io
               (today - LOG_RETENTION_MS) (entries sessions) 0 s in
    match r.1 with
    | Returned w => set_sweep id w r.2
    | Thrown error => (sweep_failed id error r.2).2
    end
  else set_sweep id Swept s.
Proof.
  intros Hid. unfold resume_sweep, bind at 1, gets at 1. rewrite Hid.
  unfold try_catch, bind at 1, ret at 1, bind at 1, gets at 1. cbv zeta.
  destruct (partition_exists (sessions_of (remote s) u)); simpl; [|done].
  unfold bind.
  by destruct (sweep_sessions IS_PRODUCTION SESSION_ID database io
                 (today - LOG_RETENTION_MS) (entries (sessions_of (remote s) u)) 0 s)
    as [[w|error] s1].
Qed.

Lemma resume_sweep_removed id today io s u sid rest c n :
  sweeps s !! id = Some (AwaitRemove u sid rest c n) ->
  (resume_sweep IS_PRODUCTION SESSION_ID database id true today io s).2 =
  let s1 := set_remote (remote_remove u sid (remote s)) s in
  let r := sweep_sessions IS_PRODUCTION SESSION_ID database io c rest (S n) s1 in
  match r.1 with
  | Returned w => set_sweep id w r.2
  | Thrown error => (sweep_failed id error r.2).2
  end.
Proof.
  intros Hid. unfold resume_sweep, bind at 1, gets at 1. rewrite Hid.
  cbv zeta. unfold try_catch, bind, modify.
  by destruct (sweep_sessions IS_PRODUCTION SESSION_ID database io c rest (S n)
                 (set_remote (remote_remove u sid (remote s)) s))
    as [[w|error] s1].
Qed.

(** A failing [get] or [remove] ends the sweep in its [catch] block:
    nothing is removed, the failure goes to the console. *)
Lemma resume_sweep_failed id today io s w :
  sweeps s !! id = Some w ->
  (exists u, w = AwaitGet u) \/ (exists u sid rest c n, w = AwaitRemove u sid rest c n) ->
  exists error,
    (resume_sweep IS_PRODUCTION SESSION_ID database id false today io s).2 =
    set_sweep id Stopped
      (set_console
         (console s ++ [ConsoleError "Failed to cleanup old Firebase logs:" error]) s).
Proof.
  intros Hid [(u & ->)|(u & sid & rest & c & n & ->)];
    unfold resume_sweep, bind at 1, gets at 1; rewrite Hid.
  - by exists "get failed".
  - by exists "remove failed".
Qed.

Lemma resume_sweep_finished id ok today io s :
  sweeps s !! id = Some Swept \/ sweeps s !! id = Some Stopped \/ sweeps s !! id = None ->
  (resume_sweep IS_PRODUCTION SESSION_ID database id ok today io s).2 = s.
Proof.
  intros H. unfold resume_sweep, bind at 1, gets at 1.
  by destruct H as [->|[->| ->]].
Qed.

Lemma lookup_set_sweep id w s :
  is_Some (sweeps s !! id) -> sweeps (set_sweep id w s) !! id = Some w.
Proof.
  intros Hid. unfold set_sweep. simpl.
  apply list_lookup_insert_eq. by apply lookup_lt_is_Some.
Qed.

(** One settled [await] of an undisturbed sweep. *)
Lemma sweep_settle_step u m0 id today k failed s ok io :
  sweep_progress u m0 id (today - LOG_RETENTION_MS) k failed s ->
  sweep_progress u m0 id (today - LOG_RETENTION_MS) (S k) (failed || negb ok)
    (resume_sweep IS_PRODUCTION SESSION_ID database id ok today io s).2.
Proof.
  set (c := today - LOG_RETENTION_MS). unfold sweep_progress.
  set (orig := sessions_of m0 u). cbv zeta.
  intros (Hu & Hother & Hst).
  destruct (sweeps s !! id) as [w|] eqn:Hid; [|done].
  assert (is_Some (sweeps s !! id)) as Hsome by (by rewrite Hid).
  destruct w as [u'|u' sid rest c' n| |].
  - (* the [get] settles *)
    destruct Hst as (-> & -> & Horig).
    destruct ok.
    + rewrite (resume_sweep_got _ _ _ _ _ Hid). cbv zeta. rewrite Horig. fold c.
      destruct (partition_exists orig) eqn:Hex.
      * destruct (sweep_sessions_next io c (entries orig) 0 s)
          as [(skipped & sid & logs & rest & HL & Hsk & Hexp & Hr)|
              (Hall & Hret & Hrem & Hcur & Hsw)].
        -- rewrite Hr. simpl. split; [done|]. split; [done|].
           rewrite list_lookup_insert_eq by (by apply lookup_lt_is_Some).
           rewrite Hu. simpl. split; [done|]. split; [done|].
           exists skipped, logs. split; [done|]. split; [done|].
           rewrite swept_none_expired by done. split; [done|].
           by rewrite count_expired_none.
        -- destruct (sweep_sessions IS_PRODUCTION SESSION_ID database io c (entries orig) 0 s)
             as [[w|error] s1]; simpl in *; [|done].
           injection Hret as ->. rewrite Hcur, Hrem, Hsw.
           split; [done|]. split; [done|].
           rewrite list_lookup_insert_eq by (by apply lookup_lt_is_Some).
           by rewrite swept_none_expired.
      * simpl. split; [done|]. split; [done|].
        rewrite list_lookup_insert_eq by (by apply lookup_lt_is_Some).
        rewrite swept_none_expired; [done|]. by apply absent_partition_not_expired.
    + destruct (resume_sweep_failed id today io s _ Hid) as (error & ->);
        [left; by eexists|].
      simpl. split; [done|]. split; [done|].
      rewrite list_lookup_insert_eq by (by apply lookup_lt_is_Some).
      split; [by rewrite orb_true_r|].
      by exists [], (entries orig).
  - (* a [remove] settles *)
    destruct Hst as (-> & -> & done & logs & HL & Hexp & Hrem & -> & ->).
    destruct ok.
    + rewrite (resume_sweep_removed _ _ _ _ _ _ _ _ _ Hid). cbv zeta.
      set (s1 := set_remote (remote_remove u sid (remote s)) s).
      assert (sessions_of (remote s1) u = swept c (done ++ [(sid, logs)]) orig) as Hrem1.
      { unfold s1. simpl. rewrite sessions_of_remove, Hrem, swept_app. simpl.
        by rewrite Hexp. }
      assert (forall v, v ≠ u -> remote s1 !! v = m0 !! v) as Hother1.
      { intros v Hv. unfold s1. simpl. rewrite lookup_remote_remove_ne by done.
        by apply Hother. }
      assert (count_expired c (done ++ [(sid, logs)]) = S (count_expired c done)) as Hcount.
      { rewrite count_expired_app. unfold count_expired at 2. simpl. rewrite Hexp.
        simpl. lia. }
      destruct (sweep_sessions_next io c rest (S (count_expired c done)) s1)
        as [(skipped & sid' & logs' & rest' & Hrest & Hsk & Hexp' & Hr)|
            (Hall & Hret & Hrem' & Hcur & Hsw)].
      * rewrite Hr. simpl. split; [done|]. split; [exact Hother1|].
        rewrite list_lookup_insert_eq by (by apply lookup_lt_is_Some).
        rewrite Hu. simpl. split; [done|]. split; [done|].
        exists ((done ++ [(sid, logs)]) ++ skipped), logs'.
        split; [rewrite HL, Hrest; by rewrite <- !app_assoc|].
        split; [done|].
        split; [rewrite swept_app, swept_none_expired by done; exact Hrem1|].
        rewrite count_expired_app, Hcount, (count_expired_none _ skipped) by done.
        split; lia.
      * destruct (sweep_sessions IS_PRODUCTION SESSION_ID database io c rest
                    (S (count_expired c done)) s1)
          as [[w|error] s2]; simpl in Hret, Hrem', Hcur, Hsw |- *; [|done].
        injection Hret as ->. simpl. rewrite Hcur, Hrem', Hsw.
        split; [done|]. split; [exact Hother1|].
        rewrite list_lookup_insert_eq by (by apply lookup_lt_is_Some).
        change (sessions_of (remote s1) u = swept c (entries orig) orig).
        rewrite Hrem1, HL.
        replace (done ++ (sid, logs) :: rest) with ((done ++ [(sid, logs)]) ++ rest)
          by (by rewrite <- app_assoc).
        by rewrite (swept_app _ (done ++ [(sid, logs)]) rest), (swept_none_expired _ rest).
    + destruct (resume_sweep_failed id today io s _ Hid) as (error & ->);
        [right; by eexists _, _, _, _, _|].
      simpl. split; [done|]. split; [done|].
      rewrite list_lookup_insert_eq by (by apply lookup_lt_is_Some).
      split; [by rewrite orb_true_r|].
      by exists done, ((sid, logs) :: rest).
  - rewrite resume_sweep_finished by (by left).
    rewrite Hid. done.
  - rewrite resume_sweep_finished by (right; by left).
    rewrite Hid. destruct Hst as (-> & Hst). done.
Qed.


(** *** A whole sweep, with what may happen in between *)

Lemma flushLogBatch_sweeps : preserves sweeps (flushLogBatch database).
Proof. unfold flushLogBatch. frame. Qed.

Lemma flushLogBatch_currentUserId : preserves currentUserId (flushLogBatch database).
Proof. unfold flushLogBatch. frame. Qed.

Lemma bound_Some cur u : bound cur = Some u -> cur = Some u.
Proof.
  destruct cur as [x|]; simpl; [|done].
  destruct (decide (x = "")); congruence.
Qed.

Lemma cleanupOldFirebaseLogs_started s u :
  bound (currentUserId s) = Some u -> database = true ->
  (cleanupOldFirebaseLogs database s).2 = set_sweeps (sweeps s ++ [AwaitGet u]) s.
Proof.
  intros Hu ->. unfold cleanupOldFirebaseLogs, bind, gets. by rewrite Hu.
Qed.

Lemma cleanupOldFirebaseLogs_lookup s id :
  is_Some (sweeps s !! id) ->
  sweeps (cleanupOldFirebaseLogs database s).2 !! id = sweeps s !! id.
Proof.
  intros Hid. unfold cleanupOldFirebaseLogs, bind, gets.
  destruct (bound (currentUserId s)) as [u|]; [|done].
  destruct (negb database); [done|]. simpl.
  apply lookup_app_l. by apply lookup_lt_is_Some.
Qed.

Lemma sweep_progress_is_Some u m0 id c k failed s :
  sweep_progress u m0 id c k failed s -> is_Some (sweeps s !! id).
Proof.
  intros (_ & _ & Hst). by destruct (sweeps s !! id).
Qed.

Lemma sweep_step u m0 id today k failed s ev :
  sweep_progress u m0 id (today - LOG_RETENTION_MS) k failed s ->
  undisturbed id today ev = true ->
  sweep_progress u m0 id (today - LOG_RETENTION_MS)
    (k + (if settles id ev then 1 else 0)) (failed || fails ev)
    (step IS_PRODUCTION SESSION_ID database s ev).
Proof.
  intros Hp Hev. unfold step.
  destruct ev as [io lvl cat msg d|io u'| |fid r| |id' ok today' io|l];
    simpl in Hev |- *; try done.
  - rewrite Nat.add_0_r, orb_false_r.
    eapply sweep_progress_same; [| | |done|exact Hp].
    + apply log_currentUserId.
    + apply log_remote.
    + by rewrite log_sweeps.
  - rewrite Nat.add_0_r, orb_false_r.
    eapply sweep_progress_same; [| | |done|exact Hp].
    + apply flushLogBatch_currentUserId.
    + apply flushLogBatch_remote.
    + by rewrite flushLogBatch_sweeps.
  - destruct r as [ts|err]; [done|].
    rewrite Nat.add_0_r, orb_false_r.
    eapply sweep_progress_same; [| | |done|exact Hp].
    + revert s Hp. unfold resume_flush, await_push, console_error. intros s _.
      revert s. frame.
    + revert s Hp. unfold resume_flush, await_push, console_error. intros s _.
      revert s. frame.
    + f_equal. revert s Hp. unfold resume_flush, await_push, console_error. intros s _.
      revert s. frame.
  - rewrite Nat.add_0_r, orb_false_r.
    eapply sweep_progress_same; [| | |done|exact Hp].
    + by apply cleanupOldFirebaseLogs_preserves.
    + by apply cleanupOldFirebaseLogs_preserves.
    + apply cleanupOldFirebaseLogs_lookup. by eapply sweep_progress_is_Some.
  - apply andb_true_iff in Hev as [Hid Htoday].
    apply bool_decide_eq_true in Hid, Htoday. subst id' today'.
    rewrite bool_decide_eq_true_2 by done.
    replace (k + 1)%nat with (S k) by lia.
    destruct ok; by apply sweep_settle_step.
  - rewrite Nat.add_0_r, orb_false_r.
    by eapply sweep_progress_same; [| | |done|exact Hp].
Qed.

Lemma sweep_run u m0 id today evs : forall k failed s,
  sweep_progress u m0 id (today - LOG_RETENTION_MS) k failed s ->
  Forall (fun ev => undisturbed id today ev = true) evs ->
  sweep_progress u m0 id (today - LOG_RETENTION_MS)
    (k + length (List.filter (settles id) evs)) (failed || existsb fails evs)
    (run IS_PRODUCTION SESSION_ID database s evs).
Proof.
  induction evs as [|ev evs IH]; intros k failed s Hp Hevs.
  - simpl. by rewrite Nat.add_0_r, orb_false_r.
  - inversion Hevs as [|? ? Hev Hrest]; subst.
    pose proof (IH _ _ _ (sweep_step _ _ _ _ _ _ _ _ Hp Hev) Hrest) as Hp'.
    simpl. rewrite orb_assoc.
    replace (k + length (if settles id ev then ev :: List.filter (settles id) evs
                         else List.filter (settles id) evs))%nat
      with (k + (if settles id ev then 1 else 0)
            + length (List.filter (settles id) evs))%nat; [exact Hp'|].
    destruct (settles id ev); simpl; lia.
Qed.

Lemma sweep_start u s :
  bound (currentUserId s) = Some u -> database = true ->
  forall c, sweep_progress u (remote s) (length (sweeps s)) c 0 false
              (step IS_PRODUCTION SESSION_ID database s EvCleanup).
Proof.
  intros Hu Hdb c. unfold step. simpl.
  rewrite (cleanupOldFirebaseLogs_started s u) by done.
  unfold sweep_progress. simpl.
  split; [by apply bound_Some|]. split; [done|].
  by rewrite lookup_app_r, Nat.sub_diag.
Qed.

(** What a sweep has done to the partition of its actor, wherever it
    stands: the groups it decided to delete among those it went past are
    gone, the others are as they were. *)
Lemma sweep_progress_partition u m0 id c k failed s :
  sweep_progress u m0 id c k failed s ->
  exists done rest,
    entries (sessions_of m0 u) = done ++ rest ∧
    sessions_of (remote s) u = swept c done (sessions_of m0 u).
Proof.
  intros (_ & _ & Hst).
  destruct (sweeps s !! id) as [[u'|u' sid rest c' n| |]|]; [| | | |done].
  - destruct Hst as (_ & _ & Hrem). by exists [], (entries (sessions_of m0 u)).
  - destruct Hst as (_ & _ & done & logs & HL & _ & Hrem & _).
    by exists done, ((sid, logs) :: rest).
  - exists (entries (sessions_of m0 u)), []. by rewrite app_nil_r.
  - destruct Hst as (_ & done & rest & HL & Hrem). by exists done, rest.
Qed.

(** An undisturbed sweep whose remote operations succeed has ended once
    there were more settlements than groups to delete. *)
Lemma sweep_progress_ended u m0 id c k s :
  sweep_progress u m0 id c k false s ->
  (count_expired c (entries (sessions_of m0 u)) < k)%nat ->
  sweeps s !! id = Some Swept.
Proof.
  intros (_ & _ & Hst) Hk.
  destruct (sweeps s !! id) as [[u'|u' sid rest c' n| |]|]; [| |done| |done].
  - destruct Hst as (_ & -> & _). lia.
  - destruct Hst as (_ & _ & done & logs & HL & Hexp & _ & -> & ->).
    rewrite HL, count_expired_app in Hk. unfold count_expired at 2 in Hk.
    simpl in Hk. rewrite Hexp in Hk. simpl in Hk. lia.
  - by destruct Hst as (? & _).
Qed.

Lemma sweep_progress_swept u m0 id c k failed s :
  sweep_progress u m0 id c k failed s ->
  sweeps s !! id = Some Swept ->
  sessions_of (remote s) u = swept c (entries (sessions_of m0 u)) (sessions_of m0 u).
Proof. intros (_ & _ & Hst) Hid. by rewrite Hid in Hst. Qed.

End SweepRun.

(** C5 (as the code has it).  Take a sweep started for a bound actor and
    left undisturbed: while it runs nothing binds another actor or writes
    to the remote store, and its [get] and its removes succeed.  It has
    run to its end once more of its [await]s have settled than there were
    groups to delete, and then a non-empty session group is deleted, as a
    whole, if and only if the smallest timestamp among its records is
    strictly below [now - 30 days], that is, if and only if some record
    of the group is older than the cut-off; a group is retained, in full,
    if and only if every one of its records is at or after the cut-off. *)
Theorem sweep_deletes_session_iff_oldest_expired (IS_PRODUCTION : bool)
    (SESSION_ID : string) (s : pipeline) (u : string)
    (sessions : gmap string (list stored)) (today : Z) (evs : list event)
    (sid : string) (first : stored) (rest : list stored) :
  bound (currentUserId s) = Some u ->
  remote s !! u = Some sessions ->
  sessions !! sid = Some (first :: rest) ->
  let id := length (sweeps s) in
  Forall (fun ev => undisturbed id today ev = true ∧ fails ev = false) evs ->
  let cutoffTime := today - 30 * 24 * 60 * 60 * 1000 in
  let s' := run IS_PRODUCTION SESSION_ID true s (EvCleanup :: evs) in
  let after := sessions_of (remote s') u !! sid in
  ((count_expired cutoffTime (entries sessions)
      < length (List.filter (settles id) evs))%nat ->
   sweeps s' !! id = Some Swept) ∧
  (sweeps s' !! id = Some Swept ->
   (after = None <-> min_timestamp first rest < cutoffTime) ∧
   (after = None <-> exists r, r ∈ first :: rest ∧ timestamp (s_entry r) < cutoffTime) ∧
   (after = Some (first :: rest) <->
      forall r, r ∈ first :: rest -> cutoffTime <= timestamp (s_entry r)) ∧
   (after = None \/ after = Some (first :: rest))).
Proof.
  intros Hu Hs Hsid id Hevs cutoffTime s' after.
  assert (Forall (fun ev => undisturbed id today ev = true) evs) as Hund.
  { eapply Forall_impl; [exact Hevs|]. by intros ev [? _]. }
  assert (existsb fails evs = false) as Hok.
  { clear -Hevs. induction Hevs as [|ev evs [_ Hev] _ IH]; simpl; [done|].
    by rewrite Hev, IH. }
  assert (sessions_of (remote s) u = sessions) as Horig.
  { unfold sessions_of. by rewrite Hs. }
  pose proof (sweep_run IS_PRODUCTION SESSION_ID true u (remote s) id today evs _ _ _
                (sweep_start IS_PRODUCTION SESSION_ID true u s Hu eq_refl _) Hund) as Hp.
  rewrite Hok in Hp. simpl in Hp.
  change (run IS_PRODUCTION SESSION_ID true
            (step IS_PRODUCTION SESSION_ID true s EvCleanup) evs) with s' in Hp.
  change (today - LOG_RETENTION_MS) with cutoffTime in Hp.
  split.
  { intros Hcount. eapply sweep_progress_ended; [exact Hp|]. by rewrite Horig. }
  intros Hswept.
  assert (after = swept cutoffTime (entries sessions) sessions !! sid) as Hafter.
  { unfold after. rewrite (sweep_progress_swept _ _ _ _ _ _ _ Hp Hswept).
    by rewrite Horig. }
  assert (min_timestamp first rest < cutoffTime -> after = None) as Hdel.
  { intros Hlt. rewrite Hafter.
    apply (swept_lookup_expired _ _ _ _ (first :: rest)).
    - by apply elem_of_entries.
    - by apply expired_cons. }
  assert (~ min_timestamp first rest < cutoffTime -> after = Some (first :: rest)) as Hkeep.
  { intros Hge. rewrite Hafter, swept_lookup_kept; [done|].
    intros logs Hin. apply elem_of_entries in Hin.
    rewrite Hsid in Hin. injection Hin as <-.
    apply not_true_is_false. by rewrite expired_cons. }
  assert (after = None <-> min_timestamp first rest < cutoffTime) as Hiff.
  { split; [|done]. intros Hnone.
    destruct (decide (min_timestamp first rest < cutoffTime)) as [|Hge]; [done|].
    rewrite (Hkeep Hge) in Hnone. done. }
  split; [done|]. split; [by rewrite Hiff, min_timestamp_lt|].
  split.
  - split.
    + intros Hsome r Hr.
      destruct (decide (timestamp (s_entry r) < cutoffTime)) as [Hlt|]; [|lia].
      assert (after = None) as Hnone.
      { apply Hdel, min_timestamp_lt. by exists r. }
      rewrite Hnone in Hsome. done.
    + intros Hall. apply Hkeep. rewrite min_timestamp_lt.
      intros (r & Hr & Hlt). specialize (Hall r Hr). lia.
  - destruct (decide (min_timestamp first rest < cutoffTime)); [left|right]; auto.
Qed.

Lemma sweep_deletes_session_iff_oldest_expired_witness :
  let s' := run false "S" true long_session_state
              [EvCleanup;
               EvSweepSettle 0 true 3000000000 (io_at 3000000000);
               EvLog (io_at 3000000001) LOG_LEVELS.INFO "App" "a" "";
               EvSweepSettle 0 true 3000000000 (io_at 3000000002)] in
  sweeps s' !! 0%nat = Some Swept ∧
  (sessions_of (remote s') "alice" !! "S" = None
   <-> min_timestamp
         (Stored (Entry 0 "S" "info" "App" "Application started" "" "" "") 1)
         [Stored (Entry 3000000000 "S" "warn" "Network" "Browser offline event" "" "" "")
            3000000001]
       < 3000000000 - 30 * 24 * 60 * 60 * 1000).
Proof.
  destruct (sweep_deletes_session_iff_oldest_expired false "S" long_session_state
              "alice" (<["S" := long_session]> ∅) 3000000000
              [EvSweepSettle 0 true 3000000000 (io_at 3000000000);
               EvLog (io_at 3000000001) LOG_LEVELS.INFO "App" "a" "";
               EvSweepSettle 0 true 3000000000 (io_at 3000000002)]
              "S"
              (Stored (Entry 0 "S" "info" "App" "Application started" "" "" "") 1)
              [Stored (Entry 3000000000 "S" "warn" "Network" "Browser offline event" "" "" "")
                 3000000001])
    as (Hended & Hiff).
  - reflexivity.
  - reflexivity.
  - reflexivity.
  - repeat constructor.
  - assert (sweeps (run false "S" true long_session_state
              [EvCleanup;
               EvSweepSettle 0 true 3000000000 (io_at 3000000000);
               EvLog (io_at 3000000001) LOG_LEVELS.INFO "App" "a" "";
               EvSweepSettle 0 true 3000000000 (io_at 3000000002)]) !! 0%nat
            = Some Swept) as Hswept.
    { apply Hended. vm_compute. lia. }
    split; [exact Hswept|]. exact (proj1 (Hiff Hswept)).
Defined.

(** C5 as stated fails in its second half: a session group holding a
    record at the very moment of the sweep, and so after the cut-off, is
    deleted as a whole because its first record is older than the cut-off. *)
Lemma session_with_recent_record_is_deleted :
  let today := 3000000000 in
  let cutoffTime := today - LOG_RETENTION_MS in
  let s' := run false "S" true long_session_state
              [EvCleanup;
               EvSweepSettle 0 true today (io_at today);
               EvSweepSettle 0 true today (io_at today)] in
  sessions_of (remote long_session_state) "alice" !! "S" = Some long_session ∧
  (exists r, r ∈ long_session ∧ cutoffTime <= timestamp (s_entry r)) ∧
  sweeps s' !! 0%nat = Some Swept ∧
  sessions_of (remote s') "alice" !! "S" = None.
Proof.
  split; [reflexivity|]. split.
  - eexists. split; [right; left|]. by vm_compute.
  - by vm_compute.
Qed.

(** Why the binding must stay as it is while a sweep runs: the path of a
    [remove] is built from [currentUserId] when the [remove] is issued.
    With "bob" bound while the sweep of "alice" waits for its [get], the
    group "S" is removed from the partition of "bob", where its only
    record is recent, and the expired group of "alice" stays. *)
Lemma rebinding_redirects_the_removes :
  let today := 3000000000 in
  let recent := Stored (Entry today "S" LOG_LEVELS.INFO "App" "b" "" "" "") today in
  let s := set_remote (<["bob" := <["S" := [recent]]> ∅]> (remote long_session_state))
             long_session_state in
  let s' := run false "S" true s
              [EvCleanup;
               EvSetUserId (io_at today) (Some "bob");
               EvSweepSettle 0 true today (io_at today);
               EvSweepSettle 0 true today (io_at today)] in
  sweeps s' !! 0%nat = Some Swept ∧
  sessions_of (remote s') "alice" !! "S" = Some long_session ∧
  sessions_of (remote s) "bob" !! "S" = Some [recent] ∧
  sessions_of (remote s') "bob" !! "S" = None.
Proof. by vm_compute. Qed.

(** ** The aggregation pass *)

Section Aggregation.
Import LogAnalytics.

#[local] Arguments size : simpl never.
#[local] Arguments union : simpl never.
#[local] Arguments singleton : simpl never.

Lemma size_of_same_set (X Y : gset string) (n : nat) :
  size Y = n -> X = Y -> size X = n.
Proof. by intros H ->. Qed.

Ltac same_users :=
  apply set_eq; intros ?;
  rewrite ?elem_of_union, ?elem_of_singleton, ?elem_of_empty; tauto.

(** C7.  For a window made of exactly three [warn] records with category
    "Auth" and message "x", coming from two distinct actors, and one
    [error] record with category "Net" and message "y", in any order and
    with any timestamps: the first of the common issues is the group
    (Auth, "x") with count 3 and 2 affected actors, and the (Net, "y")
    record is among the recent errors. *)
Theorem aggregate_example (r1 r2 r3 r4 : record) (logs : list record) :
  (forall r, r ∈ [r1; r2; r3] ->
     level r = "warn" ∧ category r = "Auth" ∧ message r = "x") ->
  level r4 = "error" ∧ category r4 = "Net" ∧ message r4 = "y" ->
  size ({[userId r1; userId r2; userId r3]} : gset string) = 2%nat ->
  logs ≡ₚ [r1; r2; r3; r4] ->
  exists top others,
    commonIssues (analyzeeLogs logs) = top :: others ∧
    i_category top = "Auth" ∧ i_message top = "x" ∧
    i_count top = 3%nat ∧ i_affectedUsers top = 2%nat ∧
    r4 ∈ recentErrors (analyzeeLogs logs).
Proof.
  intros H123 (Hl4 & Hc4 & Hm4) Husers Hperm.
  destruct (H123 r1) as (Hl1 & Hc1 & Hm1); [by left|].
  destruct (H123 r2) as (Hl2 & Hc2 & Hm2); [by right; left|].
  destruct (H123 r3) as (Hl3 & Hc3 & Hm3); [by right; right; left|].
  clear H123.
  destruct r1 as [u1 s1 i1 t1 l1 c1 m1 d1], r2 as [u2 s2 i2 t2 l2 c2 m2 d2],
    r3 as [u3 s3 i3 t3 l3 c3 m3 d3], r4 as [u4 s4 i4 t4 l4 c4 m4 d4].
  simpl in *. subst.
  symmetry in Hperm. apply permutations_Permutation in Hperm.
  vm_compute in Hperm.
  repeat (apply elem_of_cons in Hperm as [->|Hperm]);
    [..|by apply elem_of_nil in Hperm];
    (eexists _, _; unfold analyzeeLogs; simpl;
     split; [reflexivity|]; simpl;
     split; [done|]; split; [done|]; split; [done|];
     split; [apply (size_of_same_set _ _ _ Husers); same_users|by left]).
Qed.

Lemma aggregate_example_witness :
  exists top others,
    commonIssues (analyzeeLogs example_window) = top :: others ∧
    i_category top = "Auth" ∧ i_message top = "x" ∧
    i_count top = 3%nat ∧ i_affectedUsers top = 2%nat ∧
    Record_ "u2" "s2" "l2" 30 "error" "Net" "y" "" ∈ recentErrors (analyzeeLogs example_window).
Proof.
  apply (aggregate_example
           (Record_ "u1" "s1" "l1" 40 "warn" "Auth" "x" "")
           (Record_ "u2" "s2" "l3" 20 "warn" "Auth" "x" "")
           (Record_ "u1" "s1" "l4" 10 "warn" "Auth" "x" "")
           (Record_ "u2" "s2" "l2" 30 "error" "Net" "y" "")).
  - intros r Hr. apply list_elem_of_In in Hr. simpl in Hr.
    destruct Hr as [<-|[<-|[<-|[]]]]; done.
  - done.
  - by vm_compute.
  - unfold example_window.
    apply perm_skip. eapply Permutation_trans; [apply perm_swap|].
    apply perm_skip, perm_swap.
Defined.

Lemma length_filter_decide {A} (f : A -> bool) (P : A -> Prop)
    `{forall x, Decision (P x)} (l : list A) :
  (forall x, f x = true <-> P x) ->
  length (List.filter f l) = length (filter P l).
Proof.
  intros Hf. induction l as [|x l IH]; [done|].
  simpl. rewrite filter_cons.
  destruct (f x) eqn:Hfx; destruct (decide (P x)) as [HP|HP]; simpl.
  - by rewrite IH.
  - apply Hf in Hfx. done.
  - apply Hf in HP. congruence.
  - done.
Qed.

Lemma is_issue_spec (l : record) :
  String.eqb (level l) "error" || String.eqb (level l) "warn" = true <->
  level l = "error" \/ level l = "warn".
Proof. by rewrite orb_true_iff, !String.eqb_eq. Qed.

(** C8 (as the code has it).  The authentication counter counts the
    [warn] and [error] records whose category is exactly "Auth", the
    network counter those whose category is exactly "Network", and the
    synchronisation counter those whose category is exactly "Sync" or
    exactly "Firebase". *)
Theorem category_counters (logs : list record) :
  let st := a_stats (analyzeeLogs logs) in
  authIssues st =
    length (filter (fun l => category l = "Auth" ∧
                             (level l = "error" \/ level l = "warn")) logs) ∧
  networkIssues st =
    length (filter (fun l => category l = "Network" ∧
                             (level l = "error" \/ level l = "warn")) logs) ∧
  syncIssues st =
    length (filter (fun l => (category l = "Sync" \/ category l = "Firebase") ∧
                             (level l = "error" \/ level l = "warn")) logs).
Proof.
  cbv zeta. unfold analyzeeLogs. simpl.
  split; [|split]; apply length_filter_decide; intros l.
  - by rewrite andb_true_iff, String.eqb_eq, is_issue_spec.
  - by rewrite andb_true_iff, String.eqb_eq, is_issue_spec.
  - by rewrite andb_true_iff, orb_true_iff, !String.eqb_eq, is_issue_spec.
Qed.

(** The match is on the exact string: other spellings are not counted. *)
Lemma category_match_is_case_sensitive :
  authIssues (a_stats (analyzeeLogs
    [Record_ "u" "s" "l" 1 "error" "auth" "m" "";
     Record_ "u" "s" "l" 2 "error" "AUTH" "m" "";
     Record_ "u" "s" "l" 3 "error" "Authentication" "m" "";
     Record_ "u" "s" "l" 4 "error" "Auth" "m" ""])) = 1%nat.
Proof. reflexivity. Qed.

(** C8 as stated fails for the synchronisation counter: on a window with
    one "Sync" issue and one "Firebase" issue it reads 2, which the count
    of the issue records of no single category name gives. *)
Lemma sync_counter_counts_two_categories :
  syncIssues (a_stats (analyzeeLogs sync_window)) = 2%nat ∧
  forall name : string,
    length (filter (fun l => category l = name ∧
                             (level l = "error" \/ level l = "warn")) sync_window)
    ≠ syncIssues (a_stats (analyzeeLogs sync_window)).
Proof.
  split; [reflexivity|]. intros name.
  change (syncIssues (a_stats (analyzeeLogs sync_window))) with 2%nat.
  unfold sync_window. rewrite !filter_cons, filter_nil.
  repeat case_decide; simpl in *; try lia.
  destruct_and!. congruence.
Qed.

End Aggregation.

(** ** The ring buffer array exists in every reachable state *)

Lemma maintains_forEach {A} (I : pipeline -> Prop) (l : list A) (f : A -> js unit) :
  (forall x, maintains I (f x)) -> maintains I (forEach l f).
Proof.
  intros Hf. induction l as [|x l IH]; simpl.
  - apply maintains_ret.
  - apply maintains_bind; [apply Hf | intros _; apply IH].
Qed.

Ltac maintain_step :=
  first
  [ apply maintains_ret | apply maintains_throw | apply maintains_gets
  | apply maintains_bind; [|intros ?]
  | apply maintains_try_catch; [|intros ?]
  | apply maintains_forEach; intros ?
  | apply maintains_modify; intros ? ?; repeat case_bool_decide;
    first [assumption | by apply is_Some_lookup_set_array]
  | match goal with
    | |- maintains _ (if ?b then _ else _) => destruct b
    | |- maintains _ (match ?x with _ => _ end) => destruct x
    end ].
Ltac maintain := repeat maintain_step.

Section Allocation.
Variable IS_PRODUCTION : bool.
Variable SESSION_ID : string.
Variable database : bool.

Lemma saveLogLocally_allocated io e : maintains logBuffer_allocated (saveLogLocally io e).
Proof.
  intros s Hs. rewrite saveLogLocally_eq. unfold store_add.
  destruct (logDB s), (open_ok io), (add_ok io); exact Hs.
Qed.

Lemma log_allocated io lvl cat msg d :
  maintains logBuffer_allocated (log IS_PRODUCTION SESSION_ID database io lvl cat msg d).
Proof.
  unfold log.
  apply maintains_bind; [maintain|intros _].
  apply maintains_bind; [maintain|intros _].
  apply maintains_bind; [maintain|intros ls].
  apply maintains_bind.
  { apply maintains_forEach. intros l.
    apply maintains_try_catch; [by intros s Hs|maintain]. }
  intros _. apply maintains_bind; [unfold console_log; maintain|intros _].
  apply maintains_bind.
  { apply maintains_try_catch; [apply saveLogLocally_allocated|maintain]. }
  intros _. apply maintains_try_catch; [|maintain].
  unfold saveLogToFirebase, flushLogBatch. maintain.
Qed.

Lemma step_allocated s ev :
  logBuffer_allocated s ->
  logBuffer_allocated (step IS_PRODUCTION SESSION_ID database s ev).
Proof.
  revert s. change (maintains logBuffer_allocated (handle IS_PRODUCTION SESSION_ID database ev)).
  destruct ev as [io lvl cat msg d|io u| |id r| |id ok today io|l]; simpl.
  - apply log_allocated.
  - unfold setUserId, detached.
    apply maintains_bind; [maintain|intros _].
    apply maintains_try_catch; [apply log_allocated|maintain].
  - unfold flushLogBatch. maintain.
  - unfold resume_flush, await_push, console_error. maintain.
  - by apply cleanupOldFirebaseLogs_maintains.
  - apply resume_sweep_maintains; try done.
    + intros io' msg d. apply log_allocated.
    + intros what err. unfold console_error. maintain.
  - unfold subscribe. maintain.
Qed.

(** The hypothesis of C10 holds in every state the pipeline can reach. *)
Lemma run_allocated evs : forall s,
  logBuffer_allocated s ->
  logBuffer_allocated (run IS_PRODUCTION SESSION_ID database s evs).
Proof.
  induction evs as [|ev evs IH]; intros s Hs; simpl; [done|].
  apply IH. by apply step_allocated.
Qed.

Lemma initial_allocated : logBuffer_allocated initial.
Proof. by eexists. Qed.

End Allocation.

(** ** Flushes under way always have a pending push *)

Lemma maintains_flights_wf {A} (m : js A) :
  preserves flights m -> maintains flights_wf m.
Proof. intros H s Hs. unfold flights_wf. by rewrite H. Qed.

Section FlightInvariant.
Variable IS_PRODUCTION : bool.
Variable SESSION_ID : string.
Variable database : bool.

Lemma flushLogBatch_wf : maintains flights_wf (flushLogBatch database).
Proof.
  intros s Hs. rewrite flushLogBatch_eq. cbv zeta. unfold snd.
  destruct (bound (currentUserId s)) as [u|]; [|done].
  destruct (bool_decide (length (array s logBatch) = 0%nat)) eqn:Hlen; [done|].
  destruct (negb database); [done|]. simpl.
  apply Forall_app. split; [done|].
  constructor; [|constructor]. intros _. simpl.
  apply bool_decide_eq_false in Hlen. lia.
Qed.

Lemma resume_flush_wf id r : maintains flights_wf (resume_flush SESSION_ID id r).
Proof.
  intros s Hs. unfold resume_flush, bind at 1, gets at 1.
  destruct (flights s !! id) as [f|] eqn:Hid; [|done].
  destruct (f_status f) eqn:Hst; try done.
  destruct (f_logsToSend f !! f_next f) as [e|] eqn:He; [|done].
  destruct r as [ts|err]; unfold try_catch, await_push, bind, modify, throw, console_error;
    simpl; apply Forall_insert; try done; simpl.
  case_bool_decide; done.
Qed.

Lemma saveLogToFirebase_wf e :
  maintains flights_wf (saveLogToFirebase IS_PRODUCTION database e).
Proof.
  intros s Hs. rewrite saveLogToFirebase_eq.
  destruct (bound (currentUserId s)); [|done].
  destruct (negb database); [done|].
  destruct (_ && _); [done|]. cbv zeta.
  destruct (bool_decide (MAX_BATCH_SIZE <= _)%nat); [|done].
  by apply flushLogBatch_wf.
Qed.

Lemma log_wf io lvl cat msg d :
  maintains flights_wf (log IS_PRODUCTION SESSION_ID database io lvl cat msg d).
Proof.
  intros s Hs. rewrite log_state. cbv zeta.
  apply saveLogToFirebase_wf. unfold flights_wf.
  by rewrite (saveLogLocally_preserves flights).
Qed.

Lemma step_wf s ev :
  flights_wf s -> flights_wf (step IS_PRODUCTION SESSION_ID database s ev).
Proof.
  revert s. change (maintains flights_wf (handle IS_PRODUCTION SESSION_ID database ev)).
  destruct ev as [io lvl cat msg d|io u| |id r| |id ok today io|l]; simpl.
  - apply log_wf.
  - unfold setUserId, detached.
    apply maintains_bind; [by apply maintains_modify|intros _].
    apply maintains_try_catch; [apply log_wf|intros; apply maintains_ret].
  - apply flushLogBatch_wf.
  - apply resume_flush_wf.
  - by apply cleanupOldFirebaseLogs_maintains.
  - apply resume_sweep_maintains; try done.
    + intros io' msg d. apply log_wf.
    + intros what err. by apply maintains_modify.
  - unfold subscribe. by apply maintains_modify.
Qed.

(** In every state the pipeline reaches, a flush that is under way has an
    item whose [push] is pending: the premises of the uploader theorems
    hold for it. *)
Lemma run_wf evs : forall s,
  flights_wf s -> flights_wf (run IS_PRODUCTION SESSION_ID database s evs).
Proof.
  induction evs as [|ev evs IH]; intros s Hs; simpl; [done|].
  apply IH. by apply step_wf.
Qed.

Lemma running_flight_has_pending_push evs id f :
  flights (run IS_PRODUCTION SESSION_ID database initial evs) !! id = Some f ->
  f_status f = Running ->
  exists e, f_logsToSend f !! f_next f = Some e.
Proof.
  intros Hid Hst.
  assert (flights_wf (run IS_PRODUCTION SESSION_ID database initial evs)) as Hwf.
  { apply run_wf. constructor. }
  apply lookup_lt_is_Some.
  eapply (proj1 (Forall_forall _ _) Hwf); [|done].
  by eapply list_elem_of_lookup_2.
Qed.

End FlightInvariant.

(** ** More on the uploader: enqueueing, delivery order, nothing lost *)

Lemma remote_session_push_eq u sid r m :
  remote_session (remote_push u sid r m) u sid = remote_session m u sid ++ [r].
Proof.
  unfold remote_session at 1, remote_push.
  rewrite lookup_insert_eq. simpl. by rewrite lookup_insert_eq.
Qed.

Lemma remote_session_push_ne u sid r m u' sid' :
  (u, sid) ≠ (u', sid') ->
  remote_session (remote_push u sid r m) u' sid' = remote_session m u' sid'.
Proof.
  intros Hne. unfold remote_session at 1, remote_push.
  destruct (decide (u = u')) as [->|Hu].
  - rewrite lookup_insert_eq. simpl.
    rewrite lookup_insert_ne by congruence. done.
  - by rewrite lookup_insert_ne.
Qed.

Section Enqueue.
Variable IS_PRODUCTION : bool.
Variable SESSION_ID : string.
Variable database : bool.

Lemma saveLogToFirebase_timer_open e s u :
  bound (currentUserId s) = Some u -> database = true ->
  IS_PRODUCTION && bool_decide (level e = LOG_LEVELS.DEBUG) = false ->
  let s' := (saveLogToFirebase IS_PRODUCTION database e s).2 in
  (array s' logBatch = array s logBatch ++ [e] ∧ flights s' = flights s ∧
   batchFlushTimer s' = true ∧ (length (array s' logBatch) < MAX_BATCH_SIZE)%nat) ∨
  (array s' logBatch = [] ∧
   flights s' = flights s ++ [Flight u (array s logBatch ++ [e]) 0 Running] ∧
   batchFlushTimer s' = false).
Proof.
  intros Hu -> Hgate. cbv zeta. rewrite saveLogToFirebase_eq, Hu, Hgate.
  change (negb true) with false. cbv iota zeta.
  destruct (bool_decide (MAX_BATCH_SIZE <= _)%nat) eqn:Hfull;
    [apply bool_decide_eq_true in Hfull|apply bool_decide_eq_false in Hfull].
  - right. rewrite flushLogBatch_eq. cbv zeta. unfold snd.
    replace (currentUserId (set_array logBatch (array s logBatch ++ [e]) s))
      with (currentUserId s) by done.
    rewrite Hu, array_set_array_eq, orb_false_r.
    rewrite bool_decide_eq_false_2; [|rewrite length_app; simpl; lia].
    split; [|done]. unfold array. simpl. by rewrite lookup_insert_eq.
  - left. simpl.
    assert (array (set_batchFlushTimer true
                     (set_array logBatch (array s logBatch ++ [e]) s)) logBatch
            = array s logBatch ++ [e]) as ->.
    { unfold array at 1. simpl. by rewrite lookup_insert_eq. }
    split; [done|]. split; [done|]. split; [done|]. lia.
Qed.

End Enqueue.

(** The two ways an ungated [log] leaves the queue. *)
Lemma log_enqueue_cases (IS_PRODUCTION : bool) (SESSION_ID : string)
    (s : pipeline) (u : string) (io : callenv) (lvl cat msg : string) (d : payload) :
  bound (currentUserId s) = Some u ->
  IS_PRODUCTION && bool_decide (lvl = LOG_LEVELS.DEBUG) = false ->
  let e := Entry (now io) SESSION_ID lvl cat msg d (href io) (agent io) in
  let s' := (log IS_PRODUCTION SESSION_ID true io lvl cat msg d s).2 in
  (length (array s' logBatch) < 10)%nat ∧
  ((array s' logBatch = array s logBatch ++ [e] ∧ flights s' = flights s ∧
    batchFlushTimer s' = true) ∨
   (array s' logBatch = [] ∧ batchFlushTimer s' = false ∧
    flights s' = flights s ++ [Flight u (array s logBatch ++ [e]) 0 Running])).
Proof.
  intros Hu Hgate e s'. subst s'. rewrite log_state. cbv zeta. fold e.
  set (s1 := set_array logBuffer _ s).
  set (s2 := set_console _ s1).
  set (s3 := (saveLogLocally io e s2).2).
  assert (currentUserId s3 = currentUserId s) as Hu3.
  { unfold s3. by rewrite (saveLogLocally_preserves currentUserId). }
  assert (flights s3 = flights s) as Hf.
  { unfold s3. by rewrite (saveLogLocally_preserves flights). }
  assert (array s3 logBatch = array s logBatch) as Hb.
  { unfold s3. rewrite (saveLogLocally_preserves (fun s => array s logBatch)) by done.
    unfold array, s2, s1. simpl. by rewrite lookup_insert_ne. }
  destruct (saveLogToFirebase_timer_open IS_PRODUCTION true e s3 u) as [H|H];
    [by rewrite Hu3|done|done| |].
  - destruct H as (H1 & H2 & H3 & H4). rewrite Hb in H1. rewrite Hf in H2.
    split; [exact H4|]. left. done.
  - destruct H as (H1 & H2 & H3). rewrite Hb, Hf in H2.
    split; [rewrite H1; simpl; lia|]. right. done.
Qed.

(** X1.  A call of [log] that passes both gates enqueues its envelope and
    leaves fewer than [MAX_BATCH_SIZE] items pending: either the envelope
    is appended to the queue, the timer is armed and the queue stays below
    10, or the queue (however long a failed flush had made it) leaves as a
    whole, envelope last, in a new flush under the bound actor. *)
Theorem ungated_emit_enqueues (IS_PRODUCTION : bool) (SESSION_ID : string)
    (s : pipeline) (u : string) (io : callenv) (lvl cat msg : string) (d : payload) :
  bound (currentUserId s) = Some u ->
  IS_PRODUCTION && bool_decide (lvl = LOG_LEVELS.DEBUG) = false ->
  let e := Entry (now io) SESSION_ID lvl cat msg d (href io) (agent io) in
  let s' := (log IS_PRODUCTION SESSION_ID true io lvl cat msg d s).2 in
  (length (array s' logBatch) < 10)%nat ∧
  ((array s' logBatch = array s logBatch ++ [e] ∧ flights s' = flights s ∧
    batchFlushTimer s' = true) ∨
   (array s' logBatch = [] ∧ batchFlushTimer s' = false ∧
    flights s' = flights s ++ [Flight u (array s logBatch ++ [e]) 0 Running])).
Proof. apply log_enqueue_cases. Qed.

Lemma ungated_emit_enqueues_witness :
  (length (array (log false "S" true (io_at 7) "debug" "App" "c" "" alice_pending).2
             logBatch) < 10)%nat.
Proof.
  exact (proj1 (ungated_emit_enqueues false "S" alice_pending "alice" (io_at 7)
                  "debug" "App" "c" "" eq_refl eq_refl)).
Defined.

Lemma remote_session_pushes u sid (l : list (entry * Z)) : forall m,
  remote_session (foldl (fun m p => remote_push u sid (Stored p.1 p.2) m) m l) u sid =
  remote_session m u sid ++ ((fun p => Stored p.1 p.2) <$> l).
Proof.
  induction l as [|p l IH]; intros m; simpl.
  - by rewrite app_nil_r.
  - rewrite IH, remote_session_push_eq. by rewrite <- app_assoc.
Qed.

Lemma remote_session_pushes_ne u sid (l : list (entry * Z)) u' sid' : forall m,
  (u, sid) ≠ (u', sid') ->
  remote_session (foldl (fun m p => remote_push u sid (Stored p.1 p.2) m) m l) u' sid' =
  remote_session m u' sid'.
Proof.
  induction l as [|p l IH]; intros m Hne; simpl; [done|].
  rewrite IH by done. by apply remote_session_push_ne.
Qed.

Section Delivery.
Variable IS_PRODUCTION : bool.
Variable SESSION_ID : string.
Variable database : bool.

(** A run of acknowledgements moves the loop of the flush forward by as
    many items, pushing them in snapshot order. *)
Lemma acks_advance tss : forall s id u b j,
  flights s !! id = Some (Flight u b j (status_at j b)) ->
  (j + length tss <= length b)%nat ->
  let s' := run IS_PRODUCTION SESSION_ID database s (acks id tss) in
  remote s' =
    foldl (fun m p => remote_push u SESSION_ID (Stored p.1 p.2) m) (remote s)
          (zip (drop j b) tss) ∧
  flights s' !! id =
    Some (Flight u b (j + length tss) (status_at (j + length tss) b)) ∧
  array s' logBatch = array s logBatch.
Proof.
  unfold run, acks.
  induction tss as [|ts tss IH]; intros s id u b j Hid Hlen.
  - simpl in *. rewrite Nat.add_0_r. split; [|done].
    destruct (drop j b); done.
  - rewrite fmap_cons. cbn [foldl]. simpl length in *.
    assert (j < length b)%nat as Hj by lia.
    destruct (lookup_lt_is_Some_2 b j Hj) as [e He].
    assert (status_at j b = Running) as Hst.
    { unfold status_at. by rewrite bool_decide_eq_true_2. }
    set (s1 := set_flight id (Flight u b (S j) (status_at (S j) b))
                 (set_remote (remote_push u SESSION_ID (Stored e ts) (remote s)) s)).
    assert (step IS_PRODUCTION SESSION_ID database s (EvSettle id (Acked ts)) = s1) as ->.
    { unfold step. simpl.
      by rewrite (resume_flush_acked _ s id _ e ts Hid) by (simpl; done). }
    destruct (IH s1 id u b (S j)) as (Hr & Hf & Hb).
    { unfold s1. simpl. apply list_lookup_insert_eq. by eapply lookup_lt_Some. }
    { lia. }
    cbv zeta in *.
    rewrite Hr, Hf, Hb. replace (S j + length tss)%nat with (j + S (length tss))%nat by lia.
    split; [|done].
    rewrite (drop_S b e j He). simpl. done.
Qed.

End Delivery.

(** X2.  When every [push] of a flush is acknowledged, the rest of its
    snapshot lands in the partition of the flush, appended to what was
    there, in snapshot order; no other partition changes, the flush ends
    completed, and the pending queue is not touched. *)
Theorem acknowledged_flush_delivers_in_order (IS_PRODUCTION : bool)
    (SESSION_ID : string) (database : bool) (s : pipeline) (id : nat) (u : string)
    (b : list entry) (j : nat) (tss : list Z) :
  flights s !! id = Some (Flight u b j Running) ->
  (j < length b)%nat ->
  length tss = (length b - j)%nat ->
  let s' := run IS_PRODUCTION SESSION_ID database s (acks id tss) in
  remote_session (remote s') u SESSION_ID =
    remote_session (remote s) u SESSION_ID ++ zip_with Stored (drop j b) tss ∧
  (forall u' sid', (u, SESSION_ID) ≠ (u', sid') ->
     remote_session (remote s') u' sid' = remote_session (remote s) u' sid') ∧
  flights s' !! id = Some (Flight u b (length b) Completed) ∧
  array s' logBatch = array s logBatch.
Proof.
  intros Hid Hj Hlen s'.
  destruct (acks_advance IS_PRODUCTION SESSION_ID database tss s id u b j) as (Hr & Hf & Hb).
  { unfold status_at. by rewrite bool_decide_eq_true_2. }
  { lia. }
  subst s'. rewrite Hr, Hf, Hb.
  split; [|split; [|split]].
  - rewrite remote_session_pushes. f_equal.
    generalize (drop j b). clear. intros l. revert tss.
    induction l as [|x l IH]; intros [|t tss]; simpl; try done. by rewrite IH.
  - intros u' sid' Hne. by apply remote_session_pushes_ne.
  - replace (j + length tss)%nat with (length b) by lia.
    unfold status_at. rewrite bool_decide_eq_false_2 by lia. done.
  - done.
Qed.

Lemma acknowledged_flush_delivers_in_order_witness :
  remote_session
    (remote (run false "S" true partial_flush_run (acks 0 [101]))) "alice" "S" =
  remote_session (remote partial_flush_run) "alice" "S"
  ++ zip_with Stored
       (drop 1
          [Entry 1 "S" "info" "Logger" "User ID set" "alice,S"
             "https://shopping.example/" "browser";
           Entry 2 "S" "info" "App" "a" "" "https://shopping.example/" "browser"])
       [101].
Proof.
  exact (proj1 (acknowledged_flush_delivers_in_order false "S" true partial_flush_run 0
    "alice"
    [Entry 1 "S" "info" "Logger" "User ID set" "alice,S" "https://shopping.example/" "browser";
     Entry 2 "S" "info" "App" "a" "" "https://shopping.example/" "browser"]
    1 [101] eq_refl ltac:(simpl; lia) eq_refl)).
Defined.

Lemma remote_session_push_keeps u0 sid0 r m u sid x :
  x ∈ remote_session m u sid -> x ∈ remote_session (remote_push u0 sid0 r m) u sid.
Proof.
  intros Hx. destruct (decide ((u0, sid0) = (u, sid))) as [Heq|Hne].
  - injection Heq as -> ->. rewrite remote_session_push_eq.
    apply elem_of_app. by left.
  - by rewrite remote_session_push_ne.
Qed.

Section NothingLost.
Variable IS_PRODUCTION : bool.
Variable SESSION_ID : string.
Variable database : bool.

Lemma accounted_started s u extra e :
  accounted s e ->
  forall s',
    array s' logBatch = [] ->
    flights s' = flights s ++ [Flight u (array s logBatch ++ extra) 0 Running] ->
    remote s' = remote s ->
    accounted s' e.
Proof.
  intros [Hb|[(id & f & Hid & Hst & He)|(u' & sid & ts & Hr)]] s' Hb' Hf' Hr'.
  - right. left. exists (length (flights s)), (Flight u (array s logBatch ++ extra) 0 Running).
    split; [|split; [done|]].
    + rewrite Hf'. by apply list_lookup_middle.
    + simpl. apply elem_of_app. by left.
  - right. left. exists id, f. split; [|done].
    rewrite Hf'. by apply lookup_app_l_Some.
  - right. right. exists u', sid, ts. by rewrite Hr'.
Qed.

Lemma accounted_same s s' e :
  (forall x, x ∈ array s logBatch -> x ∈ array s' logBatch) ->
  flights s' = flights s ->
  remote s' = remote s ->
  accounted s e -> accounted s' e.
Proof.
  intros Hb Hf Hr [H|[H|H]].
  - left. by apply Hb.
  - right. left. by rewrite Hf.
  - right. right. by rewrite Hr.
Qed.

Lemma flushLogBatch_accounted e :
  maintains (fun s => accounted s e) (flushLogBatch database).
Proof.
  intros s Hs. rewrite flushLogBatch_eq. cbv zeta. unfold snd.
  destruct (bound (currentUserId s)) as [u|];
    [|by eapply accounted_same; [| | |exact Hs]].
  destruct (_ || _); [by eapply accounted_same; [| | |exact Hs]|].
  eapply (accounted_started s u [] e Hs).
  - unfold array. simpl. by rewrite lookup_insert_eq.
  - simpl. by rewrite app_nil_r.
  - done.
Qed.

Lemma log_accounted io lvl cat msg d e :
  maintains (fun s => accounted s e)
    (log IS_PRODUCTION SESSION_ID database io lvl cat msg d).
Proof.
  intros s Hs.
  pose proof (log_remote IS_PRODUCTION SESSION_ID database io lvl cat msg d s) as Hr.
  destruct (log_queue IS_PRODUCTION SESSION_ID database io lvl cat msg d s)
    as [(Hb & Hf)|[(Hb & Hf)|(u & Hu & Hb & Hf)]].
  - eapply accounted_same; [| | |exact Hs]; [|done|done]. intros x. by rewrite Hb.
  - eapply accounted_same; [| | |exact Hs]; [|done|done].
    intros x Hx. rewrite Hb. apply elem_of_app. by left.
  - by eapply (accounted_started s u _ e Hs).
Qed.

Lemma resume_flush_accounted id r e :
  maintains (fun s => accounted s e) (resume_flush SESSION_ID id r).
Proof.
  intros s Hs.
  destruct (flights s !! id) as [f|] eqn:Hid;
    [|by unfold resume_flush, bind, gets; rewrite Hid].
  destruct (f_status f) eqn:Hst;
    try by (unfold resume_flush, bind, gets; rewrite Hid, Hst).
  destruct (f_logsToSend f !! f_next f) as [e'|] eqn:He;
    [|by unfold resume_flush, bind, gets; rewrite Hid, Hst, He].
  assert (id < length (flights s))%nat as Hlt by (by eapply lookup_lt_Some).
  destruct r as [ts|err].
  - rewrite (resume_flush_acked _ s id f e' ts) by done. unfold snd.
    destruct Hs as [Hb|[(id0 & f0 & Hid0 & Hst0 & He0)|(u' & sid & ts' & Hr)]].
    + by left.
    + destruct (decide (id0 = id)) as [->|Hne].
      * rewrite Hid in Hid0. injection Hid0 as <-.
        rewrite (drop_S _ _ _ He) in He0.
        apply elem_of_cons in He0 as [->|He0].
        -- right. right. exists (f_user f), SESSION_ID, ts. simpl.
           rewrite remote_session_push_eq. apply elem_of_app. right. by left.
        -- right. left. eexists id, _. split; [|split].
           ++ simpl. by apply list_lookup_insert_eq.
           ++ simpl. rewrite bool_decide_eq_true_2; [done|].
              destruct (decide (S (f_next f) < length (f_logsToSend f))%nat); [done|].
              rewrite drop_ge in He0 by lia. by apply elem_of_nil in He0.
           ++ done.
      * right. left. exists id0, f0. split; [|done].
        simpl. by rewrite list_lookup_insert_ne.
    + right. right. exists u', sid, ts'. simpl. by apply remote_session_push_keeps.
  - rewrite (resume_flush_rejected _ s id f e' err) by done. cbv zeta. unfold snd.
    destruct Hs as [Hb|[(id0 & f0 & Hid0 & Hst0 & He0)|(u' & sid & ts' & Hr)]].
    + left. unfold array at 1. simpl. rewrite lookup_insert_eq. simpl.
      apply elem_of_app. by right.
    + destruct (decide (id0 = id)) as [->|Hne].
      * rewrite Hid in Hid0. injection Hid0 as <-.
        left. unfold array at 1. simpl. rewrite lookup_insert_eq. simpl.
        apply elem_of_app. left. by eapply subseteq_drop.
      * right. left. exists id0, f0. split; [|done].
        simpl. by rewrite list_lookup_insert_ne.
    + right. right. by exists u', sid, ts'.
Qed.

Lemma step_accounted s ev e :
  is_sweep ev = false ->
  accounted s e -> accounted (step IS_PRODUCTION SESSION_ID database s ev) e.
Proof.
  intros Hev Hs. unfold step.
  destruct ev as [io lvl cat msg d|io u| |id r| |id ok today io|l]; simpl; try done.
  - by apply log_accounted.
  - rewrite setUserId_state. apply log_accounted.
    by eapply accounted_same; [| | |exact Hs].
  - by apply flushLogBatch_accounted.
  - by apply resume_flush_accounted.
Qed.

Lemma run_accounted evs : forall s e,
  Forall (fun ev => is_sweep ev = false) evs ->
  accounted s e -> accounted (run IS_PRODUCTION SESSION_ID database s evs) e.
Proof.
  induction evs as [|ev evs IH]; intros s e Hevs Hs; simpl; [done|].
  apply Forall_cons in Hevs as [Hev Hevs].
  apply IH; [done|]. by apply step_accounted.
Qed.

End NothingLost.

(** X3.  Nothing the uploader has taken is dropped by a failure: once a
    call of [log] has passed the gates, its envelope is, after any further
    sequence of calls, bindings, flushes, acknowledged and rejected pushes
    (no retention sweep among them), still in the pending queue, or in the
    unacknowledged part of a flush under way, or in the remote store. *)
Theorem enqueued_envelope_is_never_lost (IS_PRODUCTION : bool) (SESSION_ID : string)
    (s : pipeline) (u : string) (io : callenv) (lvl cat msg : string) (d : payload)
    (evs : list event) :
  bound (currentUserId s) = Some u ->
  IS_PRODUCTION && bool_decide (lvl = LOG_LEVELS.DEBUG) = false ->
  Forall (fun ev => is_sweep ev = false) evs ->
  let e := Entry (now io) SESSION_ID lvl cat msg d (href io) (agent io) in
  let s' := (log IS_PRODUCTION SESSION_ID true io lvl cat msg d s).2 in
  accounted s' e ∧ accounted (run IS_PRODUCTION SESSION_ID true s' evs) e.
Proof.
  intros Hu Hgate Hevs e s'.
  assert (accounted s' e) as Hs'.
  { destruct (log_enqueue_cases IS_PRODUCTION SESSION_ID s u io lvl cat msg d Hu Hgate)
      as (_ & [(Hb & _)|(_ & _ & Hf)]).
    - left. fold e s' in Hb. rewrite Hb. apply elem_of_app. right. by left.
    - right. left. fold e s' in Hf. eexists (length (flights s)), _.
      split; [rewrite Hf; by apply list_lookup_middle|].
      split; [done|]. simpl. apply elem_of_app. right. by left. }
  split; [done|]. by apply run_accounted.
Qed.

Lemma enqueued_envelope_is_never_lost_witness :
  accounted
    (run false "S" true
       (log false "S" true (io_at 2) "info" "App" "a" ""
          (run false "S" true initial [EvSetUserId (io_at 1) (Some "alice")])).2
       [EvFlush; EvSettle 0 (Acked 100); EvSettle 0 (Rejected "offline")])
    (Entry 2 "S" "info" "App" "a" "" "https://shopping.example/" "browser").
Proof.
  apply (enqueued_envelope_is_never_lost false "S"
           (run false "S" true initial [EvSetUserId (io_at 1) (Some "alice")])
           "alice" (io_at 2) "info" "App" "a" ""
           [EvFlush; EvSettle 0 (Acked 100); EvSettle 0 (Rejected "offline")]).
  - reflexivity.
  - reflexivity.
  - repeat constructor.
Defined.

(** ** The ring buffer against the console, over all events *)

Lemma logged_snoc_error c what err : logged (c ++ [ConsoleError what err]) = logged c.
Proof. unfold logged. rewrite omap_app. simpl. by rewrite app_nil_r. Qed.

Lemma logged_snoc_log c e : logged (c ++ [ConsoleLog e]) = logged c ++ [e].
Proof. unfold logged. by rewrite omap_app. Qed.

Lemma console_error_logged what err :
  preserves (fun s => logged (console s)) (console_error what err).
Proof. intros s. simpl. apply logged_snoc_error. Qed.

Lemma maintains_ring {A} (m : js A) :
  preserves (fun s => array s logBuffer) m ->
  preserves (fun s => logged (console s)) m ->
  maintains ring_follows_console m.
Proof. intros H1 H2 s Hs. unfold ring_follows_console. by rewrite H1, H2. Qed.

Section RingAndConsole.
Variable IS_PRODUCTION : bool.
Variable SESSION_ID : string.
Variable database : bool.

Lemma saveLogLocally_logged io e :
  preserves (fun s => logged (console s)) (saveLogLocally io e).
Proof.
  intros s. rewrite saveLogLocally_eq. unfold store_add.
  destruct (logDB s), (open_ok io), (add_ok io); try done;
    simpl; unfold logged; rewrite omap_app; simpl; by rewrite app_nil_r.
Qed.

Lemma saveLogToFirebase_console e :
  preserves console (saveLogToFirebase IS_PRODUCTION database e).
Proof. unfold saveLogToFirebase, flushLogBatch. frame. Qed.

Lemma log_logged io lvl cat msg d s :
  logged (console (log IS_PRODUCTION SESSION_ID database io lvl cat msg d s).2) =
  logged (console s) ++ [Entry (now io) SESSION_ID lvl cat msg d (href io) (agent io)].
Proof.
  rewrite log_state. cbv zeta.
  rewrite saveLogToFirebase_console, saveLogLocally_logged.
  simpl. apply logged_snoc_log.
Qed.

Lemma log_ring io lvl cat msg d :
  maintains ring_follows_console (log IS_PRODUCTION SESSION_ID database io lvl cat msg d).
Proof.
  intros s Hs. unfold ring_follows_console.
  rewrite log_logBuffer, log_logged, Hs.
  apply last_n_push. unfold MAX_BUFFER_SIZE. lia.
Qed.

Lemma resume_flush_logged id r :
  preserves (fun s => logged (console s)) (resume_flush SESSION_ID id r).
Proof.
  unfold resume_flush.
  apply preserves_bind; [frame|intros fs].
  destruct (fs !! id) as [f|]; [|frame].
  destruct (f_status f); [|frame|frame].
  destruct (f_logsToSend f !! f_next f); [|frame].
  apply preserves_try_catch; [unfold await_push; frame|intros err].
  apply preserves_bind; [apply console_error_logged|intros _]. frame.
Qed.

Lemma step_ring s ev :
  ring_follows_console s ->
  ring_follows_console (step IS_PRODUCTION SESSION_ID database s ev).
Proof.
  revert s.
  change (maintains ring_follows_console (handle IS_PRODUCTION SESSION_ID database ev)).
  destruct ev as [io lvl cat msg d|io u| |id r| |id ok today io|l]; simpl.
  - apply log_ring.
  - unfold setUserId, detached.
    apply maintains_bind; [by apply maintains_modify|intros _].
    apply maintains_try_catch; [apply log_ring|intros; apply maintains_ret].
  - apply maintains_ring; unfold flushLogBatch; frame.
  - apply maintains_ring; [apply resume_flush_logBuffer|apply resume_flush_logged].
  - by apply cleanupOldFirebaseLogs_maintains.
  - apply resume_sweep_maintains; try done.
    + intros io' msg d. apply log_ring.
    + intros what err. apply maintains_ring; [unfold console_error; frame|].
      apply console_error_logged.
  - unfold subscribe. by apply maintains_modify.
Qed.

End RingAndConsole.

(** X4.  In every state the pipeline reaches, whatever the events were
    (calls of [log], bindings and sweeps with the events they log
    themselves, flushes, settled pushes, subscriptions), the ring buffer
    is the last 500 of the envelopes rendered on the console, in the same
    order, and so never longer than 500. *)
Theorem ring_buffer_follows_console (IS_PRODUCTION : bool) (SESSION_ID : string)
    (database : bool) (evs : list event) :
  let s := run IS_PRODUCTION SESSION_ID database initial evs in
  array s logBuffer = last_n 500 (logged (console s)) ∧
  (length (array s logBuffer) <= 500)%nat.
Proof.
  cbv zeta.
  assert (ring_follows_console (run IS_PRODUCTION SESSION_ID database initial evs)) as H.
  { assert (ring_follows_console initial) as H0 by done. revert H0.
    generalize initial. induction evs as [|ev evs IH]; intros s Hs; simpl; [done|].
    apply IH. by apply step_ring. }
  split; [exact H|]. rewrite H, length_last_n. unfold MAX_BUFFER_SIZE. lia.
Qed.

(** ** The retention sweep under failing remote operations *)

Lemma swept_lookup_Some c l : forall m sid logs,
  swept c l m !! sid = Some logs -> m !! sid = Some logs.
Proof.
  induction l as [|[k logs'] l IH]; intros m sid logs H; simpl in *; [done|].
  apply IH in H. destruct (expired c logs'); [|done]. simpl in H.
  destruct (decide (k = sid)) as [->|Hne].
  - by rewrite lookup_delete_eq in H.
  - by rewrite lookup_delete_ne in H.
Qed.

Lemma swept_lookup_deleted c l : forall m sid logs,
  m !! sid = Some logs -> swept c l m !! sid = None ->
  exists logs', (sid, logs') ∈ l ∧ expired c logs' = true.
Proof.
  induction l as [|[k logs'] l IH]; intros m sid logs Hm H; simpl in *.
  - congruence.
  - destruct (expired c logs') eqn:Hexp; simpl in H.
    + destruct (decide (k = sid)) as [->|Hne].
      * exists logs'. split; [left|done].
      * destruct (IH (delete k m) sid logs) as (l0 & Hin & Hl0); [|done|].
        { by rewrite lookup_delete_ne. }
        exists l0. split; [by right|done].
    + destruct (IH m sid logs Hm H) as (l0 & Hin & Hl0).
      exists l0. split; [by right|done].
Qed.

Lemma swept_cons c k logs l m :
  swept c ((k, logs) :: l) m = swept c l (if expired c logs then delete k m else m).
Proof. reflexivity. Qed.

Lemma expired_has_old_record c logs :
  expired c logs = true -> exists r, r ∈ logs ∧ timestamp (s_entry r) < c.
Proof.
  destruct logs as [|first rest]; [done|].
  intros H. by apply min_timestamp_lt, expired_cons.
Qed.

Section SweepSafety.
Variable IS_PRODUCTION : bool.
Variable SESSION_ID : string.
Variable database : bool.

Lemma cleanupOldFirebaseLogs_returns : returns (cleanupOldFirebaseLogs database).
Proof.
  unfold cleanupOldFirebaseLogs.
  apply returns_bind; [apply returns_gets|intros cur].
  destruct (bound cur); [|apply returns_ret].
  destruct (negb database); [apply returns_ret|apply returns_modify].
Qed.

Lemma resume_sweep_returns id ok today io :
  returns (resume_sweep IS_PRODUCTION SESSION_ID database id ok today io).
Proof.
  unfold resume_sweep.
  apply returns_bind; [apply returns_gets|intros ws].
  assert (forall error, returns (sweep_failed id error)) as Hcatch.
  { intros error. unfold sweep_failed, console_error.
    apply returns_bind; [apply returns_modify|intros _; apply returns_modify]. }
  destruct (ws !! id) as [[u|u sid rest c n| |]|];
    try apply returns_ret; by apply returns_try_catch.
Qed.

End SweepSafety.

(** X5.  A sweep left undisturbed (nothing binds another actor or writes
    to the remote store while it runs) is safe under any pattern of
    failing remote operations, at whatever point it stands: it leaves the
    partitions of all other actors as they are; a session group that is
    still there has exactly the records it had; and a group that is gone
    held a record older than [now - 30 days].  No step of a sweep ever
    raises. *)
Theorem sweep_is_safe_under_failures (IS_PRODUCTION : bool) (SESSION_ID : string)
    (s : pipeline) (u : string) (today : Z) (evs : list event) :
  bound (currentUserId s) = Some u ->
  Forall (fun ev => undisturbed (length (sweeps s)) today ev = true) evs ->
  let s' := run IS_PRODUCTION SESSION_ID true s (EvCleanup :: evs) in
  (forall v, v ≠ u -> remote s' !! v = remote s !! v) ∧
  (forall sid logs,
     sessions_of (remote s') u !! sid = Some logs ->
     sessions_of (remote s) u !! sid = Some logs) ∧
  (forall sid logs,
     sessions_of (remote s) u !! sid = Some logs ->
     sessions_of (remote s') u !! sid = None ->
     exists r, r ∈ logs ∧ timestamp (s_entry r) < today - 30 * 24 * 60 * 60 * 1000) ∧
  (forall database ev s0,
     is_sweep ev = true ->
     (handle IS_PRODUCTION SESSION_ID database ev s0).1 = Returned tt).
Proof.
  intros Hu Hevs s'.
  pose proof (sweep_run IS_PRODUCTION SESSION_ID true u (remote s) _ today evs _ _ _
                (sweep_start IS_PRODUCTION SESSION_ID true u s Hu eq_refl _) Hevs) as Hp.
  change (run IS_PRODUCTION SESSION_ID true
            (step IS_PRODUCTION SESSION_ID true s EvCleanup) evs) with s' in Hp.
  destruct (sweep_progress_partition _ _ _ _ _ _ _ Hp) as (done & rest & HL & Hrem).
  destruct Hp as (_ & Hother & _).
  split; [exact Hother|]. split; [|split].
  - intros sid logs. rewrite Hrem. apply swept_lookup_Some.
  - intros sid logs Hsid Hnone. rewrite Hrem in Hnone.
    destruct (swept_lookup_deleted _ _ _ _ _ Hsid Hnone) as (logs' & Hin & Hexp).
    assert ((sid, logs') ∈ entries (sessions_of (remote s) u)) as Hin'.
    { rewrite HL. apply elem_of_app. by left. }
    apply elem_of_entries in Hin'. rewrite Hsid in Hin'. injection Hin' as <-.
    by apply expired_has_old_record.
  - intros database ev s0 Hev.
    destruct ev as [| | | | |id ok today' io|]; try done; simpl.
    + apply returns_unit, cleanupOldFirebaseLogs_returns.
    + apply returns_unit, resume_sweep_returns.
Qed.

(** Three expired groups, the [remove] of the second one failing: the
    first is gone, the second and the third stay; the failure is on the
    console. *)
Lemma sweep_is_safe_under_failures_witness :
  let today := 3000000000 in
  let s' := run false "S" true three_old_sessions
              [EvCleanup;
               EvSweepSettle 0 true today (io_at today);
               EvSweepSettle 0 true today (io_at today);
               EvSweepSettle 0 false today (io_at today)] in
  sweeps s' !! 0%nat = Some Stopped ∧
  sessions_of (remote s') "alice" !! "a" = None ∧
  sessions_of (remote s') "alice" !! "b" = Some [old_record "b"] ∧
  sessions_of (remote s') "alice" !! "c" = Some [old_record "c"] ∧
  (exists r, r ∈ [old_record "a"] ∧
             timestamp (s_entry r) < today - 30 * 24 * 60 * 60 * 1000).
Proof.
  split; [by vm_compute|]. split; [by vm_compute|].
  split; [by vm_compute|]. split; [by vm_compute|].
  apply (proj1 (proj2 (proj2 (sweep_is_safe_under_failures false "S" three_old_sessions
           "alice" 3000000000
           [EvSweepSettle 0 true 3000000000 (io_at 3000000000);
            EvSweepSettle 0 true 3000000000 (io_at 3000000000);
            EvSweepSettle 0 false 3000000000 (io_at 3000000000)]
           eq_refl ltac:(repeat constructor)))) "a").
  - by vm_compute.
  - by vm_compute.
Defined.

Lemma StronglySorted_weaken {A} (R1 R2 : relation A) l :
  (forall a b, R1 a b -> R2 a b) -> StronglySorted R1 l -> StronglySorted R2 l.
Proof.
  intros HR. induction 1 as [|x l Hl IH Hx]; constructor; [done|].
  eapply Forall_impl; [exact Hx|]. intros y. apply HR.
Qed.

Lemma StronglySorted_reverse {A} (R : relation A) l :
  StronglySorted R l -> StronglySorted (flip R) (reverse l).
Proof.
  induction 1 as [|x l Hl IH Hx]; [constructor|].
  rewrite reverse_cons. apply StronglySorted_app_2; [|exact IH|repeat constructor].
  intros y z Hy Hz. apply list_elem_of_singleton in Hz as ->.
  rewrite elem_of_reverse in Hy. unfold flip.
  by apply (proj1 (Forall_forall _ _) Hx).
Qed.

Lemma newest_first_sorted {A} (time : A -> Z) l :
  StronglySorted (fun a b => time b <= time a) (sort_by (newest_first time) l).
Proof.
  eapply StronglySorted_weaken;
    [|apply (sort_by_sorted (newest_first time))].
  - intros a b H. unfold newest_first in H. apply bool_decide_eq_true in H. lia.
  - intros x y. unfold newest_first. rewrite !bool_decide_eq_true. lia.
  - intros x y z. unfold newest_first. rewrite !bool_decide_eq_true. lia.
Qed.

Lemma oldest_first_sorted {A} (time : A -> Z) l :
  StronglySorted (fun a b => time a <= time b) (sort_by (oldest_first time) l).
Proof.
  eapply StronglySorted_weaken;
    [|apply (sort_by_sorted (oldest_first time))].
  - intros a b H. unfold oldest_first in H. by apply bool_decide_eq_true in H.
  - intros x y. unfold oldest_first. rewrite !bool_decide_eq_true. lia.
  - intros x y z. unfold oldest_first. rewrite !bool_decide_eq_true. lia.
Qed.

(** ** The local store: sweep and read *)

Lemma filter_bool_decide {A} (f : A -> bool) (P : A -> Prop)
    `{forall x, Decision (P x)} (l : list A) :
  (forall x, f x = true <-> P x) -> List.filter f l = filter P l.
Proof.
  intros Hf. induction l as [|x l IH]; [done|].
  simpl. rewrite filter_cons.
  destruct (f x) eqn:Hfx; destruct (decide (P x)) as [HP|HP].
  - by rewrite IH.
  - apply Hf in Hfx. done.
  - apply Hf in HP. congruence.
  - done.
Qed.

Lemma clearOldLogs_eq io cursor_ok days s :
  clearOldLogs io cursor_ok days s =
  let cutoffTime := now io - days * 24 * 60 * 60 * 1000 in
  let request s0 :=
    if cursor_ok
    then (Returned
            (Some (length (List.filter (fun e => bool_decide (timestamp e <= cutoffTime))
                             (localStore s0)))),
          set_localStore
            (List.filter (fun e => negb (bool_decide (timestamp e <= cutoffTime)))
               (localStore s0)) s0)
    else (Thrown "request.error", s0) in
  if logDB s then request s
  else if open_ok io then request (set_logDB true s)
  else (Returned None,
        set_console
          (console s ++ [ConsoleError "Failed to open logs IndexedDB:" "request.error";
                         ConsoleError "Failed to clear old logs:" "request.error"]) s).
Proof.
  unfold clearOldLogs, initLogDB, delete_up_to, bind, try_catch, gets, ret, throw,
    console_error, modify.
  simpl. destruct (logDB s); [by destruct cursor_ok|].
  destruct (open_ok io); [by destruct cursor_ok|].
  simpl. unfold set_console. simpl. by rewrite <- app_assoc.
Qed.

(** X6.  [clearOldLogs] deletes from the local store exactly the records
    whose timestamp is at or before [now - daysToKeep] days (the bound is
    included), keeps the others in their order, and resolves to the number
    deleted.  When the cursor request fails nothing is deleted and the
    returned promise rejects: the [try] does not cover it.  When the
    database does not open it resolves to [undefined] and deletes nothing. *)
Theorem local_sweep_deletes_up_to_cutoff (io : callenv) (cursor_ok : bool)
    (daysToKeep : Z) (s : pipeline) :
  let cutoffTime := now io - daysToKeep * 24 * 60 * 60 * 1000 in
  let r := clearOldLogs io cursor_ok daysToKeep s in
  (logDB s || open_ok io = true -> cursor_ok = true ->
     r.1 = Returned (Some (length (filter (fun e => timestamp e <= cutoffTime)
                                     (localStore s)))) ∧
     localStore r.2 = filter (fun e => cutoffTime < timestamp e) (localStore s)) ∧
  (logDB s || open_ok io = true -> cursor_ok = false ->
     r.1 = Thrown "request.error" ∧ localStore r.2 = localStore s) ∧
  (logDB s || open_ok io = false ->
     r.1 = Returned None ∧ localStore r.2 = localStore s) ∧
  remote r.2 = remote s ∧ arrays r.2 = arrays s ∧ flights r.2 = flights s.
Proof.
  intros cutoffTime r. subst r. rewrite clearOldLogs_eq. cbv zeta. fold cutoffTime.
  assert (forall l : list entry,
            List.filter (fun e => bool_decide (timestamp e <= cutoffTime)) l
            = filter (fun e => timestamp e <= cutoffTime) l) as Hold.
  { intros l. apply filter_bool_decide. intros x. apply bool_decide_eq_true. }
  assert (forall l : list entry,
            List.filter (fun e => negb (bool_decide (timestamp e <= cutoffTime))) l
            = filter (fun e => cutoffTime < timestamp e) l) as Hnew.
  { intros l. apply filter_bool_decide. intros x.
    rewrite negb_true_iff, bool_decide_eq_false. lia. }
  destruct (logDB s), (open_ok io), cursor_ok; simpl;
    rewrite ?Hold, ?Hnew; repeat split; try done; intros; try done.
Qed.

Lemma local_sweep_deletes_up_to_cutoff_witness :
  localStore (clearOldLogs (io_at 3000000000) true 30
                (set_localStore (s_entry <$> long_session) initial)).2 =
  filter (fun e => 3000000000 - 30 * 24 * 60 * 60 * 1000 < timestamp e)
    (s_entry <$> long_session).
Proof.
  exact (proj2 (proj1 (local_sweep_deletes_up_to_cutoff (io_at 3000000000) true 30
                         (set_localStore (s_entry <$> long_session) initial))
                  eq_refl eq_refl)).
Defined.

Lemma getLocalLogs_eq io cursor_ok limit s :
  getLocalLogs io cursor_ok limit s =
  let request s0 :=
    if cursor_ok
    then (Returned (take limit (reverse (sort_by (oldest_first timestamp) (localStore s0)))),
          s0)
    else (Thrown "request.error", s0) in
  if logDB s then request s
  else if open_ok io then request (set_logDB true s)
  else (Returned [],
        set_console
          (console s ++ [ConsoleError "Failed to open logs IndexedDB:" "request.error";
                         ConsoleError "Failed to get local logs:" "request.error"]) s).
Proof.
  unfold getLocalLogs, initLogDB, read_newest, bind, try_catch, gets, ret, throw,
    console_error, modify.
  simpl. destruct (logDB s); [by destruct cursor_ok|].
  destruct (open_ok io); [by destruct cursor_ok|].
  simpl. unfold set_console. simpl. by rewrite <- app_assoc.
Qed.

(** X7.  [getLocalLogs(limit)] reads without changing the store and
    returns the [min limit n] newest of the [n] local records, newest
    first: the result is ordered by non-increasing timestamp, together
    with the records left out it is the whole store, and no record left
    out is newer than a returned one.  A failing cursor request makes the
    returned promise reject; a database that does not open gives [[]]. *)
Theorem getLocalLogs_returns_newest (io : callenv) (cursor_ok : bool) (limit : nat)
    (s : pipeline) :
  let r := getLocalLogs io cursor_ok limit s in
  (logDB s || open_ok io = true -> cursor_ok = true ->
     exists result rest,
       r.1 = Returned result ∧
       result ++ rest ≡ₚ localStore s ∧
       length result = (limit `min` length (localStore s))%nat ∧
       StronglySorted (fun a b => timestamp b <= timestamp a) result ∧
       (forall x y, x ∈ result -> y ∈ rest -> timestamp y <= timestamp x)) ∧
  (logDB s || open_ok io = true -> cursor_ok = false -> r.1 = Thrown "request.error") ∧
  (logDB s || open_ok io = false -> r.1 = Returned []) ∧
  localStore r.2 = localStore s.
Proof.
  intros r. subst r. rewrite getLocalLogs_eq. cbv zeta.
  assert (forall st : list entry,
    exists result rest,
      take limit (reverse (sort_by (oldest_first timestamp) st)) = result ∧
      result ++ rest ≡ₚ st ∧
      length result = (limit `min` length st)%nat ∧
      StronglySorted (fun a b => timestamp b <= timestamp a) result ∧
      (forall x y, x ∈ result -> y ∈ rest -> timestamp y <= timestamp x)) as Hread.
  { intros st. set (all := reverse (sort_by (oldest_first timestamp) st)).
    assert (StronglySorted (fun a b => timestamp b <= timestamp a) all) as Hsorted.
    { apply (StronglySorted_reverse (fun a b => timestamp a <= timestamp b)).
      apply oldest_first_sorted. }
    rewrite <- (take_drop limit all) in Hsorted.
    apply StronglySorted_app in Hsorted as (Hcross & Htake & _).
    exists (take limit all), (drop limit all).
    split; [done|]. split; [|split; [|split; [done|]]].
    - rewrite take_drop. unfold all. by rewrite reverse_Permutation, sort_by_perm.
    - rewrite length_take. unfold all. by rewrite length_reverse, sort_by_length.
    - intros x y Hx Hy. by apply Hcross. }
  destruct (logDB s), (open_ok io), cursor_ok; simpl;
    (split; [|split; [|split; [|done]]]); intros; try done;
    destruct (Hread (localStore s)) as (result & rest & <- & Hres);
    eexists _, _; (split; [reflexivity|exact Hres]).
Qed.

(** Three local records and a limit of two: the records of the times 7
    and 6 come back, in this order; with a failing cursor request the
    promise rejects. *)
Lemma getLocalLogs_returns_newest_witness :
  (exists result rest,
     (getLocalLogs (io_at 9) true 2 three_local_records).1 = Returned result ∧
     timestamp <$> result = [7; 6] ∧
     result ++ rest ≡ₚ localStore three_local_records ∧
     StronglySorted (fun a b => timestamp b <= timestamp a) result ∧
     (forall x y, x ∈ result -> y ∈ rest -> timestamp y <= timestamp x)) ∧
  (getLocalLogs (io_at 9) false 2 three_local_records).1 = Thrown "request.error".
Proof.
  pose proof (getLocalLogs_returns_newest (io_at 9) true 2 three_local_records) as Hok.
  pose proof (getLocalLogs_returns_newest (io_at 9) false 2 three_local_records) as Hfail.
  split.
  - destruct (proj1 Hok eq_refl eq_refl)
      as (result & rest & Hret & Hperm & Hlen & Hsorted & Hcross).
    pose proof Hret as Hres. vm_compute in Hres. injection Hres as <-.
    eexists _, rest. split; [exact Hret|]. split; [reflexivity|].
    split; [exact Hperm|]. split; [exact Hsorted|exact Hcross].
  - exact (proj1 (proj2 Hfail) eq_refl eq_refl).
Defined.

(** ** Reading one actor's remote records *)

Lemma in_range_within startDate endDate x :
  in_range startDate endDate x = true <-> within startDate endDate x.
Proof.
  unfold in_range, within, truthy_date.
  rewrite andb_true_iff, !negb_true_iff. split.
  - intros [H1 H2]. split; intros d -> Hd.
    + destruct d; try done; apply bool_decide_eq_false in H1; lia.
    + destruct d; try done; apply bool_decide_eq_false in H2; lia.
  - intros [H1 H2]. split.
    + destruct startDate as [[|p|p]|]; try done;
        apply bool_decide_eq_false; (unshelve epose proof (H1 _ eq_refl _); [done|lia]).
    + destruct endDate as [[|p|p]|]; try done;
        apply bool_decide_eq_false; (unshelve epose proof (H2 _ eq_refl _); [done|lia]).
Qed.

Lemma elem_of_session_logs sid logs x :
  x ∈ session_logs sid logs <->
  ft_sessionId x = sid ∧ logs !! ft_logId x = Some (ft_log x).
Proof.
  unfold session_logs. rewrite elem_of_lookup_imap. split.
  - intros (i & y & -> & Hi). done.
  - intros [<- Hi]. exists (ft_logId x), (ft_log x). by destruct x.
Qed.

Section ReadRemote.
Variable database : bool.

Lemma getFirebaseLogs_eq get_ok userId startDate endDate s :
  getFirebaseLogs database get_ok userId startDate endDate s =
  if negb database then (Returned [], s)
  else if get_ok
  then (Returned
          (let sessions := sessions_of (remote s) userId in
           if partition_exists sessions
           then sort_by (newest_first ft_timestamp)
                  (entries sessions ≫=
                     (fun p => List.filter (in_range startDate endDate)
                                 (session_logs p.1 p.2)))
           else []), s)
  else (Returned [],
        set_console (console s ++ [ConsoleError "Failed to get Firebase logs:" "get failed"]) s).
Proof.
  unfold getFirebaseLogs. destruct (negb database); [done|].
  unfold try_catch, bind, gets, ret, throw, console_error, modify.
  destruct get_ok; [|done]. simpl.
  by destruct (partition_exists (sessions_of (remote s) userId)).
Qed.

End ReadRemote.

Lemma stored_for_sessions_of m userId x :
  stored_for m userId x <->
  exists logs,
    sessions_of m userId !! ft_sessionId x = Some logs ∧
    logs !! ft_logId x = Some (ft_log x).
Proof.
  unfold stored_for, sessions_of. split.
  - intros (sessions & logs & -> & Hsid & Hlog). by exists logs.
  - intros (logs & Hsid & Hlog).
    destruct (m !! userId) as [sessions|]; [|done].
    by exists sessions, logs.
Qed.

(** A record that is stored lies in a partition that exists. *)
Lemma stored_for_exists m userId x :
  stored_for m userId x -> partition_exists (sessions_of m userId) = true.
Proof.
  intros (logs & Hsid & Hlog)%stored_for_sessions_of.
  apply bool_decide_eq_true. exists (ft_sessionId x), logs.
  split; [done|]. by intros ->.
Qed.

(** What a call of [getFirebaseLogs] returns, in all its cases. *)
Lemma getFirebaseLogs_range (database get_ok : bool)
    (userId : string) (startDate endDate : option Z) (s : pipeline) :
  let r := getFirebaseLogs database get_ok userId startDate endDate s in
  exists result,
    r.1 = Returned result ∧
    remote r.2 = remote s ∧
    StronglySorted (fun a b => ft_timestamp b <= ft_timestamp a) result ∧
    (forall x, x ∈ result <->
       database = true ∧ get_ok = true ∧
       stored_for (remote s) userId x ∧ within startDate endDate x).
Proof.
  intros r. subst r. rewrite getFirebaseLogs_eq.
  destruct database; simpl.
  2:{ exists []. split; [done|]. split; [done|]. split; [constructor|].
      intros x. split; [intros Hx; by apply elem_of_nil in Hx|].
      by intros (? & _). }
  destruct get_ok; simpl.
  2:{ exists []. split; [done|]. split; [done|]. split; [constructor|].
      intros x. split; [intros Hx; by apply elem_of_nil in Hx|].
      by intros (_ & ? & _). }
  destruct (partition_exists (sessions_of (remote s) userId)) eqn:Hex.
  2:{ exists []. split; [done|]. split; [done|]. split; [constructor|].
      intros x. split; [intros Hx; by apply elem_of_nil in Hx|].
      intros (_ & _ & Hst & _). apply stored_for_exists in Hst. congruence. }
  eexists. split; [reflexivity|]. split; [done|].
  split; [apply newest_first_sorted|].
  intros x. rewrite sort_by_elem_of, list_elem_of_bind, stored_for_sessions_of. split.
  - intros ([sid logs] & Hx & Hin). simpl in Hx.
    apply list_elem_of_In, filter_In in Hx as [Hx Hrange].
    apply list_elem_of_In, elem_of_session_logs in Hx as [Hsid Hlog].
    apply elem_of_entries in Hin. subst sid.
    split; [done|]. split; [done|]. split.
    + by exists logs.
    + by apply in_range_within.
  - intros (_ & _ & (logs & Hsid & Hlog) & Hrange).
    exists (ft_sessionId x, logs). split; [|by apply elem_of_entries].
    simpl. apply list_elem_of_In, filter_In. split.
    + by apply list_elem_of_In, elem_of_session_logs.
    + by apply in_range_within.
Qed.


(** X9.  [loadLogs] of the admin log viewer asks for the last [days]
    days: with a positive cut-off every returned record is at or after
    [now - days] days, newest first; the viewer shows nothing older. *)
Theorem loadLogs_returns_last_days (database get_ok : bool) (today days : Z)
    (userId : string) (s : pipeline) :
  today - days * 24 * 60 * 60 * 1000 ≠ 0 ->
  exists result,
    (loadLogs database get_ok today days userId s).1 = Returned result ∧
    StronglySorted (fun a b => ft_timestamp b <= ft_timestamp a) result ∧
    (forall x, x ∈ result ->
       today - days * 24 * 60 * 60 * 1000 <= ft_timestamp x ∧
       stored_for (remote s) userId x) ∧
    (database = true -> get_ok = true ->
     forall x, stored_for (remote s) userId x ->
       today - days * 24 * 60 * 60 * 1000 <= ft_timestamp x -> x ∈ result).
Proof.
  intros Hcut. unfold loadLogs.
  destruct (getFirebaseLogs_range database get_ok userId
              (Some (today - days * 24 * 60 * 60 * 1000)) None s)
    as (result & Hret & _ & Hsorted & Hmem).
  exists result. split; [done|]. split; [done|]. split.
  - intros x Hx. apply Hmem in Hx as (_ & _ & Hst & [Hlo _]).
    split; [|done]. by apply (Hlo _ eq_refl).
  - intros Hdb Hget x Hst Hlo. apply Hmem. repeat split; try done.
    intros d [= <-] _. done.
Qed.

Lemma loadLogs_returns_last_days_witness :
  exists result,
    (loadLogs true true 3000000000 7 "bob" flushed_as_bob).1 = Returned result ∧
    StronglySorted (fun a b => ft_timestamp b <= ft_timestamp a) result ∧
    (forall x, x ∈ result ->
       3000000000 - 7 * 24 * 60 * 60 * 1000 <= ft_timestamp x ∧
       stored_for (remote flushed_as_bob) "bob" x) ∧
    (true = true -> true = true ->
     forall x, stored_for (remote flushed_as_bob) "bob" x ->
       3000000000 - 7 * 24 * 60 * 60 * 1000 <= ft_timestamp x -> x ∈ result).
Proof.
  apply (loadLogs_returns_last_days true true 3000000000 7 "bob" flushed_as_bob).
  by vm_compute.
Defined.

(** ** How [analyzeeLogs] groups the issues *)

Section Grouping.
Import LogAnalytics.

Lemma lookup_store_group k k' g groups :
  lookup_group k (store_group k' g groups) =
  if String.eqb k' k then Some g else lookup_group k groups.
Proof.
  induction groups as [|[k0 g0] groups IH]; simpl.
  - destruct (String.eqb_spec k' k); done.
  - destruct (String.eqb_spec k0 k') as [->|Hne]; simpl.
    + destruct (String.eqb_spec k' k); done.
    + rewrite IH. destruct (String.eqb_spec k0 k) as [->|Hne'].
      * destruct (String.eqb_spec k' k); [congruence|done].
      * done.
Qed.

Lemma lookup_group_None k groups :
  lookup_group k groups = None <-> k ∉ groups.*1.
Proof.
  induction groups as [|[k0 g0] groups IH]; simpl.
  - split; [intros _; apply not_elem_of_nil|done].
  - rewrite not_elem_of_cons. destruct (String.eqb_spec k0 k) as [->|Hne].
    + split; [done|]. intros [? _]. done.
    + rewrite IH. split; [intros ?; split; [congruence|done]|by intros [_ ?]].
Qed.

Lemma store_group_keys k g groups :
  (store_group k g groups).*1 =
  groups.*1 ++ (match lookup_group k groups with Some _ => [] | None => [k] end).
Proof.
  induction groups as [|[k0 g0] groups IH]; csimpl; [done|].
  destruct (String.eqb_spec k0 k) as [->|Hne]; csimpl.
  - by rewrite app_nil_r.
  - by rewrite IH.
Qed.

Lemma lookup_group_elem_of k g groups :
  NoDup groups.*1 -> (k, g) ∈ groups -> lookup_group k groups = Some g.
Proof.
  induction groups as [|[k0 g0] groups IH]; simpl; intros Hnd Hin.
  - by apply elem_of_nil in Hin.
  - apply NoDup_cons in Hnd as [Hk0 Hnd].
    apply elem_of_cons in Hin as [[= -> ->]|Hin].
    + by rewrite String.eqb_refl.
    + destruct (String.eqb_spec k0 k) as [->|Hne]; [|by apply IH].
      exfalso. apply Hk0. apply list_elem_of_fmap. by exists (k, g).
Qed.

Lemma lookup_group_Some_elem_of k g groups :
  lookup_group k groups = Some g -> (k, g) ∈ groups.
Proof.
  induction groups as [|[k0 g0] groups IH]; simpl; [done|].
  destruct (String.eqb_spec k0 k) as [->|Hne].
  - intros [= ->]. left.
  - intros H. right. by apply IH.
Qed.

Lemma add_to_groups_keys groups l :
  NoDup groups.*1 -> NoDup (add_to_groups groups l).*1.
Proof.
  intros Hnd. unfold add_to_groups. rewrite store_group_keys.
  destruct (lookup_group (group_key l) groups) eqn:Hl.
  - by rewrite app_nil_r.
  - apply NoDup_app. split; [done|]. split; [|apply NoDup_singleton].
    intros k Hk Hk'. apply list_elem_of_singleton in Hk' as ->.
    by apply lookup_group_None in Hl.
Qed.

Lemma take_3_snoc {A} (members : list A) (x : A) :
  take 3 (members ++ [x]) =
  if bool_decide (length (take 3 members) < 3)%nat
  then take 3 members ++ [x] else take 3 members.
Proof.
  rewrite length_take. case_bool_decide as Hlen.
  - rewrite (take_ge members) by lia. apply take_ge. rewrite length_app. simpl. lia.
  - apply take_app_le. lia.
Qed.

Lemma group_of_snoc members l g :
  group_of members = Some g ->
  group_of (members ++ [l]) =
  Some (Group (g_category g) (g_message g) (g_level g) (S (g_count g))
          (g_affectedUsers g ∪ {[userId l]})
          (Z.max (g_lastSeen g) (timestamp l))
          (if bool_decide (length (g_examples g) < 3)%nat
           then g_examples g ++ [l] else g_examples g)).
Proof.
  destruct members as [|first rest]; [done|].
  set (members := first :: rest). intros Hg.
  assert (g = Group (category first) (message first) (level first) (length members)
                (list_to_set (userId <$> members))
                (foldl Z.max (timestamp first) (timestamp <$> members))
                (take 3 members)) as -> by (by injection Hg).
  cbn [g_category g_message g_level g_count g_affectedUsers g_lastSeen g_examples].
  rewrite <- take_3_snoc. unfold members. unfold group_of. rewrite <- app_comm_cons.
  f_equal. f_equal.
  - rewrite app_comm_cons, length_app. simpl. lia.
  - rewrite app_comm_cons, fmap_app, list_to_set_app_L. f_equal.
    simpl. apply (right_id_L ∅ (∪)).
  - rewrite app_comm_cons, fmap_app, foldl_app. done.
Qed.

(** After the records [seen] have gone through the loop, the group under
    each key is the one its members make. *)
Lemma groups_after seen : forall k,
  lookup_group k (foldl add_to_groups [] seen) =
  group_of (List.filter (fun l => String.eqb (group_key l) k) seen).
Proof.
  induction seen as [|l seen IH] using rev_ind; intros k; [done|].
  rewrite foldl_snoc, List.filter_app. simpl.
  unfold add_to_groups at 1. rewrite lookup_store_group.
  destruct (String.eqb_spec (group_key l) k) as [Hk|Hk].
  - subst k. rewrite IH.
    destruct (group_of (List.filter (fun l0 => String.eqb (group_key l0) (group_key l)) seen))
      as [g|] eqn:Hg.
    + symmetry. by apply group_of_snoc.
    + destruct (List.filter (fun l0 => String.eqb (group_key l0) (group_key l)) seen);
        [|done].
      simpl. f_equal.
  - by rewrite app_nil_r.
Qed.

Lemma groups_keys_NoDup seen : NoDup (foldl add_to_groups [] seen).*1.
Proof.
  induction seen as [|l seen IH] using rev_ind; [constructor|].
  rewrite foldl_snoc. by apply add_to_groups_keys.
Qed.

Lemma issue_groups_spec logs k g :
  (k, g) ∈ issue_groups logs <-> group_of (group_members k logs) = Some g.
Proof.
  unfold issue_groups, group_members. rewrite <- groups_after. split.
  - apply lookup_group_elem_of, groups_keys_NoDup.
  - apply lookup_group_Some_elem_of.
Qed.

End Grouping.

Section IssueFacts.
Import LogAnalytics.

Lemma insert_issue_insert_by x l :
  insert_issue x l = insert_by (fun a b => bool_decide (i_count b <= i_count a)%nat) x l.
Proof. induction l as [|y l IH]; simpl; [done|]. by rewrite IH. Qed.

Lemma sort_issues_sort_by l :
  sort_issues l = sort_by (fun a b => bool_decide (i_count b <= i_count a)%nat) l.
Proof.
  unfold sort_issues, sort_by.
  induction l as [|x l IH]; simpl; [done|].
  by rewrite IH, insert_issue_insert_by.
Qed.

Lemma sort_issues_perm l : sort_issues l ≡ₚ l.
Proof. rewrite sort_issues_sort_by. apply sort_by_perm. Qed.

Lemma sort_issues_sorted l :
  StronglySorted (fun a b => (i_count b <= i_count a)%nat) (sort_issues l).
Proof.
  rewrite sort_issues_sort_by.
  eapply StronglySorted_weaken; [|apply sort_by_sorted].
  - intros a b H. by apply bool_decide_eq_true in H.
  - intros x y. rewrite !bool_decide_eq_true. lia.
  - intros x y z. rewrite !bool_decide_eq_true. lia.
Qed.

Lemma analyzeeLogs_commonIssues logs :
  commonIssues (analyzeeLogs logs) = take 10 (all_issues logs).
Proof. reflexivity. Qed.

Lemma elem_of_all_issues logs i :
  i ∈ all_issues logs <->
  exists k g, group_of (group_members k logs) = Some g ∧ i = to_issue g.
Proof.
  unfold all_issues. rewrite sort_issues_perm, list_elem_of_fmap. split.
  - intros (g & -> & Hg). apply list_elem_of_fmap in Hg as ([k g'] & -> & Hin).
    exists k, g'. split; [by apply issue_groups_spec|done].
  - intros (k & g & Hg & ->). exists g. split; [done|].
    apply list_elem_of_fmap. exists (k, g). split; [done|]. by apply issue_groups_spec.
Qed.

Lemma group_members_key k logs l :
  l ∈ group_members k logs -> group_key l = k ∧ is_issue l = true ∧ l ∈ logs.
Proof.
  unfold group_members. intros H.
  apply list_elem_of_In, filter_In in H as [H Hk].
  apply filter_In in H as [H Hi]. apply String.eqb_eq in Hk.
  split; [done|]. split; [done|]. by apply list_elem_of_In.
Qed.

Lemma foldl_max_ge (l : list Z) : forall a,
  a <= foldl Z.max a l ∧ forall x, x ∈ l -> x <= foldl Z.max a l.
Proof.
  induction l as [|y l IH]; intros a; simpl.
  - split; [lia|]. intros x Hx. by apply elem_of_nil in Hx.
  - destruct (IH (Z.max a y)) as [H1 H2]. split; [lia|].
    intros x Hx. apply elem_of_cons in Hx as [->|Hx]; [lia|by apply H2].
Qed.

Lemma foldl_max_attained (l : list Z) : forall a,
  foldl Z.max a l = a \/ foldl Z.max a l ∈ l.
Proof.
  induction l as [|y l IH]; intros a; simpl; [by left|].
  destruct (IH (Z.max a y)) as [H|H].
  - rewrite H. destruct (Z.max_spec a y) as [[_ ->]|[_ ->]]; [right; left|by left].
  - right. by right.
Qed.

Lemma size_list_to_set_le (l : list string) :
  (size (list_to_set l : gset string) <= length l)%nat.
Proof.
  induction l as [|x l IH].
  - rewrite list_to_set_nil, size_empty. done.
  - rewrite list_to_set_cons, size_union_alt, size_singleton. cbn [length].
    assert (size (list_to_set l ∖ {[x]} : gset string) <= size (list_to_set l : gset string))%nat.
    { apply subseteq_size. apply subseteq_difference_l. done. }
    lia.
Qed.

(** X11.  Every entry of the common issues describes the warn and error
    records of the window that share its key [category:message]: there is
    at least one, the entry carries the category, message and level of
    the first of them, its count is their number, its affected-user count
    the number of distinct actors among them (at least 1, at most the
    count), its examples their first three, and its last-seen time the
    largest of their timestamps. *)
Theorem common_issue_describes_its_group (logs : list record) (i : issue) :
  i ∈ commonIssues (analyzeeLogs logs) ->
  exists first rest,
    group_members (issue_key i) logs = first :: rest ∧
    i_category i = category first ∧ i_message i = message first ∧
    i_level i = level first ∧
    i_count i = length (first :: rest) ∧
    i_affectedUsers i = size (list_to_set (userId <$> first :: rest) : gset string) ∧
    (1 <= i_affectedUsers i <= i_count i)%nat ∧
    i_examples i = take 3 (first :: rest) ∧
    (forall m, m ∈ first :: rest -> timestamp m <= i_lastSeen i) ∧
    (exists m, m ∈ first :: rest ∧ timestamp m = i_lastSeen i).
Proof.
  rewrite analyzeeLogs_commonIssues. intros Hi.
  apply subseteq_take in Hi.
  apply elem_of_all_issues in Hi as (k & g & Hg & ->).
  destruct (group_members k logs) as [|first rest] eqn:Hm; [done|].
  assert (g = Group (category first) (message first) (level first)
                (length (first :: rest)) (list_to_set (userId <$> first :: rest))
                (foldl Z.max (timestamp first) (timestamp <$> first :: rest))
                (take 3 (first :: rest))) as Hgeq by (by injection Hg).
  assert (k = group_key first) as Hk.
  { symmetry. eapply (group_members_key k logs). rewrite Hm. left. }
  assert (issue_key (to_issue g) = k) as Hkey.
  { by rewrite Hk, Hgeq. }
  rewrite Hkey, Hm, Hgeq. exists first, rest.
  split; [done|]. split; [done|]. split; [done|]. split; [done|].
  split; [done|]. split; [done|]. split; [|split; [done|split]].
  - unfold to_issue, i_affectedUsers, i_count, g_affectedUsers, g_count. split.
    + assert (size (list_to_set (userId <$> first :: rest) : gset string) ≠ 0)%nat; [|lia].
      apply size_non_empty_iff. intros Hempty.
      assert (userId first ∈ (list_to_set (userId <$> first :: rest) : gset string)) as Hin.
      { apply elem_of_list_to_set. rewrite fmap_cons. left. }
      rewrite Hempty in Hin. by apply elem_of_empty in Hin.
    + etrans; [apply size_list_to_set_le|]. by rewrite length_fmap.
  - intros m Hm'. unfold to_issue, i_lastSeen, g_lastSeen.
    apply foldl_max_ge. apply list_elem_of_fmap. by exists m.
  - unfold to_issue, i_lastSeen, g_lastSeen.
    destruct (foldl_max_attained (timestamp <$> first :: rest) (timestamp first)) as [H|H].
    + exists first. split; [left|done].
    + apply list_elem_of_fmap in H as (m & Hm1 & Hm2). by exists m.
Qed.

Lemma common_issue_describes_its_group_witness :
  exists first rest,
    group_members "Auth:x" example_window = first :: rest ∧
    "Auth" = category first ∧ "x" = message first ∧ "warn" = level first ∧
    3%nat = length (first :: rest).
Proof.
  destruct (common_issue_describes_its_group example_window
              (Issue "Auth" "x" "warn" 3 2 40
                 [Record_ "u1" "s1" "l1" 40 "warn" "Auth" "x" "";
                  Record_ "u2" "s2" "l3" 20 "warn" "Auth" "x" "";
                  Record_ "u1" "s1" "l4" 10 "warn" "Auth" "x" ""]))
    as (first & rest & H1 & H2 & H3 & H4 & H5 & _).
  - vm_compute. left.
  - exists first, rest. done.
Defined.

Lemma issue_key_NoDup logs : NoDup (issue_key <$> all_issues logs).
Proof.
  unfold all_issues. rewrite sort_issues_perm.
  assert (issue_key <$> (to_issue <$> (issue_groups logs).*2) = (issue_groups logs).*1) as ->.
  { rewrite <- !list_fmap_compose. apply Forall_fmap_ext_1, Forall_forall.
    intros [k g] Hin. simpl.
    apply issue_groups_spec in Hin.
    destruct (group_members k logs) as [|first rest] eqn:Hm; [done|].
    injection Hin as <-. unfold issue_key. simpl.
    eapply (group_members_key k logs). rewrite Hm. left. }
  apply groups_keys_NoDup.
Qed.

(** X12.  The common issues are the first ten of all issue groups
    arranged by descending count: they are at most ten, ordered by
    non-increasing count, no group that is left out has a larger count
    than one that is shown, no two groups share a key, and every warn or
    error record of the window belongs to one of the groups. *)
Theorem common_issues_are_the_top_ten (logs : list record) :
  let common := commonIssues (analyzeeLogs logs) in
  exists rest,
    all_issues logs = common ++ rest ∧
    length common = (10 `min` length (all_issues logs))%nat ∧
    StronglySorted (fun a b => (i_count b <= i_count a)%nat) common ∧
    (forall i j, i ∈ common -> j ∈ rest -> (i_count j <= i_count i)%nat) ∧
    NoDup (issue_key <$> all_issues logs) ∧
    (forall l, l ∈ logs -> is_issue l = true ->
       exists i, i ∈ all_issues logs ∧ issue_key i = group_key l).
Proof.
  cbv zeta. rewrite analyzeeLogs_commonIssues.
  exists (drop 10 (all_issues logs)).
  pose proof (sort_issues_sorted (to_issue <$> (issue_groups logs).*2)) as Hsorted.
  fold (all_issues logs) in Hsorted.
  rewrite <- (take_drop 10 (all_issues logs)) in Hsorted.
  apply StronglySorted_app in Hsorted as (Hcross & Htake & _).
  split; [by rewrite take_drop|]. split; [by rewrite length_take|].
  split; [done|]. split; [intros i j Hi Hj; by apply Hcross|].
  split; [apply issue_key_NoDup|].
  intros l Hl Hissue.
  assert (l ∈ group_members (group_key l) logs) as Hmem.
  { unfold group_members. apply list_elem_of_In, filter_In. split.
    - apply filter_In. split; [by apply list_elem_of_In|done].
    - apply String.eqb_refl. }
  destruct (group_members (group_key l) logs) as [|first rest] eqn:Hm;
    [by apply elem_of_nil in Hmem|].
  eexists. split.
  - apply elem_of_all_issues. exists (group_key l). eexists. split; [|reflexivity].
    rewrite Hm. reflexivity.
  - unfold issue_key. simpl.
    eapply (group_members_key (group_key l) logs). rewrite Hm. left.
Qed.

Lemma sum_counts_store k g groups :
  (sum_list_with (fun p => g_count p.2) (store_group k g groups) +
   match lookup_group k groups with Some g0 => g_count g0 | None => 0 end =
   sum_list_with (fun p => g_count p.2) groups + g_count g)%nat.
Proof.
  induction groups as [|[k0 g0] groups IH]; simpl; [lia|].
  destruct (String.eqb_spec k0 k) as [->|Hne]; simpl; lia.
Qed.

Lemma sum_counts_add groups l :
  sum_list_with (fun p => g_count p.2) (add_to_groups groups l) =
  S (sum_list_with (fun p => g_count p.2) groups).
Proof.
  unfold add_to_groups.
  pose proof (sum_counts_store (group_key l)
    (Group
       (g_category match lookup_group (group_key l) groups with
                   | Some g => g
                   | None => Group (category l) (message l) (level l) 0 ∅ (timestamp l) []
                   end)
       (g_message match lookup_group (group_key l) groups with
                  | Some g => g
                  | None => Group (category l) (message l) (level l) 0 ∅ (timestamp l) []
                  end)
       (g_level match lookup_group (group_key l) groups with
                | Some g => g
                | None => Group (category l) (message l) (level l) 0 ∅ (timestamp l) []
                end)
       (S (g_count match lookup_group (group_key l) groups with
                   | Some g => g
                   | None => Group (category l) (message l) (level l) 0 ∅ (timestamp l) []
                   end))
       (g_affectedUsers match lookup_group (group_key l) groups with
                        | Some g => g
                        | None => Group (category l) (message l) (level l) 0 ∅ (timestamp l) []
                        end ∪ {[userId l]})
       (Z.max (g_lastSeen match lookup_group (group_key l) groups with
                          | Some g => g
                          | None => Group (category l) (message l) (level l) 0 ∅ (timestamp l) []
                          end) (timestamp l))
       (if bool_decide (length (g_examples match lookup_group (group_key l) groups with
                          | Some g => g
                          | None => Group (category l) (message l) (level l) 0 ∅ (timestamp l) []
                          end) < 3)%nat
        then g_examples match lookup_group (group_key l) groups with
                          | Some g => g
                          | None => Group (category l) (message l) (level l) 0 ∅ (timestamp l) []
                          end ++ [l]
        else g_examples match lookup_group (group_key l) groups with
                          | Some g => g
                          | None => Group (category l) (message l) (level l) 0 ∅ (timestamp l) []
                          end))
    groups) as H.
  cbv zeta. destruct (lookup_group (group_key l) groups); simpl in *; lia.
Qed.

Lemma sum_counts_groups seen :
  sum_list_with (fun p => g_count p.2) (foldl add_to_groups [] seen) = length seen.
Proof.
  induction seen as [|l seen IH] using rev_ind; [done|].
  rewrite foldl_snoc, sum_counts_add, IH, length_app. simpl. lia.
Qed.

Lemma length_filter_or {A} (f g : A -> bool) (l : list A) :
  (forall x, f x = true -> g x = true -> False) ->
  length (List.filter (fun x => f x || g x) l) =
  (length (List.filter f l) + length (List.filter g l))%nat.
Proof.
  intros Hfg. induction l as [|x l IH]; simpl; [done|].
  destruct (f x) eqn:Hf, (g x) eqn:Hg; simpl; try lia.
  exfalso. by eapply Hfg.
Qed.

Lemma category_counters_le (logs : list record) :
  (length (List.filter (fun l => String.eqb (category l) "Auth" &&
                          (String.eqb (level l) "error" || String.eqb (level l) "warn")) logs) +
   length (List.filter (fun l => String.eqb (category l) "Network" &&
                          (String.eqb (level l) "error" || String.eqb (level l) "warn")) logs) +
   length (List.filter (fun l => (String.eqb (category l) "Sync" ||
                                  String.eqb (category l) "Firebase") &&
                          (String.eqb (level l) "error" || String.eqb (level l) "warn")) logs)
   <= length (List.filter is_issue logs))%nat.
Proof.
  induction logs as [|l logs IH]; simpl; [lia|].
  unfold is_issue in *.
  destruct (String.eqb_spec (category l) "Auth") as [Ha|Ha],
           (String.eqb_spec (category l) "Network") as [Hn|Hn],
           (String.eqb_spec (category l) "Sync") as [Hs|Hs],
           (String.eqb_spec (category l) "Firebase") as [Hf|Hf];
    try congruence;
    destruct (String.eqb (level l) "error" || String.eqb (level l) "warn"); simpl; lia.
Qed.

(** X13.  The counts of all issue groups add up to the number of warn and
    error records of the window, which is [totalErrors + totalWarnings];
    the three category counters together do not exceed it, and the number
    of distinct users does not exceed the number of records. *)
Theorem issue_counts_add_up (logs : list record) :
  let st := a_stats (analyzeeLogs logs) in
  sum_list_with i_count (all_issues logs) = (totalErrors st + totalWarnings st)%nat ∧
  (totalErrors st + totalWarnings st)%nat = length (List.filter is_issue logs) ∧
  (authIssues st + networkIssues st + syncIssues st <= totalErrors st + totalWarnings st)%nat ∧
  (totalErrors st + totalWarnings st <= totalLogs st)%nat ∧
  (totalUsers st <= totalLogs st)%nat.
Proof.
  cbv zeta.
  assert (totalErrors (a_stats (analyzeeLogs logs)) + totalWarnings (a_stats (analyzeeLogs logs))
          = length (List.filter is_issue logs))%nat as Htot.
  { unfold analyzeeLogs, is_issue. simpl. symmetry. apply length_filter_or.
    intros x H1 H2. apply String.eqb_eq in H1, H2. congruence. }
  split; [|split; [done|split; [|split]]].
  - rewrite Htot. unfold all_issues. rewrite sort_issues_perm.
    rewrite <- list_fmap_compose.
    rewrite <- (sum_counts_groups (List.filter is_issue logs)).
    unfold issue_groups.
    generalize (foldl add_to_groups [] (List.filter is_issue logs)).
    intros l. induction l as [|p l IH]; [done|]. csimpl. by rewrite IH.
  - rewrite Htot. unfold analyzeeLogs. simpl. apply category_counters_le.
  - rewrite Htot. unfold analyzeeLogs. simpl. apply List.filter_length_le.
  - unfold analyzeeLogs. simpl. etrans; [apply size_list_to_set_le|].
    by rewrite length_fmap.
Qed.

End IssueFacts.

(** ** Loading the window and the recent errors *)

Lemma StronglySorted_filter {A} (R : relation A) (f : A -> bool) l :
  StronglySorted R l -> StronglySorted R (List.filter f l).
Proof.
  induction 1 as [|x l Hl IH Hx]; simpl; [constructor|].
  destruct (f x); [|done]. constructor; [done|].
  apply Forall_forall. intros y Hy.
  apply list_elem_of_In, filter_In in Hy as [Hy _].
  apply (proj1 (Forall_forall _ _) Hx). by apply list_elem_of_In.
Qed.


Section Window.
Variable push_id : nat -> string.




End Window.


(** X14.  On a window ordered newest first, as [loadAllLogs] delivers it,
    the recent errors are the newest error records: at most twenty, all
    of level [error], newest first, and the error records left out are
    none of them newer than a listed one. *)
Theorem recent_errors_are_the_newest (logs : list LogAnalytics.record) :
  StronglySorted (fun a b => LogAnalytics.timestamp b <= LogAnalytics.timestamp a) logs ->
  let recent := LogAnalytics.recentErrors (LogAnalytics.analyzeeLogs logs) in
  exists older,
    recent ++ older = filter (fun l => LogAnalytics.level l = "error") logs ∧
    length recent =
      (20 `min` LogAnalytics.totalErrors
                  (LogAnalytics.a_stats (LogAnalytics.analyzeeLogs logs)))%nat ∧
    StronglySorted
      (fun a b => LogAnalytics.timestamp b <= LogAnalytics.timestamp a) recent ∧
    (forall e x, e ∈ recent -> x ∈ older ->
       LogAnalytics.timestamp x <= LogAnalytics.timestamp e).
Proof.
  intros Hsorted recent. subst recent. unfold LogAnalytics.analyzeeLogs. simpl.
  set (errors := List.filter (fun l => String.eqb (LogAnalytics.level l) "error") logs).
  assert (errors = filter (fun l => LogAnalytics.level l = "error") logs) as Herr.
  { apply filter_bool_decide. intros x. apply String.eqb_eq. }
  assert (StronglySorted
            (fun a b => LogAnalytics.timestamp b <= LogAnalytics.timestamp a) errors) as Hs.
  { by apply StronglySorted_filter. }
  rewrite <- (take_drop 20 errors) in Hs.
  apply StronglySorted_app in Hs as (Hcross & Htake & _).
  exists (drop 20 errors).
  split; [by rewrite take_drop|]. split; [by rewrite length_take|].
  split; [done|]. intros e x He Hx. by apply Hcross.
Qed.

Lemma recent_errors_are_the_newest_witness :
  exists older,
    LogAnalytics.recentErrors (LogAnalytics.analyzeeLogs example_window) ++ older =
    filter (fun l => LogAnalytics.level l = "error") example_window.
Proof.
  destruct (recent_errors_are_the_newest example_window) as (older & H & _).
  - repeat (constructor; [|repeat (constructor; [by vm_compute|]); constructor]).
    constructor.
  - by exists older.
Defined.
